(** * NodeModal: path-addressed reading and writing of a JSON document

    A shallow embedding of [src/features/modals/NodeModal/index.tsx]:
    [normalizeNodeData], [getFullNodeValue], [updateJsonAtPath],
    [jsonPathToString] and the handlers of the [NodeModal] component,
    followed by the vocabulary of their properties and by the properties.

    The functions of the source run on JavaScript values, so the first part
    of the file fixes the fragment of JavaScript they use:

    - a value is [undefined], [null], a boolean, a number, a string, an array
      or an object.  A string is a sequence of code units below 256.  A number
      is carried as the text JavaScript prints for it ([12], [-7], [1.5]);
      the source does no arithmetic on numbers;
    - an object is the list of its own properties in the order JavaScript
      enumerates them, an array the list of its elements, a hole being
      [undefined];
    - the module is an ES module, hence strict code: writing a property of a
      primitive throws [TypeError];
    - a property read follows the prototype chain.  The functions and the
      prototype objects it finds there are not values of the fragment: a
      read of a name that the value does not own and that names a member of
      a built-in prototype ([constructor], [toString], [__proto__], the
      methods of arrays and strings, listed in [builtin_names]) is
      [Unsupported].  A name that no prototype has reads as [undefined];
    - an assignment follows the prototype chain as well, where it meets one
      setter, that of [__proto__]: unless the object owns a property of that
      name, the assignment changes at most the prototype of the object, which
      nothing in the module reads afterwards, and on a primitive it does
      nothing.  Any other name is created or overwritten on the object;
    - what the fragment leaves out of an operation it does model (writing the
      [length] of an array, a number literal with a fraction or an exponent
      or beyond the safe integers, a [\u] escape above 255) is reported as
      [Unsupported], never guessed; a text that is not JSON is a
      [SyntaxError] whatever it holds: [JSON.parse] throws exactly on the
      texts outside the grammar of JSON ([well_formed],
      [JSON_parse_not_json]);
    - [JSON.stringify] and [JSON.parse] are written out, and the second is
      proved to read back what the first prints ([JSON_parse_stringify]).

    The stores [useJson] and [useFile] and the type [NodeData] are not part
    of the sources; they are modelled from the spec where they are used. *)

From stdpp Require Import base option list strings pretty.
From Stdlib Require Import Ascii String NArith Lia.

Local Open Scope string_scope.
Local Open Scope list_scope.

(** ** Characters and small helpers *)

Definition dquote : ascii := "034"%char.
Definition backslash : ascii := "092"%char.
Definition LF : string := String "010"%char "".

(** [q s] is [s] between double quotes. *)
Definition q (s : string) : string := String dquote (s +:+ String dquote "").

(** ** Completions *)

Inductive error : Type :=
| SyntaxError
| TypeError
| Error (message : string).

Inductive completion (A : Type) : Type :=
| Normal (a : A)
| Throw (e : error)
| Unsupported.

Arguments Normal {A} a.
Arguments Throw {A} e.
Arguments Unsupported {A}.

Global Instance completion_ret : MRet completion := @Normal.

Global Instance completion_bind : MBind completion := λ A B k c,
  match c with
  | Normal a => k a
  | Throw e => Throw e
  | Unsupported => Unsupported
  end.

(** [try { c } catch (error) { handler error }] *)
Definition try_catch {A : Type} (c : completion A) (handler : error → completion A) : completion A :=
  match c with
  | Throw e => handler e
  | _ => c
  end.

(** ** Values *)

Local Unset Elimination Schemes.

Inductive value : Type :=
| VUndefined
| VNull
| VBool (b : bool)
| VNum (text : string)
| VStr (s : string)
| VArr (elems : list value)
| VObj (props : list (string * value)).

Local Set Elimination Schemes.

(** Induction on a value gives the property for the elements of an array and
    for the property values of an object. *)
Definition value_ind (P : value → Prop)
    (Hundefined : P VUndefined) (Hnull : P VNull)
    (Hbool : ∀ b, P (VBool b)) (Hnum : ∀ text, P (VNum text)) (Hstr : ∀ s, P (VStr s))
    (Harr : ∀ elems, Forall P elems → P (VArr elems))
    (Hobj : ∀ props, Forall (λ kv, P kv.2) props → P (VObj props)) : ∀ v, P v :=
  fix go (v : value) : P v :=
    match v with
    | VUndefined => Hundefined
    | VNull => Hnull
    | VBool b => Hbool b
    | VNum text => Hnum text
    | VStr s => Hstr s
    | VArr elems =>
        Harr elems ((fix all (l : list value) : Forall P l :=
          match l with
          | [] => List.Forall_nil P
          | x :: l' => List.Forall_cons P x l' (go x) (all l')
          end) elems)
    | VObj props =>
        Hobj props ((fix all (l : list (string * value)) : Forall (λ kv, P kv.2) l :=
          match l with
          | [] => List.Forall_nil _
          | kv :: l' => List.Forall_cons (λ kv, P kv.2) kv l' (go kv.2) (all l')
          end) props)
    end.

(** A path segment: an object key or an array index. *)
Inductive segment : Type :=
| Key (s : string)
| Index (i : N).

Abbreviation path := (list segment).

(** The property name a segment stands for in [current[seg]]. *)
Definition property_key (seg : segment) : string :=
  match seg with
  | Key s => s
  | Index i => pretty i
  end.

(** *** Array indices

    A property name is an array index when it is the decimal text of a
    number below [2^32 - 1]. *)

Definition digit_of (c : ascii) : option N :=
  let n := N_of_ascii c in
  if ((48 <=? n) && (n <=? 57))%N then Some (n - 48)%N else None.

Fixpoint digits_value (acc : N) (s : string) : option N :=
  match s with
  | "" => Some acc
  | String c rest =>
      match digit_of c with
      | Some d => digits_value (acc * 10 + d) rest
      | None => None
      end
  end.

Definition canonical_numeric (k : string) : option N :=
  match k with
  | "" => None
  | _ =>
      match digits_value 0 k with
      | Some n => if bool_decide (pretty n = k) then Some n else None
      | None => None
      end
  end.

Definition max_array_index : N := 4294967295.

Definition array_index (k : string) : option N :=
  match canonical_numeric k with
  | Some n => if (n <? max_array_index)%N then Some n else None
  | None => None
  end.

(** *** Own properties *)

Fixpoint lookup_prop (k : string) (props : list (string * value)) : option value :=
  match props with
  | [] => None
  | (k', v) :: rest => if bool_decide (k = k') then Some v else lookup_prop k rest
  end.

Definition number_of_nat (n : nat) : value := VNum (pretty (N.of_nat n)).

(** The own property [k] of [v], when [v] has one. *)
Definition own (v : value) (k : string) : option value :=
  match v with
  | VObj props => lookup_prop k props
  | VArr elems =>
      if bool_decide (k = "length") then Some (number_of_nat (List.length elems))
      else i ← array_index k; elems !! N.to_nat i
  | VStr s =>
      if bool_decide (k = "length") then Some (number_of_nat (String.length s))
      else i ← canonical_numeric k; c ← String.get (N.to_nat i) s; Some (VStr (String c ""))
  | _ => None
  end.

(** *** Inherited properties

    The names of the members of the prototypes of objects, arrays, strings,
    numbers and booleans.  A value that does not own a property of one of
    these names may inherit it. *)
Definition builtin_names : list string := [
  (* Object.prototype *)
  "constructor"; "__defineGetter__"; "__defineSetter__"; "hasOwnProperty";
  "__lookupGetter__"; "__lookupSetter__"; "isPrototypeOf"; "propertyIsEnumerable";
  "toString"; "valueOf"; "__proto__"; "toLocaleString";
  (* Array.prototype *)
  "at"; "concat"; "copyWithin"; "entries"; "every"; "fill"; "filter"; "find";
  "findIndex"; "findLast"; "findLastIndex"; "flat"; "flatMap"; "forEach";
  "group"; "groupBy"; "groupByToMap"; "groupToMap"; "includes"; "indexOf";
  "join"; "keys"; "lastIndexOf"; "map"; "pop"; "push"; "reduce"; "reduceRight";
  "reverse"; "shift"; "slice"; "some"; "sort"; "splice"; "toReversed"; "toSorted";
  "toSpliced"; "unshift"; "values"; "with";
  (* String.prototype *)
  "anchor"; "big"; "blink"; "bold"; "charAt"; "charCodeAt"; "codePointAt";
  "endsWith"; "fixed"; "fontcolor"; "fontsize"; "isWellFormed"; "italics"; "link";
  "localeCompare"; "match"; "matchAll"; "normalize"; "padEnd"; "padStart"; "repeat";
  "replace"; "replaceAll"; "search"; "small"; "split"; "startsWith"; "strike";
  "sub"; "substr"; "substring"; "sup"; "toLocaleLowerCase"; "toLocaleUpperCase";
  "toLowerCase"; "toUpperCase"; "toWellFormed"; "trim"; "trimEnd"; "trimLeft";
  "trimRight"; "trimStart";
  (* Number.prototype *)
  "toExponential"; "toFixed"; "toPrecision" ].

Definition builtin_name (k : string) : bool :=
  existsb (λ name, bool_decide (k = name)) builtin_names.

Global Arguments builtin_name : simpl never.

(** [v[k]]: the own property, or what the prototype chain has under [k]:
    nothing, or a member of a built-in prototype. *)
Definition get (v : value) (k : string) : completion value :=
  match v with
  | VUndefined | VNull => Throw TypeError
  | _ =>
      match own v k with
      | Some x => Normal x
      | None => if builtin_name k then Unsupported else Normal VUndefined
      end
  end.

(** Own property order: array indices in ascending order, then the other
    names in the order of their creation. *)
Fixpoint insert_index (i : N) (k : string) (v : value) (props : list (string * value))
  : list (string * value) :=
  match props with
  | [] => [(k, v)]
  | (k', v') :: rest =>
      match array_index k' with
      | Some j => if (j <? i)%N then (k', v') :: insert_index i k v rest
                  else (k, v) :: props
      | None => (k, v) :: props
      end
  end.

Fixpoint replace_prop (k : string) (v : value) (props : list (string * value))
  : list (string * value) :=
  match props with
  | [] => []
  | (k', v') :: rest =>
      if bool_decide (k = k') then (k', v) :: rest else (k', v') :: replace_prop k v rest
  end.

(** Create or overwrite the own data property [k]. *)
Definition define_prop (k : string) (v : value) (props : list (string * value))
  : list (string * value) :=
  match lookup_prop k props with
  | Some _ => replace_prop k v props
  | None =>
      match array_index k with
      | Some i => insert_index i k v props
      | None => props ++ [(k, v)]
      end
  end.

(** Write element [i] of an array, extending it with holes when [i] is past
    the end. *)
Definition write_element (i : nat) (v : value) (elems : list value) : list value :=
  if decide (i < List.length elems) then <[i:=v]> elems
  else elems ++ replicate (i - List.length elems) VUndefined ++ [v].

(** [o[k] = v] in strict code; the result is [o] after the assignment.

    The name [__proto__] is inherited as a setter, which an object that owns
    no property of that name runs: it changes the prototype of the object or
    nothing, and leaves its own properties as they are; on a primitive it
    does nothing and does not throw.  The other inherited members are
    writable data properties, which an assignment shadows with an own
    property. *)
Definition set (o : value) (k : string) (v : value) : completion value :=
  match o with
  | VUndefined | VNull => Throw TypeError
  | VBool _ | VNum _ | VStr _ =>
      if bool_decide (k = "__proto__") then Normal o else Throw TypeError
  | VObj props =>
      if bool_decide (k = "__proto__") && bool_decide (lookup_prop k props = None)
      then Normal o
      else Normal (VObj (define_prop k v props))
  | VArr elems =>
      match array_index k with
      | Some i => Normal (VArr (write_element (N.to_nat i) v elems))
      | None =>
          if bool_decide (k = "length") then Unsupported
          else Normal (VArr elems) (* a named property, which JSON.stringify skips,
                                      or the setter of [__proto__] *)
      end
  end.

(** ** [JSON.stringify(value, null, 2)] *)

Definition hex_digit (n : N) : ascii :=
  ascii_of_N (if (n <? 10)%N then 48 + n else 87 + n)%N.

(** The text of one code unit inside a quoted string. *)
Definition escape (c : ascii) : string :=
  let n := N_of_ascii c in
  if (n =? 8)%N then String backslash "b"
  else if (n =? 9)%N then String backslash "t"
  else if (n =? 10)%N then String backslash "n"
  else if (n =? 12)%N then String backslash "f"
  else if (n =? 13)%N then String backslash "r"
  else if (n =? 34)%N then String backslash (String dquote "")
  else if (n =? 92)%N then String backslash (String backslash "")
  else if (n <? 32)%N then
    String backslash ("u00" +:+ String (hex_digit (n / 16)) (String (hex_digit (n mod 16)) ""))
  else String c "".

Fixpoint escape_all (s : string) : string :=
  match s with
  | "" => ""
  | String c rest => escape c +:+ escape_all rest
  end.

Definition quote (s : string) : string := q (escape_all s).

(** A number that is not finite is printed as [null]. *)
Definition finite (text : string) : bool :=
  negb (bool_decide (text = "NaN") || bool_decide (text = "Infinity")
        || bool_decide (text = "-Infinity")).

Definition gap : string := "  ".

(** The members of an array or object between their brackets, one per line. *)
Definition wrap (opening closing stepback indent : string) (partial : list string) : string :=
  match partial with
  | [] => opening +:+ closing
  | _ => opening +:+ LF +:+ indent +:+ String.concat ("," +:+ LF +:+ indent) partial
         +:+ LF +:+ stepback +:+ closing
  end.

Fixpoint serialize (stepback : string) (v : value) : option string :=
  let indent := stepback +:+ gap in
  match v with
  | VUndefined => None
  | VNull => Some "null"
  | VBool b => Some (if b then "true" else "false")
  | VNum text => Some (if finite text then text else "null")
  | VStr s => Some (quote s)
  | VArr elems =>
      Some (wrap "[" "]" stepback indent
              (map (λ e, default "null" (serialize indent e)) elems))
  | VObj props =>
      Some (wrap "{" "}" stepback indent
              (omap (λ kv, (λ t, quote kv.1 +:+ ": " +:+ t) <$> serialize indent kv.2) props))
  end.

(** The result is [None] when [JSON.stringify] returns [undefined]. *)
Definition JSON_stringify (v : value) : option string := serialize "" v.

(** ** [JSON.parse(text)] *)

Definition is_ws (c : ascii) : bool :=
  let n := N_of_ascii c in
  ((n =? 32) || (n =? 9) || (n =? 10) || (n =? 13))%N.

Fixpoint skip_ws (s : string) : string :=
  match s with
  | String c rest => if is_ws c then skip_ws rest else s
  | "" => ""
  end.

(** [expect c s] is what follows [c] at the head of [s]. *)
Definition expect (c : ascii) (s : string) : option string :=
  match s with
  | String c' rest => if Ascii.eqb c c' then Some rest else None
  | "" => None
  end.

Fixpoint expect_all (word s : string) : option string :=
  match word with
  | "" => Some s
  | String c word' =>
      match expect c s with
      | Some rest => expect_all word' rest
      | None => None
      end
  end.

Definition hex_value (c : ascii) : option N :=
  let n := N_of_ascii c in
  if ((48 <=? n) && (n <=? 57))%N then Some (n - 48)%N
  else if ((97 <=? n) && (n <=? 102))%N then Some (n - 87)%N
  else if ((65 <=? n) && (n <=? 70))%N then Some (n - 55)%N
  else None.

(** The code unit a one-letter escape stands for. *)
Definition unescape (e : ascii) : option ascii :=
  let n := N_of_ascii e in
  if (n =? 34)%N then Some dquote
  else if (n =? 92)%N then Some backslash
  else if (n =? 47)%N then Some "/"%char
  else if (n =? 98)%N then Some "008"%char
  else if (n =? 102)%N then Some "012"%char
  else if (n =? 110)%N then Some "010"%char
  else if (n =? 114)%N then Some "013"%char
  else if (n =? 116)%N then Some "009"%char
  else None.

Definition code_unit (h1 h2 h3 h4 : ascii) : option N :=
  a ← hex_value h1; b ← hex_value h2; c ← hex_value h3; d ← hex_value h4;
  Some (((a * 16 + b) * 16 + c) * 16 + d)%N.

(** The characters of a string literal after its opening quote, and what
    follows the closing quote. *)
Fixpoint parse_chars (s : string) : completion (string * string) :=
  match s with
  | "" => Throw SyntaxError
  | String c rest =>
      if Ascii.eqb c dquote then Normal ("", rest)
      else if Ascii.eqb c backslash then
        match rest with
        | "" => Throw SyntaxError
        | String e rest' =>
            if Ascii.eqb e "u" then
              match rest' with
              | String h1 (String h2 (String h3 (String h4 rest''))) =>
                  match code_unit h1 h2 h3 h4 with
                  | Some n =>
                      if (n <? 256)%N then
                        '(t, r) ← parse_chars rest''; Normal (String (ascii_of_N n) t, r)
                      else Unsupported
                  | None => Throw SyntaxError
                  end
              | _ => Throw SyntaxError
              end
            else
              match unescape e with
              | Some x => '(t, r) ← parse_chars rest'; Normal (String x t, r)
              | None => Throw SyntaxError
              end
        end
      else if (N_of_ascii c <? 32)%N then Throw SyntaxError
      else '(t, r) ← parse_chars rest; Normal (String c t, r)
  end.

Definition is_digit (c : ascii) : bool := bool_decide (is_Some (digit_of c)).

Fixpoint take_digits (s : string) : string * string :=
  match s with
  | String c rest =>
      if is_digit c then let '(d, r) := take_digits rest in (String c d, r) else ("", s)
  | "" => ("", "")
  end.

Definition max_safe_integer : N := 9007199254740991.

(** The text JavaScript prints for the integer [n], negative or not; there
    is no negative zero in the output. *)
Definition integer_text (negative : bool) (n : N) : string :=
  if negative && negb (n =? 0)%N then String "-" (pretty n) else pretty n.

(** The number of an integer literal within the safe range; a fraction or
    an exponent needs the conversion to a double. *)
Definition finish_number (negative : bool) (digits rest : string) : completion (value * string) :=
  if match rest with
     | String c _ => Ascii.eqb c "." || Ascii.eqb c "e" || Ascii.eqb c "E"
     | "" => false
     end
  then Unsupported
  else
    match digits_value 0 digits with
    | Some n =>
        if (n <=? max_safe_integer)%N then Normal (VNum (integer_text negative n), rest)
        else Unsupported
    | None => Throw SyntaxError
    end.

Definition parse_number (s : string) : completion (value * string) :=
  let '(negative, s1) :=
    match expect "-" s with Some rest => (true, rest) | None => (false, s) end in
  match s1 with
  | "" => Throw SyntaxError
  | String c rest =>
      if Ascii.eqb c "0" then finish_number negative "0" rest
      else if is_digit c then
        let '(d, r) := take_digits rest in finish_number negative (String c d) r
      else Throw SyntaxError
  end.

Definition parse_literal (s : string) : completion (value * string) :=
  match expect_all "true" s, expect_all "false" s, expect_all "null" s with
  | Some r, _, _ => Normal (VBool true, r)
  | _, Some r, _ => Normal (VBool false, r)
  | _, _, Some r => Normal (VNull, r)
  | _, _, _ => Throw SyntaxError
  end.

(** Recursive descent; [fuel] bounds the nesting of the calls and running
    out of it is [Unsupported]. *)
Fixpoint parse_value (fuel : nat) (s : string) : completion (value * string) :=
  match fuel with
  | 0 => Unsupported
  | S fuel =>
      match skip_ws s with
      | "" => Throw SyntaxError
      | String c rest =>
          if Ascii.eqb c "{" then
            match expect "}" (skip_ws rest) with
            | Some rest' => Normal (VObj [], rest')
            | None => '(props, r) ← parse_members fuel [] rest; Normal (VObj props, r)
            end
          else if Ascii.eqb c "[" then
            match expect "]" (skip_ws rest) with
            | Some rest' => Normal (VArr [], rest')
            | None => '(elems, r) ← parse_elements fuel rest; Normal (VArr elems, r)
            end
          else if Ascii.eqb c dquote then
            '(t, r) ← parse_chars rest; Normal (VStr t, r)
          else if Ascii.eqb c "-" || is_digit c then parse_number (String c rest)
          else parse_literal (String c rest)
      end
  end
with parse_elements (fuel : nat) (s : string) : completion (list value * string) :=
  match fuel with
  | 0 => Unsupported
  | S fuel =>
      '(v, r) ← parse_value fuel s;
      match expect "," (skip_ws r), expect "]" (skip_ws r) with
      | Some r', _ => '(vs, r'') ← parse_elements fuel r'; Normal (v :: vs, r'')
      | _, Some r' => Normal ([v], r')
      | _, _ => Throw SyntaxError
      end
  end
with parse_members (fuel : nat) (acc : list (string * value)) (s : string)
  : completion (list (string * value) * string) :=
  match fuel with
  | 0 => Unsupported
  | S fuel =>
      match expect dquote (skip_ws s) with
      | None => Throw SyntaxError
      | Some r =>
          '(k, r1) ← parse_chars r;
          match expect ":" (skip_ws r1) with
          | None => Throw SyntaxError
          | Some r2 =>
              '(v, r3) ← parse_value fuel r2;
              let acc' := define_prop k v acc in
              match expect "," (skip_ws r3), expect "}" (skip_ws r3) with
              | Some r4, _ => parse_members fuel acc' r4
              | _, Some r4 => Normal (acc', r4)
              | _, _ => Throw SyntaxError
              end
          end
      end
  end.

(** *** The grammar

    Whether a text is JSON, read off the grammar one character at a time:
    [JSON.parse] throws [SyntaxError] on every other text, also where the
    text holds, before the error, a number or an escape that the parser
    above does not evaluate. *)
Inductive frame : Type :=
| in_array
| in_object.

Inductive mode : Type :=
| at_value (may_close : bool) (* a value is expected, or [']'] right after ['['] *)
| at_key (may_close : bool)   (* a key is expected, or ['}'] right after ['{'] *)
| at_colon
| after_value
| in_string (key : bool)
| in_escape (key : bool)
| in_hex (key : bool) (more : nat)
| in_literal (rest : string)
| num_minus
| num_zero
| num_int
| num_dot
| num_frac
| num_e
| num_sign
| num_exp.

Definition is_hex (c : ascii) : bool := bool_decide (is_Some (hex_value c)).

(** The first character of a value. *)
Definition open_value (c : ascii) (stack : list frame) : option (mode * list frame) :=
  if Ascii.eqb c "{" then Some (at_key true, in_object :: stack)
  else if Ascii.eqb c "[" then Some (at_value true, in_array :: stack)
  else if Ascii.eqb c dquote then Some (in_string false, stack)
  else if Ascii.eqb c "-" then Some (num_minus, stack)
  else if Ascii.eqb c "0" then Some (num_zero, stack)
  else if is_digit c then Some (num_int, stack)
  else if Ascii.eqb c "t" then Some (in_literal "rue", stack)
  else if Ascii.eqb c "f" then Some (in_literal "alse", stack)
  else if Ascii.eqb c "n" then Some (in_literal "ull", stack)
  else None.

(** What may follow a value. *)
Definition close_value (c : ascii) (stack : list frame) : option (mode * list frame) :=
  if is_ws c then Some (after_value, stack)
  else
    match stack with
    | in_array :: outer =>
        if Ascii.eqb c "," then Some (at_value false, stack)
        else if Ascii.eqb c "]" then Some (after_value, outer)
        else None
    | in_object :: outer =>
        if Ascii.eqb c "," then Some (at_key false, stack)
        else if Ascii.eqb c "}" then Some (after_value, outer)
        else None
    | [] => None
    end.

Definition step (m : mode) (stack : list frame) (c : ascii) : option (mode * list frame) :=
  match m with
  | at_value may_close =>
      if is_ws c then Some (m, stack)
      else if may_close && Ascii.eqb c "]" then Some (after_value, tail stack)
      else open_value c stack
  | at_key may_close =>
      if is_ws c then Some (m, stack)
      else if may_close && Ascii.eqb c "}" then Some (after_value, tail stack)
      else if Ascii.eqb c dquote then Some (in_string true, stack)
      else None
  | at_colon =>
      if is_ws c then Some (m, stack)
      else if Ascii.eqb c ":" then Some (at_value false, stack)
      else None
  | after_value => close_value c stack
  | in_string key =>
      if Ascii.eqb c dquote then Some (if key then at_colon else after_value, stack)
      else if Ascii.eqb c backslash then Some (in_escape key, stack)
      else if (N_of_ascii c <? 32)%N then None
      else Some (m, stack)
  | in_escape key =>
      if Ascii.eqb c "u" then Some (in_hex key 3, stack)
      else if bool_decide (is_Some (unescape c)) then Some (in_string key, stack)
      else None
  | in_hex key more =>
      if is_hex c then
        Some (match more with 0 => in_string key | S n => in_hex key n end, stack)
      else None
  | in_literal rest =>
      match rest with
      | String c' "" => if Ascii.eqb c c' then Some (after_value, stack) else None
      | String c' rest' => if Ascii.eqb c c' then Some (in_literal rest', stack) else None
      | "" => None
      end
  | num_minus =>
      if Ascii.eqb c "0" then Some (num_zero, stack)
      else if is_digit c then Some (num_int, stack)
      else None
  | num_zero =>
      if Ascii.eqb c "." then Some (num_dot, stack)
      else if Ascii.eqb c "e" || Ascii.eqb c "E" then Some (num_e, stack)
      else close_value c stack
  | num_int =>
      if is_digit c then Some (m, stack)
      else if Ascii.eqb c "." then Some (num_dot, stack)
      else if Ascii.eqb c "e" || Ascii.eqb c "E" then Some (num_e, stack)
      else close_value c stack
  | num_dot => if is_digit c then Some (num_frac, stack) else None
  | num_frac =>
      if is_digit c then Some (m, stack)
      else if Ascii.eqb c "e" || Ascii.eqb c "E" then Some (num_e, stack)
      else close_value c stack
  | num_e =>
      if Ascii.eqb c "+" || Ascii.eqb c "-" then Some (num_sign, stack)
      else if is_digit c then Some (num_exp, stack)
      else None
  | num_sign => if is_digit c then Some (num_exp, stack) else None
  | num_exp => if is_digit c then Some (m, stack) else close_value c stack
  end.

(** The text ends where a value has ended, outside every array and object. *)
Definition accepting (m : mode) (stack : list frame) : bool :=
  match stack, m with
  | [], (after_value | num_zero | num_int | num_frac | num_exp) => true
  | _, _ => false
  end.

Fixpoint run (m : mode) (stack : list frame) (text : string) : bool :=
  match text with
  | "" => accepting m stack
  | String c rest =>
      match step m stack c with
      | Some (m', stack') => run m' stack' rest
      | None => false
      end
  end.

Definition well_formed (text : string) : bool := run (at_value false) [] text.

(** [JSON.parse(text)]: the value of the text; on a text that the parser
    above gives up, the grammar tells a [SyntaxError] from a value outside
    the fragment. *)
Definition JSON_parse (text : string) : completion value :=
  match parse_value (S (String.length text)) text with
  | Normal (v, r) =>
      match skip_ws r with
      | "" => Normal v
      | _ => Throw SyntaxError
      end
  | Throw e => Throw e
  | Unsupported => if well_formed text then Unsupported else Throw SyntaxError
  end.

(** ** The functions of the module *)

(** Modelled from the spec: [NodeData] and its rows are declared in
    [types/graph], which is not part of the sources.  A row is a labeled
    child field: an optional key, a scalar value and the tag of its type;
    a node has its rows and, optionally, its path in the document. *)
Inductive scalar : Type :=
| SNull
| SBool (b : bool)
| SNum (text : string)
| SStr (s : string).

Record NodeRow : Type := {
  row_key : option string;
  row_value : scalar;
  row_type : string;
}.

Record NodeData : Type := {
  text : list NodeRow;
  node_path : option path;
}.

Definition value_of_scalar (x : scalar) : value :=
  match x with
  | SNull => VNull
  | SBool b => VBool b
  | SNum t => VNum t
  | SStr s => VStr s
  end.

(** [`${x}`] *)
Definition to_string (x : scalar) : string :=
  match x with
  | SNull => "null"
  | SBool b => if b then "true" else "false"
  | SNum t => t
  | SStr s => s
  end.

(** The keys [k] for which [if (k)] holds: the non-empty strings. *)
Definition truthy (k : option string) : option string :=
  match k with
  | Some (String c rest) => Some (String c rest)
  | _ => None
  end.

(** The object [obj] of [normalizeNodeData] while it is built: its own
    properties, and whether it has lost its prototype.  It starts as [{}],
    with the prototype of objects. *)
Record preview : Type := {
  properties : list (string * value);
  detached : bool;
}.

Definition empty_preview : preview := {| properties := []; detached := false |}.

(** [obj[k] = v] on that object.  While the object has its prototype, the
    name [__proto__] is the inherited setter: given [null] it takes the
    prototype away, given another scalar it does nothing, and it creates no
    property; once the prototype is gone the name is a property like
    another. *)
Definition assign_field (obj : preview) (k : string) (v : value) : preview :=
  if bool_decide (k = "__proto__") && negb (detached obj) then
    match v with
    | VNull => {| properties := properties obj; detached := true |}
    | _ => obj
    end
  else {| properties := define_prop k v (properties obj); detached := detached obj |}.

(** The body of the [forEach] of [normalizeNodeData]. *)
Definition add_row (obj : preview) (row : NodeRow) : preview :=
  if negb (bool_decide (row_type row = "array")) && negb (bool_decide (row_type row = "object"))
  then
    match truthy (row_key row) with
    | Some k => assign_field obj k (value_of_scalar (row_value row))
    | None => obj
    end
  else obj.

Definition normalizeNodeData (nodeRows : option (list NodeRow)) : option string :=
  match nodeRows with
  | None | Some [] => Some "{}"
  | Some (row0 :: others) =>
      match others, truthy (row_key row0) with
      | [], None => Some (to_string (row_value row0))
      | _, _ =>
          JSON_stringify (VObj (properties (fold_left add_row (row0 :: others) empty_preview)))
      end
  end.

(** The loop [current = current[path[i]]]. *)
Fixpoint navigate (current : value) (segs : list segment) : completion value :=
  match segs with
  | [] => Normal current
  | seg :: rest => next ← get current (property_key seg); navigate next rest
  end.

Definition getFullNodeValue (jsonString : string) (path : option path)
  : completion (option string) :=
  try_catch
    (json ← JSON_parse jsonString;
     match path with
     | None | Some [] => Normal (JSON_stringify json)
     | Some segs =>
         current ← navigate json segs;
         Normal (JSON_stringify current)
     end)
    (λ _, Normal (Some "{}")).

(** [json] with its member [k] replaced by [child]; [k] names a member that
    holds an object or an array. *)
Definition put_child (json : value) (k : string) (child : value) : value :=
  match json with
  | VObj props => VObj (replace_prop k child props)
  | VArr elems =>
      match array_index k with
      | Some i => VArr (<[N.to_nat i:=child]> elems)
      | None => json
      end
  | _ => json
  end.

(** In [updateJsonAtPath], [current] is a reference into [json], so the
    assignment [current[lastKey] = newValue] is seen from [json].
    [assign json segs lastKey newValue] is [json] after the loop over [segs]
    and that assignment. *)
Fixpoint assign (json : value) (segs : list segment) (lastKey : segment) (newValue : value)
  : completion value :=
  match segs with
  | [] => set json (property_key lastKey) newValue
  | seg :: rest =>
      current ← get json (property_key seg);
      current' ← assign current rest lastKey newValue;
      Normal (put_child json (property_key seg) current')
  end.

Definition updateJsonAtPath (jsonString : string) (path : option path) (newValue : value)
  : completion (option string) :=
  try_catch
    (json ← JSON_parse jsonString;
     match path with
     | None | Some [] => Normal (JSON_stringify newValue)
     | Some (seg :: rest) =>
         let lastKey := List.last rest seg in
         json' ← assign json (removelast (seg :: rest)) lastKey newValue;
         Normal (JSON_stringify json')
     end)
    (λ _, Throw (Error "Failed to update JSON at path")).

Definition jsonPathToString (path : option path) : string :=
  match path with
  | None | Some [] => "$"
  | Some segs =>
      let segments :=
        map (λ seg, match seg with Index i => pretty i | Key s => q s end) segs in
      "$[" +:+ String.concat "][" segments +:+ "]"
  end.

(** ** The component *)

Inductive toast : Type :=
| toast_success (message : string)
| toast_error (message : string).

(** The state the handlers of [NodeModal] read and write.

    Modelled from the spec: the stores [useJson] and [useFile] are not part
    of the sources; they are the document store of the spec, one cell that
    [getJson] reads and [setContents] writes, synchronously. *)
Record state : Type := {
  json : string;
  selectedNode : option NodeData;
  isEditing : bool;
  editValue : option string;
  toasts : list toast;
}.

Definition getJson (st : state) : string := json st.

Definition setContents (contents : option string) (st : state) : completion state :=
  match contents with
  | Some t =>
      Normal {| json := t; selectedNode := selectedNode st; isEditing := isEditing st;
                editValue := editValue st; toasts := toasts st |}
  | None => Unsupported
  end.

Definition setEditValue (v : option string) (st : state) : state :=
  {| json := json st; selectedNode := selectedNode st; isEditing := isEditing st;
     editValue := v; toasts := toasts st |}.

Definition setIsEditing (b : bool) (st : state) : state :=
  {| json := json st; selectedNode := selectedNode st; isEditing := b;
     editValue := editValue st; toasts := toasts st |}.

Definition show (t : toast) (st : state) : state :=
  {| json := json st; selectedNode := selectedNode st; isEditing := isEditing st;
     editValue := editValue st; toasts := toasts st ++ [t] |}.

(** [nodeData?.path] *)
Definition selected_path (st : state) : option path :=
  node ← selectedNode st; node_path node.

(** The effect run when the modal opens on a node. *)
Definition opened_effect (st : state) : completion state :=
  match selectedNode st with
  | Some nodeData =>
      let currentJson := getJson st in
      fullValue ← getFullNodeValue currentJson (node_path nodeData);
      Normal (setIsEditing false (setEditValue fullValue st))
  | None => Normal st
  end.

Definition handleEdit (st : state) : state := setIsEditing true st.

(** [onChange] of the text area shown in edit mode: the buffer becomes the
    text typed. *)
Definition onChange (typed : string) (st : state) : state := setEditValue (Some typed) st.

Definition handleCancel (st : state) : completion state :=
  let currentJson := getJson st in
  fullValue ← getFullNodeValue currentJson (selected_path st);
  Normal (setIsEditing false (setEditValue fullValue st)).

(** [JSON.parse(editValue)] reads the text of its argument, [undefined]
    being the text [undefined]. *)
Definition buffer_text (buffer : option string) : string := default "undefined" buffer.

Definition buffer_value (buffer : option string) : value :=
  match buffer with
  | Some s => VStr s
  | None => VUndefined
  end.

(** [error.message || "Failed to update node"]; the message of an error the
    engine raises is the engine's own. *)
Definition shown_message (e : error) : completion string :=
  match e with
  | Error "" => Normal "Failed to update node"
  | Error message => Normal message
  | _ => Unsupported
  end.

Definition handleSave (st : state) : completion state :=
  try_catch
    (newValue ← try_catch (JSON_parse (buffer_text (editValue st)))
                          (λ _, Normal (buffer_value (editValue st)));
     let currentJson := getJson st in
     updatedJson ← updateJsonAtPath currentJson (selected_path st) newValue;
     st ← setContents updatedJson st;
     let st := setEditValue (JSON_stringify newValue) st in
     let st := show (toast_success "Node updated successfully!") st in
     Normal (setIsEditing false st))
    (λ error, message ← shown_message error; Normal (show (toast_error message) st)).

(** * The vocabulary of the properties *)

(** ** Texts *)

(** [occurs c s]: the character [c] occurs in [s]. *)
Fixpoint occurs (c : ascii) (s : string) : bool :=
  match s with
  | "" => false
  | String c' rest => Ascii.eqb c c' || occurs c rest
  end.

(** Every character of [s] is a decimal digit. *)
Definition all_digits (s : string) : Prop := ∀ c, occurs c s = true → is_digit c = true.

(** ** The format of a path *)

(** The format in the words of the spec: one bracket group per segment, a key
    between double quotes and an index as it is, after the root marker. *)
Definition bracket_group (seg : segment) : string :=
  match seg with
  | Key s => "[" +:+ q s +:+ "]"
  | Index i => "[" +:+ pretty i +:+ "]"
  end.

Fixpoint bracket_groups (p : path) : string :=
  match p with
  | [] => ""
  | seg :: rest => bracket_group seg +:+ bracket_groups rest
  end.

Definition format_spec (p : path) : string := "$" +:+ bracket_groups p.

Definition rendered (seg : segment) : string :=
  match seg with Index i => pretty i | Key s => q s end.

(** The supported alphabet: a key holds no double quote, so that it needs no
    escaping between the quotes of its bracket group. *)
Definition supported_segment (seg : segment) : bool :=
  match seg with
  | Key s => negb (occurs dquote s)
  | Index _ => true
  end.

Definition supported (p : path) : bool := forallb supported_segment p.

(** ** Fields *)



(** ** Resolution *)

(** A segment is ordinary when it names no member of a built-in prototype. *)
Definition ordinary (seg : segment) : bool := negb (builtin_name (property_key seg)).

(** The resolution of the spec, in its words: an object node is entered by a
    string key present in it, an array node by a valid index, and nothing
    else is entered. *)
Fixpoint resolve_spec (node : value) (p : path) : option value :=
  match p with
  | [] => Some node
  | seg :: rest =>
      match node, seg with
      | VObj props, Key k => child ← lookup_prop k props; resolve_spec child rest
      | VArr elems, Index i => child ← elems !! N.to_nat i; resolve_spec child rest
      | _, _ => None
      end
  end.

(** What the loop of the source enters: a member the node owns and that is
    not [undefined].  Next to the properties of an object and the elements
    of an array, these are the length of an array and the characters and
    the length of a string; a segment names a member by its property name. *)
Definition member (node : value) (k : string) : option value :=
  match own node k with
  | Some VUndefined => None
  | m => m
  end.

Fixpoint resolve (node : value) (p : path) : option value :=
  match p with
  | [] => Some node
  | seg :: rest => child ← member node (property_key seg); resolve child rest
  end.

(** No value is produced: the result is [undefined] or the fallback. *)
Definition not_found (r : completion (option string)) : Prop :=
  r = Normal None ∨ r = Normal (Some "{}").

(** An object or an array. *)
Definition container (v : value) : Prop :=
  match v with
  | VObj _ | VArr _ => True
  | _ => False
  end.

(** The segments [p], followed from [D] by the loop of the source, end on an
    object or an array. *)
Definition resolves_to_container (D : value) (p : path) : Prop :=
  ∃ c, navigate D p = Normal c ∧ container c.

(** The name starts with a decimal digit, as every array index does. *)
Definition starts_with_digit (k : string) : bool :=
  match k with
  | String c _ => is_digit c
  | "" => false
  end.

(** What follows a number is not a fraction or an exponent. *)
Definition ends_number (r : string) : Prop :=
  match r with
  | String c _ => Ascii.eqb c "." || Ascii.eqb c "e" || Ascii.eqb c "E" = false
  | "" => True
  end.

(** ** The values of JSON *)

(** The text of a safe integer, as JavaScript prints it. *)
Definition safe_integer_text (t : string) : bool :=
  match expect "-" t with
  | Some d =>
      match canonical_numeric d with
      | Some n => negb (n =? 0)%N && (n <=? max_safe_integer)%N
      | None => false
      end
  | None =>
      match canonical_numeric t with
      | Some n => (n <=? max_safe_integer)%N
      | None => false
      end
  end.

(** [k1] comes before [k2] among the properties of an object. *)
Definition key_before (k1 k2 : string) : bool :=
  match array_index k1, array_index k2 with
  | Some i, Some j => (i <? j)%N
  | Some _, None => true
  | None, Some _ => false
  | None, None => negb (bool_decide (k1 = k2))
  end.

Fixpoint ordered (keys : list string) : bool :=
  match keys with
  | [] => true
  | k :: rest => forallb (key_before k) rest && ordered rest
  end.

(** The values [JSON.parse] returns, within the fragment: no [undefined],
    numbers that are safe integers, objects with their properties in the
    order of JavaScript.  With [holes], an array may have holes, as the
    array a write past its end leaves behind. *)
Fixpoint json_like (holes : bool) (v : value) : bool :=
  match v with
  | VUndefined => false
  | VNull | VBool _ | VStr _ => true
  | VNum t => safe_integer_text t
  | VArr elems =>
      forallb (λ e, match e with VUndefined => holes | _ => json_like holes e end) elems
  | VObj props => ordered (map fst props) && forallb (λ kv, json_like holes kv.2) props
  end.

Definition is_json (v : value) : bool := json_like false v.

Definition element_like (holes : bool) (e : value) : bool :=
  match e with VUndefined => holes | _ => json_like holes e end.

(** What is read back from the serialisation: a hole has become [null]. *)
Fixpoint normalize (v : value) : value :=
  match v with
  | VUndefined => VNull
  | VArr elems => VArr (map normalize elems)
  | VObj props => VObj (map (λ kv, (kv.1, normalize kv.2)) props)
  | _ => v
  end.

(** ** Reading a serialisation back *)

(** White space, which the parser skips. *)
Definition blank (s : string) : Prop := ∀ x, skip_ws (s +:+ x) = skip_ws x.

(** What may follow a number: not what would continue its literal. *)
Definition delimited (rest : string) : Prop :=
  match rest with
  | "" => True
  | String c _ =>
      is_digit c = false ∧ Ascii.eqb c "." = false
      ∧ Ascii.eqb c "e" = false ∧ Ascii.eqb c "E" = false
  end.

(** A bound on the fuel the parser needs to read a value back. *)
Fixpoint weight (v : value) : nat :=
  match v with
  | VArr elems => S (sum_list_with (λ e, S (weight e)) elems)
  | VObj props => S (sum_list_with (λ kv, S (weight kv.2)) props)
  | _ => 1
  end.

(** The property proved of every value: its serialisation, followed by any
    text that does not continue it, is parsed back to the value. *)
Definition reads_back (v : value) : Prop :=
  ∀ holes stepback rest fuel,
    json_like holes v = true → blank stepback → delimited rest → (weight v ≤ fuel)%nat →
    ∃ t, serialize stepback v = Some t
         ∧ parse_value fuel (t +:+ rest) = Normal (normalize v, rest).

(** The same for an element of an array, which may be a hole. *)
Definition element_reads_back (e : value) : Prop :=
  ∀ holes stepback rest fuel,
    match e with VUndefined => holes | _ => json_like holes e end = true →
    blank stepback → delimited rest → (weight e ≤ fuel)%nat →
    parse_value fuel (default "null" (serialize stepback e) +:+ rest)
    = Normal (normalize e, rest).

(** The text of one property in the serialisation of an object. *)
Definition member_text (indent : string) (kv : string * value) : option string :=
  (λ t, quote kv.1 +:+ ": " +:+ t) <$> serialize indent kv.2.

(** ** Writable places *)

(** The last segment fits its parent: an array index fits an array; a
    property name fits an object, [__proto__] only when the object owns a
    property of that name. *)
Definition fits (parent : value) (lastKey : segment) : Prop :=
  match parent with
  | VObj props =>
      property_key lastKey ≠ "__proto__" ∨ is_Some (lookup_prop (property_key lastKey) props)
  | VArr _ => is_Some (array_index (property_key lastKey))
  | _ => False
  end.

(** The places of a document where a value can be stored: the root, and the
    members that fit a parent the intermediate segments lead to. *)
Inductive writable (D : value) : path → Prop :=
| writable_root : writable D []
| writable_member intermediate lastKey parent :
    navigate D intermediate = Normal parent → fits parent lastKey →
    writable D (intermediate ++ [lastKey]).

(** ** Stored members *)

(** The value a document holds at a place where a value can be stored: the
    document itself at the root, and below it a member that fits its parent
    and is not [undefined]. *)
Inductive holds (D : value) : path → value → Prop :=
| holds_root : holds D [] D
| holds_member intermediate lastKey parent v :
    navigate D intermediate = Normal parent → fits parent lastKey →
    get parent (property_key lastKey) = Normal v → v ≠ VUndefined →
    holds D (intermediate ++ [lastKey]) v.

(** The second path diverges from the first: after segments that name the
    same members, they go on with two different members, the second not
    being a length. *)
Inductive diverges : path → path → Prop :=
| diverges_here seg seg' rest rest' :
    property_key seg ≠ property_key seg' → property_key seg' ≠ "length" →
    diverges (seg :: rest) (seg' :: rest')
| diverges_later seg seg' rest rest' :
    property_key seg = property_key seg' → diverges rest rest' →
    diverges (seg :: rest) (seg' :: rest').

(** The rows that [normalizeNodeData] writes into its object. *)
Definition contributes (row : NodeRow) : bool :=
  negb (bool_decide (row_type row = "array")) && negb (bool_decide (row_type row = "object"))
  && bool_decide (is_Some (truthy (row_key row))).

(** The scalars of the fragment: a number is a safe integer. *)
Definition scalar_json (x : scalar) : bool := is_json (value_of_scalar x).

(** ** The document of the scenarios of the spec *)

Definition customer : string :=
  "{" +:+ q "customer" +:+ ":{" +:+ q "name" +:+ ":" +:+ q "Ann" +:+ ","
  +:+ q "orders" +:+ ":[1,2]}}".

(** * Properties *)

(** ** Examples *)

Example stringify_scenario :
  JSON_stringify
    (VObj [("customer", VObj [("name", VStr "Ann"); ("orders", VArr [VNum "1"; VNum "99"])])])
  = Some ("{" +:+ LF +:+ "  " +:+ q "customer" +:+ ": {" +:+ LF
          +:+ "    " +:+ q "name" +:+ ": " +:+ q "Ann" +:+ "," +:+ LF
          +:+ "    " +:+ q "orders" +:+ ": [" +:+ LF
          +:+ "      1," +:+ LF +:+ "      99" +:+ LF +:+ "    ]" +:+ LF
          +:+ "  }" +:+ LF +:+ "}").
Proof. reflexivity. Qed.

Example stringify_hole :
  JSON_stringify (VArr [VNum "1"; VUndefined; VStr "x"; VArr []; VObj [("u", VUndefined)]])
  = Some ("[" +:+ LF +:+ "  1," +:+ LF +:+ "  null," +:+ LF +:+ "  " +:+ q "x" +:+ "," +:+ LF
          +:+ "  []," +:+ LF +:+ "  {}" +:+ LF +:+ "]").
Proof. reflexivity. Qed.

Example parse_scenario :
  JSON_parse ("{" +:+ q "customer" +:+ ":{" +:+ q "name" +:+ ":" +:+ q "Ann" +:+ ","
              +:+ q "orders" +:+ ":[1,2]}}")
  = Normal (VObj [("customer", VObj [("name", VStr "Ann"); ("orders", VArr [VNum "1"; VNum "2"])])]).
Proof. reflexivity. Qed.

Example parse_not_json : JSON_parse "not json" = Throw SyntaxError.
Proof. reflexivity. Qed.

Example parse_key_order :
  JSON_parse ("{" +:+ q "b" +:+ ": true, " +:+ q "10" +:+ ": null, " +:+ q "2" +:+ ": -0, "
              +:+ q "b" +:+ ": [ ]}")
  = Normal (VObj [("2", VNum "0"); ("10", VNull); ("b", VArr [])]).
Proof. reflexivity. Qed.

Example getFullNodeValue_scenario :
  getFullNodeValue customer (Some [Key "customer"; Key "orders"; Index 1]) = Normal (Some "2").
Proof. reflexivity. Qed.

Example updateJsonAtPath_scenario :
  updateJsonAtPath customer (Some [Key "customer"; Key "orders"; Index 1]) (VNum "99")
  = Normal (JSON_stringify
      (VObj [("customer", VObj [("name", VStr "Ann"); ("orders", VArr [VNum "1"; VNum "99"])])])).
Proof. reflexivity. Qed.

Example missing_scenario :
  getFullNodeValue ("{" +:+ q "a" +:+ ":1}") (Some [Key "missing"; Key "x"]) = Normal (Some "{}")
  ∧ updateJsonAtPath ("{" +:+ q "a" +:+ ":1}") (Some [Key "missing"; Key "x"]) (VNum "1")
    = Throw (Error "Failed to update JSON at path").
Proof. split; reflexivity. Qed.

Example parse_fraction : JSON_parse "1.5" = Unsupported.
Proof. reflexivity. Qed.

Example parse_trailing : JSON_parse "[1,]" = Throw SyntaxError.
Proof. reflexivity. Qed.

Example parse_fraction_not_json :
  JSON_parse "1.5x" = Throw SyntaxError ∧ JSON_parse "[1.5,]" = Throw SyntaxError
  ∧ JSON_parse "1." = Throw SyntaxError ∧ JSON_parse "1e" = Throw SyntaxError
  ∧ JSON_parse "{1.5}" = Throw SyntaxError.
Proof. repeat split; reflexivity. Qed.

Example well_formed_scenario :
  well_formed "-1.25e-3" = true ∧ well_formed " [1.5, {}, [] ] " = true
  ∧ well_formed "01" = false ∧ well_formed "[1 2]" = false ∧ well_formed "+1" = false
  ∧ well_formed "nul" = false ∧ well_formed "" = false.
Proof. repeat split; reflexivity. Qed.

(** ** Strings *)

Section strings.
Implicit Types s t u : string.

Lemma app_nil_l s : "" +:+ s = s.
Proof. done. Qed.

Lemma app_cons c s t : String c s +:+ t = String c (s +:+ t).
Proof. done. Qed.

Lemma app_nil_r s : s +:+ "" = s.
Proof. induction s as [|c s IH]; [done | by rewrite app_cons, IH]. Qed.

Lemma app_assoc s t u : (s +:+ t) +:+ u = s +:+ (t +:+ u).
Proof. induction s as [|c s IH]; [done | by rewrite !app_cons, IH]. Qed.
End strings.

(** Two texts that agree up to the first occurrence of a separator that
    neither prefix contains have the same prefix and the same remainder. *)
Lemma app_separator_inj c s s' t t' :
  occurs c s = false → occurs c s' = false →
  s +:+ String c t = s' +:+ String c t' → s = s' ∧ t = t'.
Proof.
  revert s'. induction s as [|a s IH]; intros [|a' s']; rewrite ?app_nil_l, ?app_cons;
    simpl; intros Hs Hs' Heq.
  - by simplify_eq.
  - simplify_eq. by rewrite Ascii.eqb_refl in Hs'.
  - simplify_eq. by rewrite Ascii.eqb_refl in Hs.
  - apply orb_false_iff in Hs as [_ Hs]. apply orb_false_iff in Hs' as [_ Hs'].
    injection Heq as -> Heq. destruct (IH s' Hs Hs' Heq) as [-> ->]. done.
Qed.

(** ** Decimal texts *)

Lemma pretty_N_char_digit x : (x < 10)%N → digit_of (pretty_N_char x) = Some x.
Proof.
  intros Hx.
  assert (x = 0 ∨ x = 1 ∨ x = 2 ∨ x = 3 ∨ x = 4 ∨ x = 5 ∨ x = 6 ∨ x = 7 ∨ x = 8 ∨ x = 9)%N
    as Hcases by lia.
  repeat (destruct Hcases as [-> | Hcases]; [done |]). by subst.
Qed.

Lemma digits_value_pretty_go x s :
  digits_value 0 (pretty_N_go x s) = digits_value x s.
Proof.
  revert s. induction (N.lt_wf_0 x) as [x _ IH]; intros s.
  destruct (decide (x = 0)%N) as [-> | Hx].
  - by rewrite pretty_N_go_0.
  - rewrite pretty_N_go_step by lia.
    rewrite IH by (apply N.div_lt; lia). simpl.
    rewrite pretty_N_char_digit by (apply N.mod_lt; lia).
    f_equal. rewrite (N.div_mod x 10) at 3 by lia. lia.
Qed.

Lemma digits_value_pretty (n : N) : digits_value 0 (pretty n) = Some n.
Proof.
  unfold pretty, pretty_N. case_decide as Hn; [by subst |].
  by rewrite digits_value_pretty_go.
Qed.

Lemma pretty_N_go_not_empty x s : s ≠ "" → pretty_N_go x s ≠ "".
Proof.
  revert s. induction (N.lt_wf_0 x) as [x _ IH]; intros s Hs.
  destruct (decide (x = 0)%N) as [-> | Hx].
  - by rewrite pretty_N_go_0.
  - rewrite pretty_N_go_step by lia. apply IH; [apply N.div_lt; lia | done].
Qed.

Lemma pretty_not_empty (n : N) : pretty n ≠ "".
Proof.
  unfold pretty, pretty_N. case_decide as Hn; [done |].
  rewrite pretty_N_go_step by lia. by apply pretty_N_go_not_empty.
Qed.

Lemma pretty_N_go_digits x s : all_digits s → all_digits (pretty_N_go x s).
Proof.
  revert s. induction (N.lt_wf_0 x) as [x _ IH]; intros s Hs.
  destruct (decide (x = 0)%N) as [-> | Hx].
  - by rewrite pretty_N_go_0.
  - rewrite pretty_N_go_step by lia. apply IH; [apply N.div_lt; lia |].
    intros c. simpl. intros [Hc | Hc]%orb_true_iff; [| by apply Hs].
    apply Ascii.eqb_eq in Hc as ->. unfold is_digit.
    rewrite pretty_N_char_digit by (apply N.mod_lt; lia). by apply bool_decide_eq_true.
Qed.

Lemma pretty_digits (n : N) : all_digits (pretty n).
Proof.
  unfold pretty, pretty_N. case_decide as Hn.
  - intros c. simpl. intros [Hc | Hc]%orb_true_iff; [| done].
    by apply Ascii.eqb_eq in Hc as ->.
  - apply pretty_N_go_digits. by intros c.
Qed.

Lemma canonical_numeric_pretty (n : N) : canonical_numeric (pretty n) = Some n.
Proof.
  unfold canonical_numeric. pose proof (pretty_not_empty n) as Hne.
  destruct (pretty n) as [|c s] eqn:Hp; [done |].
  rewrite <- Hp, digits_value_pretty. by rewrite bool_decide_eq_true_2.
Qed.

Lemma canonical_numeric_Some k n : canonical_numeric k = Some n → k = pretty n.
Proof.
  unfold canonical_numeric. destruct k as [|c s]; [done |].
  destruct (digits_value 0 (String c s)) as [m|]; [| done].
  case_bool_decide as Hm; [| done]. by intros [= <-].
Qed.

Lemma array_index_pretty (n : N) :
  (n < max_array_index)%N → array_index (pretty n) = Some n.
Proof.
  intros Hn. unfold array_index. rewrite canonical_numeric_pretty.
  by apply N.ltb_lt in Hn as ->.
Qed.

Lemma array_index_Some k n :
  array_index k = Some n → k = pretty n ∧ (n < max_array_index)%N.
Proof.
  unfold array_index. destruct (canonical_numeric k) as [m|] eqn:Hk; [| done].
  destruct (m <? max_array_index)%N eqn:Hm; [| done]. intros [= <-].
  split; [by apply canonical_numeric_Some | by apply N.ltb_lt].
Qed.

(** ** The format of a path *)

Lemma bracket_group_rendered seg : bracket_group seg = "[" +:+ rendered seg +:+ "]".
Proof. by destruct seg. Qed.

Lemma join_bracket_groups seg rest :
  "[" +:+ String.concat "][" (map rendered (seg :: rest)) +:+ "]"
  = bracket_groups (seg :: rest).
Proof.
  revert seg. induction rest as [|seg' rest IH]; intros seg.
  - simpl. by rewrite bracket_group_rendered, !app_assoc, app_nil_r.
  - change (bracket_groups (seg :: seg' :: rest))
      with (bracket_group seg +:+ bracket_groups (seg' :: rest)).
    rewrite <- IH, bracket_group_rendered.
    change (String.concat "][" (map rendered (seg :: seg' :: rest)))
      with (rendered seg +:+ "][" +:+ String.concat "][" (map rendered (seg' :: rest))).
    by rewrite !app_assoc.
Qed.

Lemma jsonPathToString_spec p : jsonPathToString (Some p) = format_spec p.
Proof.
  destruct p as [|seg rest]; [done |].
  unfold jsonPathToString, format_spec. rewrite <- join_bracket_groups. done.
Qed.

(** C6: the empty path is rendered [$]; a non-empty path is rendered as [$]
    followed by one bracket group per segment, in order and without a
    separator, a string segment between double quotes and an integer segment
    bare; the path (customer, orders, 1) is rendered
    [$["customer"]["orders"][1]]. *)
Theorem jsonPathToString_bracket_groups :
  jsonPathToString None = "$"
  ∧ jsonPathToString (Some []) = "$"
  ∧ (∀ p, jsonPathToString (Some p) = "$" +:+ bracket_groups p)
  ∧ (∀ s, bracket_group (Key s) = "[" +:+ String dquote s +:+ String dquote "]")
  ∧ (∀ i, bracket_group (Index i) = "[" +:+ pretty i +:+ "]")
  ∧ jsonPathToString (Some [Key "customer"; Key "orders"; Index 1])
    = "$[" +:+ q "customer" +:+ "][" +:+ q "orders" +:+ "][1]".
Proof.
  split_and!; try done.
  - apply jsonPathToString_spec.
  - intros s. unfold bracket_group, q. by rewrite !app_cons, !app_assoc.
Qed.

(** *** Injectivity *)

Lemma pretty_no_bracket (n : N) : occurs "]" (pretty n) = false.
Proof.
  destruct (occurs "]" (pretty n)) eqn:Ho; [| done].
  by apply pretty_digits in Ho.
Qed.

Lemma pretty_head (n : N) : ∃ c s, pretty n = String c s ∧ is_digit c = true.
Proof.
  pose proof (pretty_not_empty n) as Hne. pose proof (pretty_digits n) as Hd.
  destruct (pretty n) as [|c s]; [done |]. exists c, s. split; [done |].
  apply Hd. simpl. by rewrite Ascii.eqb_refl.
Qed.

Lemma bracket_group_inj seg seg' t t' :
  supported_segment seg = true → supported_segment seg' = true →
  bracket_group seg +:+ t = bracket_group seg' +:+ t' → seg = seg' ∧ t = t'.
Proof.
  destruct seg as [s | i], seg' as [s' | i']; simpl; unfold q;
    repeat (rewrite app_cons || rewrite app_nil_l || rewrite app_assoc); intros Hs Hs' Heq.
  - injection Heq as Heq. apply negb_true_iff in Hs, Hs'.
    apply app_separator_inj in Heq as [-> Heq]; [| done..]. by simplify_eq.
  - destruct (pretty_head i') as (c & u & Hp & Hc). rewrite Hp in Heq.
    rewrite app_cons in Heq. injection Heq as <- _. done.
  - destruct (pretty_head i) as (c & u & Hp & Hc). rewrite Hp in Heq.
    rewrite app_cons in Heq. injection Heq as -> _. done.
  - injection Heq as Heq.
    apply app_separator_inj in Heq as [Heq ->]; [| apply pretty_no_bracket..].
    by apply (inj pretty) in Heq as ->.
Qed.

Lemma bracket_groups_inj p p' :
  supported p = true → supported p' = true →
  bracket_groups p = bracket_groups p' → p = p'.
Proof.
  revert p'. induction p as [|seg p IH]; intros [|seg' p']; simpl; intros Hp Hp' Heq.
  - done.
  - destruct seg'; discriminate.
  - destruct seg; discriminate.
  - apply andb_true_iff in Hp as [Hseg Hp]. apply andb_true_iff in Hp' as [Hseg' Hp'].
    apply bracket_group_inj in Heq as [-> Heq]; [| done..]. f_equal. by apply IH.
Qed.

(** C7: over the supported alphabet, the format is injective: two paths that
    are rendered alike are the same path.  The format is a function, total
    on paths, so that a path has exactly one rendering. *)
Theorem jsonPathToString_inj (p p' : path) :
  supported p = true → supported p' = true →
  jsonPathToString (Some p) = jsonPathToString (Some p') → p = p'.
Proof.
  intros Hp Hp'. rewrite !jsonPathToString_spec. unfold format_spec.
  rewrite !app_cons, !app_nil_l. intros [= Heq]. by apply bracket_groups_inj.
Qed.

Lemma jsonPathToString_inj_witness :
  supported [Key "customer"; Index 0] = true
  ∧ [Key "customer"; Index 0] = [Key "customer"; Index 0].
Proof.
  split; [reflexivity |].
  apply (jsonPathToString_inj [Key "customer"; Index 0] [Key "customer"; Index 0]);
    reflexivity.
Defined.

(** A key with a double quote is outside the alphabet: it can be rendered
    like two keys. *)
Lemma jsonPathToString_quote_collision :
  jsonPathToString (Some [Key ("a" +:+ String dquote "][" +:+ String dquote "b")])
  = jsonPathToString (Some [Key "a"; Key "b"]).
Proof. reflexivity. Qed.

(** ** Own properties *)

Section properties.
Implicit Types (k : string) (v : value) (props : list (string * value)).

Lemma lookup_prop_app k props props' :
  lookup_prop k (props ++ props')
  = match lookup_prop k props with Some v => Some v | None => lookup_prop k props' end.
Proof.
  induction props as [|[k' v'] props IH]; simpl; [done |]. by case_bool_decide.
Qed.

Lemma lookup_replace_prop k' k v props :
  lookup_prop k' (replace_prop k v props)
  = if bool_decide (k' = k) then (λ _, v) <$> lookup_prop k props else lookup_prop k' props.
Proof.
  induction props as [|[k0 v0] props IH]; simpl; [by case_bool_decide |].
  repeat (case_bool_decide; simplify_eq/=); try done;
    rewrite IH; by case_bool_decide.
Qed.

Lemma lookup_insert_index k' i k v props :
  lookup_prop k props = None →
  lookup_prop k' (insert_index i k v props)
  = if bool_decide (k' = k) then Some v else lookup_prop k' props.
Proof.
  induction props as [|[k0 v0] props IH]; simpl; [done |]. intros Hnone.
  case_bool_decide as Hk0; [done |].
  destruct (array_index k0) as [j|]; [destruct (j <? i)%N |]; simpl; try done.
  rewrite IH by done. repeat case_bool_decide; by simplify_eq.
Qed.

Lemma lookup_define_prop k' k v props :
  lookup_prop k' (define_prop k v props)
  = if bool_decide (k' = k) then Some v else lookup_prop k' props.
Proof.
  unfold define_prop. destruct (lookup_prop k props) as [v0|] eqn:Hk.
  - rewrite lookup_replace_prop, Hk. by case_bool_decide.
  - destruct (array_index k) as [i|].
    + by apply lookup_insert_index.
    + rewrite lookup_prop_app. simpl.
      case_bool_decide; simplify_eq; [by rewrite Hk |].
      by destruct (lookup_prop k' props).
Qed.

Lemma lookup_prop_elem_of k v props : lookup_prop k props = Some v → (k, v) ∈ props.
Proof.
  induction props as [|[k0 v0] props IH]; simpl; [done |].
  case_bool_decide; simplify_eq; [intros [= ->]; left | right; auto].
Qed.
End properties.

(** ** The preview of a node *)











Example normalizeNodeData_fields :
  normalizeNodeData (Some [
    {| row_key := Some "name"; row_value := SStr "Ann"; row_type := "string" |};
    {| row_key := Some "orders"; row_value := SNum "2"; row_type := "array" |};
    {| row_key := Some ""; row_value := SNull; row_type := "null" |};
    {| row_key := Some "age"; row_value := SNum "7"; row_type := "number" |} ])
  = Some ("{" +:+ LF +:+ "  " +:+ q "name" +:+ ": " +:+ q "Ann" +:+ "," +:+ LF
          +:+ "  " +:+ q "age" +:+ ": 7" +:+ LF +:+ "}").
Proof. reflexivity. Qed.

(** ** Reading a value at a path *)

Lemma builtin_name_proto : builtin_name "__proto__" = true.
Proof. reflexivity. Qed.

Lemma ordinary_not_proto seg : ordinary seg = true → property_key seg ≠ "__proto__".
Proof. unfold ordinary. intros Hseg Hproto. by rewrite Hproto, builtin_name_proto in Hseg. Qed.

Lemma forallb_ordinary_app (p p' : path) :
  forallb ordinary (p ++ p') = true ↔ forallb ordinary p = true ∧ forallb ordinary p' = true.
Proof. rewrite forallb_app. apply andb_true_iff. Qed.

(** No member of a built-in prototype has a name that starts with a digit,
    so an array index never names one. *)
Lemma builtin_names_no_digit : forallb (λ name, negb (starts_with_digit name)) builtin_names = true.
Proof. vm_compute. reflexivity. Qed.

Lemma builtin_name_no_digit k : starts_with_digit k = true → builtin_name k = false.
Proof.
  intros Hk. apply not_true_is_false. unfold builtin_name.
  intros (name & Hin & Heq)%existsb_exists. apply bool_decide_eq_true in Heq as <-.
  pose proof builtin_names_no_digit as Hall. rewrite forallb_forall in Hall.
  specialize (Hall k Hin). by rewrite Hk in Hall.
Qed.

Lemma canonical_numeric_ordinary k i : canonical_numeric k = Some i → builtin_name k = false.
Proof.
  intros Hk. apply builtin_name_no_digit. apply canonical_numeric_Some in Hk as ->.
  pose proof (pretty_not_empty i) as Hne. pose proof (pretty_digits i) as Hdigits.
  destruct (pretty i) as [|c s]; [done |]. simpl. apply Hdigits. simpl.
  by rewrite Ascii.eqb_refl.
Qed.

Lemma array_index_ordinary k i : array_index k = Some i → builtin_name k = false.
Proof.
  intros [-> _]%array_index_Some. eapply canonical_numeric_ordinary, canonical_numeric_pretty.
Qed.

Lemma ordinary_Index (n : N) : ordinary (Index n) = true.
Proof.
  unfold ordinary. apply negb_true_iff.
  eapply canonical_numeric_ordinary, canonical_numeric_pretty.
Qed.

(** A property that the value owns is what is read, whatever its name. *)
Lemma get_own v k x : own v k = Some x → get v k = Normal x.
Proof. unfold get. intros Hown. rewrite Hown. by destruct v. Qed.

(** A name that no prototype has reads as the own property, if any. *)
Lemma get_ordinary v k :
  builtin_name k = false →
  get v k = match v with
            | VUndefined | VNull => Throw TypeError
            | _ => Normal (default VUndefined (own v k))
            end.
Proof. unfold get. intros ->. destruct v; try done; by destruct (own _ k). Qed.

(** What is read is the own property, or [undefined]. *)
Lemma get_Normal v k c : get v k = Normal c → own v k = Some c ∨ (own v k = None ∧ c = VUndefined).
Proof.
  unfold get. destruct v; try done.
  all: destruct (own _ k) as [x|]; [by intros [= <-]; left |].
  all: destruct (builtin_name k); [done | by intros [= <-]; right].
Qed.

Lemma member_Some node k c :
  member node k = Some c → get node k = Normal c ∧ c ≠ VUndefined.
Proof.
  unfold member. destruct (own node k) as [m|] eqn:Hown; [| done].
  intros Hm. assert (m = c ∧ c ≠ VUndefined) as [-> ?] by (destruct m; by simplify_eq).
  split; [by apply get_own | done].
Qed.

Lemma member_None node k :
  member node k = None → builtin_name k = false →
  get node k = Normal VUndefined ∨ get node k = Throw TypeError.
Proof.
  intros Hmember Hk. rewrite (get_ordinary _ _ Hk). unfold member in Hmember.
  destruct node; auto; by destruct (own _ k) as [[]|]; auto.
Qed.

Lemma navigate_undefined p :
  navigate VUndefined p = Normal VUndefined ∨ navigate VUndefined p = Throw TypeError.
Proof. destruct p; auto. Qed.

Lemma navigate_resolve_Some node p v : resolve node p = Some v → navigate node p = Normal v.
Proof.
  revert node. induction p as [|seg rest IH]; simpl; intros node; [by intros [= ->] |].
  destruct (member node (property_key seg)) as [c|] eqn:Hc; [| done]. simpl.
  apply member_Some in Hc as [-> _]. apply IH.
Qed.

Lemma navigate_resolve_None node p :
  resolve node p = None → forallb ordinary p = true →
  navigate node p = Normal VUndefined ∨ navigate node p = Throw TypeError.
Proof.
  revert node. induction p as [|seg rest IH]; simpl; intros node; [done |].
  intros Hres [Hseg Hrest]%andb_prop.
  destruct (member node (property_key seg)) as [c|] eqn:Hc; simpl in *.
  - apply member_Some in Hc as [-> _]. by apply IH.
  - apply member_None in Hc as [-> | ->];
      [apply navigate_undefined | by right | by apply negb_true_iff].
Qed.

Lemma resolve_defined node p v : node ≠ VUndefined → resolve node p = Some v → v ≠ VUndefined.
Proof.
  revert node. induction p as [|seg rest IH]; simpl; intros node Hnode; [by intros [= <-] |].
  destruct (member node (property_key seg)) as [c|] eqn:Hc; [| done]. simpl.
  apply member_Some in Hc as [_ Hc]. by apply IH.
Qed.

Lemma stringify_defined v : v ≠ VUndefined → is_Some (JSON_stringify v).
Proof. destruct v; by eauto. Qed.

(** [JSON.parse] never returns [undefined]. *)
Lemma finish_number_defined negative digits rest v r :
  finish_number negative digits rest = Normal (v, r) → v ≠ VUndefined.
Proof.
  unfold finish_number. intros H Hv. subst v.
  repeat (case_match; simplify_eq/=).
Qed.

Lemma parse_value_defined fuel s v r : parse_value fuel s = Normal (v, r) → v ≠ VUndefined.
Proof.
  destruct fuel as [|fuel]; simpl; [done |].
  destruct (skip_ws s) as [|c rest]; [done |]. intros H Hv. subst v.
  repeat (case_match; simplify_eq/=);
    try match goal with
        | H : _ ≫= _ = Normal _ |- _ =>
            unfold mbind, completion_bind in H; repeat (case_match; simplify_eq/=)
        end.
  all: try match goal with
        | H : parse_number _ = Normal _ |- _ =>
            unfold parse_number in H; repeat (case_match; simplify_eq/=)
        end.
  all: try match goal with
        | H : finish_number _ _ _ = Normal (VUndefined, _) |- _ =>
            by apply finish_number_defined in H
        end.
  all: try match goal with
        | H : parse_literal _ = Normal _ |- _ =>
            unfold parse_literal in H; repeat (case_match; simplify_eq/=)
        end.
Qed.

(** A value comes from the parser, with nothing but white space after it. *)
Lemma JSON_parse_Normal s D :
  JSON_parse s = Normal D ↔
  ∃ r, parse_value (S (String.length s)) s = Normal (D, r) ∧ skip_ws r = "".
Proof.
  unfold JSON_parse. split.
  - destruct (parse_value _ s) as [[v r]| |] eqn:Hv; [| done | by destruct (well_formed s)].
    destruct (skip_ws r) eqn:Hr; [| done]. intros [= <-]. by exists r.
  - intros (r & -> & ->). done.
Qed.

Lemma JSON_parse_defined s D : JSON_parse s = Normal D → D ≠ VUndefined.
Proof. intros (r & Hv & _)%JSON_parse_Normal. by eapply parse_value_defined. Qed.

Lemma getFullNodeValue_navigate s D p :
  JSON_parse s = Normal D →
  getFullNodeValue s (Some p)
  = match navigate D p with
    | Normal v => Normal (JSON_stringify v)
    | Throw _ => Normal (Some "{}")
    | Unsupported => Unsupported
    end.
Proof.
  intros HD. unfold getFullNodeValue. rewrite HD. simpl.
  destruct p as [|seg rest]; [done |]. by destruct (navigate D (seg :: rest)).
Qed.

(** C1, as it is stated, fails: a string node entered by an index gives the
    character at the index, a value, where the resolution of the spec is
    NotFound. *)
Lemma getFullNodeValue_string_node :
  ¬ (∀ jsonString D (p : path),
       JSON_parse jsonString = Normal D → resolve_spec D p = None →
       not_found (getFullNodeValue jsonString (Some p))).
Proof.
  intros H.
  destruct (H (q "hi") (VStr "hi") [Index 0] eq_refl eq_refl) as [Hr | Hr];
    vm_compute in Hr; discriminate.
Qed.

(** C1, amended: reading descends one segment per step and produces the
    value it reaches exactly when every step enters a member that the node
    owns and that is not [undefined]: a property of an object, an element or
    the length of an array, a character or the length of a string, the
    segment naming the member by its property name.  In every other case,
    on a path no segment of which names a member of a built-in prototype, no
    value is produced: the result is [undefined] or the fallback. *)
Theorem getFullNodeValue_resolve (jsonString : string) (D : value) (p : path) :
  JSON_parse jsonString = Normal D →
  match resolve D p with
  | Some v => ∃ t, JSON_stringify v = Some t
                   ∧ getFullNodeValue jsonString (Some p) = Normal (Some t)
  | None => forallb ordinary p = true → not_found (getFullNodeValue jsonString (Some p))
  end.
Proof.
  intros HD. rewrite (getFullNodeValue_navigate _ _ _ HD).
  destruct (resolve D p) as [v|] eqn:Hres.
  - rewrite (navigate_resolve_Some _ _ _ Hres).
    apply JSON_parse_defined in HD. apply (resolve_defined _ _ _ HD) in Hres.
    destruct (stringify_defined v Hres) as [t Ht]. exists t. by rewrite Ht.
  - intros Hp. destruct (navigate_resolve_None _ _ Hres Hp) as [-> | ->];
      [by left | by right].
Qed.

Lemma getFullNodeValue_resolve_witness :
  (∃ t, JSON_stringify (VStr "h") = Some t
        ∧ getFullNodeValue (q "hi") (Some [Index 0]) = Normal (Some t))
  ∧ not_found (getFullNodeValue (q "hi") (Some [Key "b"; Key "c"])).
Proof.
  split.
  - apply (getFullNodeValue_resolve (q "hi") (VStr "hi") [Index 0]). reflexivity.
  - apply (getFullNodeValue_resolve (q "hi") (VStr "hi") [Key "b"; Key "c"]); reflexivity.
Defined.

(** C4: a path whose last segment is absent from its parent is not resolved,
    and yet the display value is [undefined], not the empty-object
    rendering: only a step that throws reaches the fallback. *)
Theorem getFullNodeValue_absent_last_segment :
  resolve_spec (VObj [("a", VNum "1")]) [Key "b"] = None
  ∧ getFullNodeValue ("{" +:+ q "a" +:+ ":1}") (Some [Key "b"]) = Normal None
  ∧ getFullNodeValue ("{" +:+ q "a" +:+ ":1}") (Some [Key "b"; Key "c"]) = Normal (Some "{}").
Proof. split_and!; reflexivity. Qed.

(** ** Writing a value at a path *)

Lemma last_cons {A} (x : A) (l : list A) (d : A) : List.last (x :: l) d = List.last l x.
Proof.
  revert x d. induction l as [|y l IH]; intros x d; [done |].
  change (List.last (x :: y :: l) d) with (List.last (y :: l) d).
  by rewrite !IH.
Qed.

Lemma updateJsonAtPath_snoc jsonString (intermediate : path) lastKey newValue :
  updateJsonAtPath jsonString (Some (intermediate ++ [lastKey])%list) newValue
  = try_catch
      (json ← JSON_parse jsonString;
       json' ← assign json intermediate lastKey newValue;
       Normal (JSON_stringify json'))
      (λ _, Throw (Error "Failed to update JSON at path")).
Proof.
  unfold updateJsonAtPath.
  destruct (intermediate ++ [lastKey])%list as [|seg rest] eqn:Hp.
  { by destruct intermediate. }
  rewrite <- (last_cons seg rest seg), <- Hp, removelast_last, last_last. done.
Qed.

Lemma get_not_container v k c : ¬ container v → get v k = Normal c → ¬ container c.
Proof.
  intros Hv Hget. apply get_Normal in Hget as [Hown | [_ ->]]; [| by intros []].
  destruct v; simpl in Hown; try done; try (by destruct Hv).
  case_bool_decide; [injection Hown as <-; by intros [] |].
  destruct (canonical_numeric k) as [i|]; simpl in Hown; [| done].
  destruct (String.get (N.to_nat i) s); simpl in Hown; [| done].
  injection Hown as <-. by intros [].
Qed.

Lemma get_supported v k : builtin_name k = false → get v k ≠ Unsupported.
Proof. intros Hk. rewrite (get_ordinary _ _ Hk). by destruct v. Qed.

Lemma navigate_supported v p : forallb ordinary p = true → navigate v p ≠ Unsupported.
Proof.
  revert v. induction p as [|seg rest IH]; simpl; intros v; [done |].
  intros [Hseg Hrest]%andb_prop.
  destruct (get v (property_key seg)) as [c| |] eqn:Hget; simpl; try done.
  - by apply IH.
  - apply get_supported in Hget; [done | by apply negb_true_iff].
Qed.

(** An assignment below a value that is no object and no array throws, on a
    path on which it meets no inherited member. *)
Lemma assign_not_container json segs lastKey newValue :
  ¬ container json → forallb ordinary (segs ++ [lastKey]) = true →
  assign json segs lastKey newValue = Throw TypeError.
Proof.
  revert json. induction segs as [|seg rest IH]; simpl; intros json Hjson.
  - rewrite andb_true_r. intros Hlast%ordinary_not_proto.
    destruct json; try done; simpl; by rewrite bool_decide_eq_false_2.
  - intros [Hseg Hrest]%andb_prop.
    destruct (get json (property_key seg)) as [c| |] eqn:Hget; simpl.
    + rewrite IH; [done | by eapply get_not_container | done].
    + apply negb_true_iff in Hseg. rewrite (get_ordinary _ _ Hseg) in Hget.
      by destruct json.
    + apply get_supported in Hget; [done | by apply negb_true_iff].
Qed.

Lemma assign_failing_prefix json segs lastKey newValue n :
  n < List.length segs → ¬ resolves_to_container json (take (S n) segs) →
  forallb ordinary (segs ++ [lastKey]) = true →
  assign json segs lastKey newValue = Throw TypeError.
Proof.
  revert json n. induction segs as [|seg rest IH]; simpl; intros json n Hn Hprefix; [lia |].
  intros [Hseg Hrest]%andb_prop.
  unfold resolves_to_container in Hprefix. simpl in Hprefix.
  destruct (get json (property_key seg)) as [c| |] eqn:Hget; simpl in *.
  - destruct n as [|n].
    + rewrite assign_not_container; [done | | done]. intros Hc. apply Hprefix.
      exists c. by rewrite take_0.
    + rewrite (IH c n); [done | lia | done | done].
  - apply negb_true_iff in Hseg. rewrite (get_ordinary _ _ Hseg) in Hget. by destruct json.
  - apply get_supported in Hget; [done | by apply negb_true_iff].
Qed.

(** C2, as it is stated, fails: the source does not tell a key from an
    index, so a segment that the resolution of the spec rejects, a string
    key on an array, is followed like the index it spells, and the save goes
    through. *)
Lemma handleSave_string_key_of_array :
  ¬ (∀ st D (intermediate : path) lastKey n,
       selected_path st = Some (intermediate ++ [lastKey]) →
       JSON_parse (json st) = Normal D →
       n < List.length intermediate →
       (∀ c, resolve_spec D (take (S n) intermediate) = Some c → ¬ container c) →
       handleSave st
       = Normal {| json := json st; selectedNode := selectedNode st;
                   isEditing := isEditing st; editValue := editValue st;
                   toasts := toasts st ++ [toast_error "Failed to update JSON at path"] |}).
Proof.
  intros H.
  specialize (H {| json := "{" +:+ q "a" +:+ ":[[1]]}";
                   selectedNode :=
                     Some {| text := [];
                             node_path := Some ([Key "a"; Key "0"] ++ [Index 0]) |};
                   isEditing := true; editValue := Some "2"; toasts := [] |}
                (VObj [("a", VArr [VArr [VNum "1"]])]) [Key "a"; Key "0"] (Index 0) 1
                eq_refl eq_refl).
  vm_compute in H. by specialize (H (le_n 2) (λ c Hc, ltac:(discriminate))).
Qed.

(** C2, amended: the segments are followed by property access, a segment
    naming a member by its property name.  On a path no segment of which
    names a member of a built-in prototype, when the intermediate segments,
    or some of them from the start, do not lead to an object or an array,
    writing at the path fails with the error of [updateJsonAtPath], whatever
    the value, so that no document is produced and no node is created;
    saving then leaves the document of the store, the editing state and the
    edit buffer as they are and only reports the failure. *)
Theorem handleSave_invalid_path (st : state) (D : value)
    (intermediate : path) (lastKey : segment) (n : nat) :
  selected_path st = Some (intermediate ++ [lastKey])%list →
  forallb ordinary (intermediate ++ [lastKey]) = true →
  JSON_parse (json st) = Normal D →
  n < List.length intermediate →
  ¬ resolves_to_container D (take (S n) intermediate) →
  JSON_parse (buffer_text (editValue st)) ≠ Unsupported →
  (∀ newValue,
     updateJsonAtPath (json st) (Some (intermediate ++ [lastKey])%list) newValue
     = Throw (Error "Failed to update JSON at path"))
  ∧ handleSave st
    = Normal {| json := json st; selectedNode := selectedNode st;
                isEditing := isEditing st; editValue := editValue st;
                toasts := toasts st ++ [toast_error "Failed to update JSON at path"] |}.
Proof.
  intros Hpath Hordinary HD Hn Hprefix Hbuffer.
  assert (∀ newValue,
            updateJsonAtPath (json st) (Some (intermediate ++ [lastKey])%list) newValue
            = Throw (Error "Failed to update JSON at path")) as Hthrow.
  { intros newValue. rewrite updateJsonAtPath_snoc, HD. simpl.
    by rewrite (assign_failing_prefix D intermediate lastKey newValue n). }
  split; [done |].
  unfold handleSave, getJson. rewrite Hpath.
  destruct (JSON_parse (buffer_text (editValue st))) as [v | e |]; simpl;
    [| | done]; by rewrite Hthrow.
Qed.

Lemma handleSave_invalid_path_witness :
  handleSave {| json := "{" +:+ q "a" +:+ ":1}";
                selectedNode := Some {| text := []; node_path := Some [Key "missing"; Key "x"] |};
                isEditing := true; editValue := Some "not json"; toasts := [] |}
  = Normal {| json := "{" +:+ q "a" +:+ ":1}";
              selectedNode := Some {| text := []; node_path := Some [Key "missing"; Key "x"] |};
              isEditing := true; editValue := Some "not json";
              toasts := [toast_error "Failed to update JSON at path"] |}.
Proof.
  refine (proj2 (handleSave_invalid_path
    {| json := "{" +:+ q "a" +:+ ":1}";
       selectedNode := Some {| text := []; node_path := Some [Key "missing"; Key "x"] |};
       isEditing := true; editValue := Some "not json"; toasts := [] |}
    (VObj [("a", VNum "1")]) [Key "missing"] (Key "x") 0 _ _ _ _ _ _)).
  - reflexivity.
  - reflexivity.
  - reflexivity.
  - simpl. lia.
  - intros (c & Hc & Hcontainer). vm_compute in Hc. injection Hc as <-. exact Hcontainer.
  - discriminate.
Defined.

(** ** Cancelling *)

(** C8: when the selected path leads to a value, cancelling replaces the
    buffer, whatever it holds, by the text of the value that the path leads
    to in the document the store holds at that moment, leaves edit mode and
    does not touch the document.  When the path leads to no value the buffer
    should show the fallback, and it does not: on a path whose last segment
    alone is missing, cancelling leaves the buffer [undefined]. *)
Theorem handleCancel_fresh :
  (∀ (st : state) (D : value) (p : path) (v : value),
     selected_path st = Some p → JSON_parse (json st) = Normal D → resolve D p = Some v →
     ∃ t, JSON_stringify v = Some t
          ∧ ∀ buffer editing,
              handleCancel (setIsEditing editing (setEditValue buffer st))
              = Normal {| json := json st; selectedNode := selectedNode st;
                          isEditing := false; editValue := Some t; toasts := toasts st |})
  ∧ resolve_spec (VObj [("a", VNum "1")]) [Key "b"] = None
  ∧ handleCancel {| json := "{" +:+ q "a" +:+ ":1}";
                    selectedNode := Some {| text := []; node_path := Some [Key "b"] |};
                    isEditing := true; editValue := Some "edited"; toasts := [] |}
    = Normal {| json := "{" +:+ q "a" +:+ ":1}";
                selectedNode := Some {| text := []; node_path := Some [Key "b"] |};
                isEditing := false; editValue := None; toasts := [] |}
  ∧ handleCancel {| json := "{" +:+ q "a" +:+ ":1}";
                    selectedNode := Some {| text := []; node_path := Some [Key "b"; Key "c"] |};
                    isEditing := true; editValue := Some "edited"; toasts := [] |}
    = Normal {| json := "{" +:+ q "a" +:+ ":1}";
                selectedNode := Some {| text := []; node_path := Some [Key "b"; Key "c"] |};
                isEditing := false; editValue := Some "{}"; toasts := [] |}.
Proof.
  split; [| split_and!; reflexivity].
  intros st D p v Hpath HD Hres.
  pose proof (resolve_defined D p v (JSON_parse_defined _ _ HD) Hres) as Hv.
  destruct (stringify_defined v Hv) as [t Ht]. exists t. split; [done |].
  intros buffer editing. unfold handleCancel, getJson.
  change (selected_path (setIsEditing editing (setEditValue buffer st)))
    with (selected_path st).
  change (json (setIsEditing editing (setEditValue buffer st))) with (json st).
  rewrite Hpath, (getFullNodeValue_navigate _ _ _ HD), (navigate_resolve_Some _ _ _ Hres), Ht.
  done.
Qed.

Lemma handleCancel_fresh_witness :
  ∃ t, JSON_stringify (VNum "2") = Some t
       ∧ ∀ buffer editing,
           handleCancel
             (setIsEditing editing
                (setEditValue buffer
                   {| json := "[1,2]";
                      selectedNode := Some {| text := []; node_path := Some [Index 1] |};
                      isEditing := true; editValue := Some "edited"; toasts := [] |}))
           = Normal {| json := "[1,2]";
                       selectedNode := Some {| text := []; node_path := Some [Index 1] |};
                       isEditing := false; editValue := Some t; toasts := [] |}.
Proof.
  apply (proj1 handleCancel_fresh
    {| json := "[1,2]"; selectedNode := Some {| text := []; node_path := Some [Index 1] |};
       isEditing := true; editValue := Some "edited"; toasts := [] |}
    (VArr [VNum "1"; VNum "2"]) [Index 1] (VNum "2")); reflexivity.
Defined.

(** ** Serialising and parsing back *)

Local Arguments Ascii.eqb : simpl never.

(** *** Strings *)

Lemma parse_chars_escape c t :
  parse_chars (escape c +:+ t)
  = '(u, r) ← parse_chars t; Normal (String c u, r).
Proof. destruct c as [[] [] [] [] [] [] [] []]; reflexivity. Qed.

Lemma parse_chars_escape_all s rest :
  parse_chars (escape_all s +:+ String dquote rest) = Normal (s, rest).
Proof.
  induction s as [|c s IH]; [done |].
  change (escape_all (String c s)) with (escape c +:+ escape_all s).
  by rewrite app_assoc, parse_chars_escape, IH.
Qed.

Lemma quote_app s rest : quote s +:+ rest = String dquote (escape_all s +:+ String dquote rest).
Proof. unfold quote, q. by rewrite app_cons, app_assoc. Qed.

(** *** White space *)

Lemma blank_empty : blank "".
Proof. by intros x. Qed.

Lemma blank_gap s : blank s → blank (s +:+ gap).
Proof. intros Hs x. by rewrite app_assoc, Hs. Qed.

Lemma skip_ws_line s x : blank s → skip_ws (LF +:+ s +:+ x) = skip_ws x.
Proof. intros Hs. unfold LF. rewrite app_cons. simpl. apply Hs. Qed.

Lemma parse_value_skip fuel s s' :
  skip_ws s = skip_ws s' → parse_value fuel s = parse_value fuel s'.
Proof. intros Hs. destruct fuel; simpl; [done |]. by rewrite Hs. Qed.

Lemma parse_elements_skip fuel s s' :
  skip_ws s = skip_ws s' → parse_elements fuel s = parse_elements fuel s'.
Proof.
  intros Hs. destruct fuel; simpl; [done |]. by rewrite (parse_value_skip _ _ _ Hs).
Qed.

Lemma parse_members_skip fuel acc s s' :
  skip_ws s = skip_ws s' → parse_members fuel acc s = parse_members fuel acc s'.
Proof. intros Hs. destruct fuel; simpl; [done |]. by rewrite Hs. Qed.

(** *** Numbers *)

Lemma expect_Some c s r : expect c s = Some r ↔ s = String c r.
Proof.
  destruct s as [|c' s]; simpl; [done |]. destruct (Ascii.eqb_spec c c') as [<- | Hc].
  - split; by intros [= ->].
  - split; [done | by intros [= <- _]].
Qed.

Lemma pretty_N_go_leading x s :
  (0 < x)%N →
  ∃ c d, pretty_N_go x s = String c d ∧ is_digit c = true ∧ Ascii.eqb c "0" = false.
Proof.
  revert s. induction (N.lt_wf_0 x) as [x _ IH]; intros s Hx.
  rewrite pretty_N_go_step by done.
  destruct (decide (x < 10)%N) as [Hsmall | Hbig].
  - rewrite N.div_small, pretty_N_go_0 by done. rewrite N.mod_small by done.
    eexists _, _. split; [done |].
    assert (x = 1 ∨ x = 2 ∨ x = 3 ∨ x = 4 ∨ x = 5 ∨ x = 6 ∨ x = 7 ∨ x = 8 ∨ x = 9)%N
      as Hcases by lia.
    repeat (destruct Hcases as [-> | Hcases]; [done |]). by subst.
  - apply IH; [apply N.div_lt; lia |]. apply N.div_str_pos. lia.
Qed.

Lemma pretty_leading (n : N) :
  n ≠ 0%N → ∃ c d, pretty n = String c d ∧ is_digit c = true ∧ Ascii.eqb c "0" = false.
Proof.
  intros Hn. unfold pretty, pretty_N. rewrite decide_False by done.
  apply pretty_N_go_leading. lia.
Qed.

Lemma take_digits_app d rest :
  all_digits d → delimited rest → take_digits (d +:+ rest) = (d, rest).
Proof.
  intros Hd Hrest. induction d as [|c d IH].
  - rewrite app_nil_l. destruct rest as [|c rest]; [done |]. simpl.
    by destruct Hrest as [-> _].
  - rewrite app_cons. simpl. rewrite (Hd c) by (simpl; by rewrite Ascii.eqb_refl).
    rewrite IH; [done |]. intros c' Hc'. apply Hd. simpl. by rewrite Hc', orb_true_r.
Qed.

Lemma finish_number_pretty negative n rest :
  delimited rest → (n ≤ max_safe_integer)%N →
  finish_number negative (pretty n) rest = Normal (VNum (integer_text negative n), rest).
Proof.
  intros Hrest Hn. unfold finish_number. rewrite digits_value_pretty.
  apply N.leb_le in Hn as ->.
  destruct rest as [|c rest]; [done |]. destruct Hrest as (_ & -> & -> & ->). done.
Qed.

Lemma parse_unsigned n rest negative :
  delimited rest → (n ≤ max_safe_integer)%N →
  match pretty n +:+ rest with
  | "" => Throw SyntaxError
  | String c r =>
      if Ascii.eqb c "0" then finish_number negative "0" r
      else if is_digit c then
        let '(d, r') := take_digits r in finish_number negative (String c d) r'
      else Throw SyntaxError
  end = Normal (VNum (integer_text negative n), rest).
Proof.
  intros Hrest Hn. destruct (decide (n = 0%N)) as [-> | Hn0].
  - change (pretty 0%N) with "0". rewrite app_cons, app_nil_l. simpl.
    by apply (finish_number_pretty negative 0).
  - destruct (pretty_leading n Hn0) as (c & d & Hp & Hc & Hzero).
    rewrite Hp, app_cons, Hzero, Hc.
    rewrite take_digits_app; [| | done].
    + rewrite <- Hp. by apply finish_number_pretty.
    + intros c' Hc'. apply (pretty_digits n). rewrite Hp. simpl. by rewrite Hc', orb_true_r.
Qed.

Lemma safe_integer_text_inv t :
  safe_integer_text t = true →
  ∃ negative n, t = integer_text negative n ∧ (n ≤ max_safe_integer)%N
                ∧ (negative = true → n ≠ 0%N).
Proof.
  unfold safe_integer_text. destruct (expect "-" t) as [d|] eqn:Hsign.
  - destruct (canonical_numeric d) as [n|] eqn:Hd; [| done].
    intros [Hn0 Hn]%andb_true_iff. apply negb_true_iff, N.eqb_neq in Hn0.
    apply N.leb_le in Hn. apply canonical_numeric_Some in Hd as ->.
    exists true, n. split_and!; [| done..].
    unfold integer_text. apply N.eqb_neq in Hn0 as ->. simpl.
    by apply expect_Some in Hsign.
  - destruct (canonical_numeric t) as [n|] eqn:Ht; [| done].
    intros Hn%N.leb_le. apply canonical_numeric_Some in Ht as ->.
    exists false, n. by split_and!.
Qed.

Lemma parse_number_text negative n rest :
  delimited rest → (n ≤ max_safe_integer)%N → (negative = true → n ≠ 0%N) →
  parse_number (integer_text negative n +:+ rest)
  = Normal (VNum (integer_text negative n), rest).
Proof.
  intros Hrest Hn Hneg. unfold parse_number.
  destruct negative.
  - specialize (Hneg eq_refl). unfold integer_text at 1.
    apply N.eqb_neq in Hneg as Hneg'. rewrite Hneg'. simpl.
    by apply parse_unsigned.
  - change (integer_text false n) with (pretty n).
    assert (expect "-" (pretty n +:+ rest) = None) as ->.
    { destruct (pretty_head n) as (c & d & Hp & Hc). rewrite Hp, app_cons. simpl.
      destruct (Ascii.eqb "-" c) eqn:Hminus; [| done].
      by apply Ascii.eqb_eq in Hminus as <-. }
    by apply (parse_unsigned n rest false).
Qed.

(** *** The order of the properties *)

Lemma ordered_app_inv keys k :
  ordered (keys ++ [k]) = true → Forall (λ k', key_before k' k = true) keys ∧ ordered keys = true.
Proof.
  induction keys as [|k0 keys IH]; simpl; [done |].
  rewrite forallb_app. simpl. rewrite andb_true_r.
  intros [[H1 H2]%andb_true_iff H3]%andb_true_iff.
  destruct IH as [IH1 IH2]; [done |]. split; [by constructor |].
  by rewrite H1, IH2.
Qed.

Lemma ordered_app_l keys keys' : ordered (keys ++ keys') = true → ordered keys = true.
Proof.
  induction keys as [|k0 keys IH]; simpl; [done |].
  rewrite forallb_app. intros [[H1 _]%andb_true_iff H2]%andb_true_iff.
  by rewrite H1, IH.
Qed.

Lemma key_before_ne k' k : key_before k' k = true → k' ≠ k.
Proof.
  unfold key_before. intros H ->. destruct (array_index k) as [i|].
  - apply N.ltb_lt in H. lia.
  - by rewrite bool_decide_eq_true_2 in H.
Qed.

Lemma lookup_prop_None_keys k props :
  Forall (λ k', k' ≠ k) (map fst props) → lookup_prop k props = None.
Proof.
  induction props as [|[k0 v0] props IH]; simpl; [done |].
  intros [Hk0 Hrest]%Forall_cons. rewrite bool_decide_eq_false_2 by done. by apply IH.
Qed.

Lemma insert_index_append i k v props :
  Forall (λ k', key_before k' k = true) (map fst props) → array_index k = Some i →
  insert_index i k v props = props ++ [(k, v)].
Proof.
  intros Hprops Hk. induction props as [|[k0 v0] props IH]; simpl; [done |].
  apply Forall_cons in Hprops as [Hk0 Hprops]. simpl in Hk0.
  unfold key_before in Hk0. rewrite Hk in Hk0.
  destruct (array_index k0) as [j|]; [| done]. rewrite Hk0. by rewrite IH.
Qed.

(** A property created after the others, in the order of JavaScript, is the
    last one. *)
Lemma define_prop_append k v props :
  ordered (map fst props ++ [k]) = true → define_prop k v props = props ++ [(k, v)].
Proof.
  intros [Hbefore _]%ordered_app_inv. unfold define_prop.
  rewrite lookup_prop_None_keys.
  - destruct (array_index k) as [i|] eqn:Hk; [| done]. by apply insert_index_append.
  - eapply Forall_impl; [done |]. intros k'. apply key_before_ne.
Qed.

(** *** Values *)

Lemma digit_head c : is_digit c = true → is_ws c = false ∧ Ascii.eqb "]" c = false.
Proof. destruct c as [[] [] [] [] [] [] [] []]; by vm_compute. Qed.

Lemma finite_integer_text negative n : finite (integer_text negative n) = true.
Proof.
  unfold integer_text, finite. destruct (pretty_head n) as (c & d & Hp & Hc). rewrite Hp.
  destruct (negative && negb (n =? 0)%N);
    rewrite !bool_decide_eq_false_2; try done; intros [= ? ?]; by subst.
Qed.

(** A serialisation starts with a character that is neither white space nor
    a closing bracket. *)
Lemma serialize_head holes stepback v t :
  json_like holes v = true → serialize stepback v = Some t →
  ∃ c t', t = String c t' ∧ is_ws c = false ∧ Ascii.eqb "]" c = false.
Proof.
  destruct v as [| |b|text|s|elems|props]; simpl; intros Hv [= <-]; try done.
  - by eexists _, _.
  - destruct b; by eexists _, _.
  - apply safe_integer_text_inv in Hv as (negative & n & -> & Hn & Hneg).
    rewrite finite_integer_text.
    unfold integer_text. destruct (negative && negb (n =? 0)%N); [by eexists _, _ |].
    destruct (pretty_head n) as (c & d & Hp & Hc). rewrite Hp.
    exists c, d. split; [done |]. by apply digit_head.
  - unfold quote, q. by eexists _, _.
  - unfold wrap. destruct (map _ elems); rewrite ?app_cons; by eexists _, _.
  - unfold wrap. destruct (omap _ props); rewrite ?app_cons; by eexists _, _.
Qed.

Lemma element_reads_back_of e : reads_back e → element_reads_back e.
Proof.
  intros He holes stepback rest fuel Hjson Hblank Hrest Hfuel.
  assert (e = VUndefined ∨ json_like holes e = true) as [-> | Hjson']
    by (destruct e; auto).
  - destruct fuel as [|fuel]; [simpl in Hfuel; lia |]. done.
  - destruct (He holes stepback rest fuel Hjson' Hblank Hrest Hfuel) as (t & -> & Ht). done.
Qed.

Lemma bind_Normal {A B} (a : A) (f : A → completion B) : Normal a ≫= f = f a.
Proof. done. Qed.

Lemma delimited_line s : delimited (LF +:+ s).
Proof. unfold LF. rewrite app_cons. done. Qed.

Lemma delimited_comma s : delimited ("," +:+ s).
Proof. rewrite app_cons. done. Qed.

Lemma skip_ws_head c x : is_ws c = false → skip_ws (String c "" +:+ x) = String c "" +:+ x.
Proof. intros Hc. rewrite app_cons, app_nil_l. simpl. by rewrite Hc. Qed.

Lemma expect_head c x : expect c (String c "" +:+ x) = Some x.
Proof. rewrite app_cons, app_nil_l. simpl. by rewrite Ascii.eqb_refl. Qed.

Lemma expect_other c c' x : Ascii.eqb c c' = false → expect c (String c' "" +:+ x) = None.
Proof. intros Hc. rewrite app_cons, app_nil_l. simpl. by rewrite Hc. Qed.

Lemma parse_elements_S fuel s :
  parse_elements (S fuel) s
  = '(v, r) ← parse_value fuel s;
    match expect "," (skip_ws r), expect "]" (skip_ws r) with
    | Some r', _ => '(vs, r'') ← parse_elements fuel r'; Normal (v :: vs, r'')
    | _, Some r' => Normal ([v], r')
    | _, _ => Throw SyntaxError
    end.
Proof. done. Qed.

Lemma parse_elements_serialized holes stepback indent rest elems fuel :
  elems ≠ [] → Forall element_reads_back elems →
  forallb (λ e, match e with VUndefined => holes | _ => json_like holes e end) elems = true →
  blank stepback → blank indent →
  (sum_list_with (λ e, S (weight e)) elems ≤ fuel)%nat →
  parse_elements fuel
    (String.concat ("," +:+ LF +:+ indent)
       (map (λ e, default "null" (serialize indent e)) elems)
     +:+ LF +:+ stepback +:+ "]" +:+ rest)
  = Normal (map normalize elems, rest).
Proof.
  intros Hne Hall Hjson Hstepback Hindent. revert fuel.
  induction elems as [|e elems IH]; [done |]. intros fuel Hfuel.
  apply Forall_cons in Hall as [He Hall].
  cbn [forallb] in Hjson. apply andb_true_iff in Hjson as [Hjson_e Hjson].
  cbn [sum_list_with] in Hfuel. destruct fuel as [|fuel]; [lia |].
  rewrite parse_elements_S. destruct elems as [|e' elems].
  - change (String.concat ?sep (map ?f [e])) with (f e).
    rewrite (He holes indent _ fuel Hjson_e Hindent (delimited_line _)) by lia.
    rewrite bind_Normal, skip_ws_line by done.
    rewrite skip_ws_head, expect_other, expect_head by done. done.
  - change (String.concat ?sep (map ?f (e :: e' :: elems)))
      with (f e +:+ sep +:+ String.concat sep (map f (e' :: elems))).
    cbv beta. rewrite !app_assoc.
    rewrite (He holes indent _ fuel Hjson_e Hindent (delimited_comma _)) by lia.
    rewrite bind_Normal, skip_ws_head, expect_head by done.
    rewrite (parse_elements_skip fuel _ _ (skip_ws_line indent _ Hindent)).
    rewrite IH; [done | done | done | done | lia].
Qed.

Lemma parse_members_S fuel acc s :
  parse_members (S fuel) acc s
  = match expect dquote (skip_ws s) with
    | None => Throw SyntaxError
    | Some r =>
        '(k, r1) ← parse_chars r;
        match expect ":" (skip_ws r1) with
        | None => Throw SyntaxError
        | Some r2 =>
            '(v, r3) ← parse_value fuel r2;
            let acc' := define_prop k v acc in
            match expect "," (skip_ws r3), expect "}" (skip_ws r3) with
            | Some r4, _ => parse_members fuel acc' r4
            | _, Some r4 => Normal (acc', r4)
            | _, _ => Throw SyntaxError
            end
        end
    end.
Proof. done. Qed.

Lemma concat_cons_ne sep (x : string) l :
  l ≠ [] → String.concat sep (x :: l) = x +:+ sep +:+ String.concat sep l.
Proof. by destruct l. Qed.

Lemma skip_ws_space x : skip_ws (" " +:+ x) = skip_ws x.
Proof. by rewrite app_cons, app_nil_l. Qed.

Lemma parse_member_text holes indent k v t :
  reads_back v → json_like holes v = true → blank indent → serialize indent v = Some t →
  ∀ more fuel acc,
    delimited more → (weight v ≤ fuel)%nat →
    parse_members (S fuel) acc (quote k +:+ ": " +:+ t +:+ more)
    = let acc' := define_prop k (normalize v) acc in
      match expect "," (skip_ws more), expect "}" (skip_ws more) with
      | Some r4, _ => parse_members fuel acc' r4
      | _, Some r4 => Normal (acc', r4)
      | _, _ => Throw SyntaxError
      end.
Proof.
  intros Hv Hjson Hindent Ht more fuel acc Hmore Hfuel.
  destruct (Hv holes indent more fuel Hjson Hindent Hmore Hfuel) as (t' & Ht' & Hparse).
  assert (t' = t) as -> by congruence.
  rewrite parse_members_S, quote_app.
  change (skip_ws (String dquote ?x)) with (String dquote x).
  change (expect dquote (String dquote ?x)) with (Some x). cbv beta iota.
  rewrite parse_chars_escape_all, bind_Normal.
  change (": " +:+ ?x) with (":" +:+ " " +:+ x).
  rewrite (skip_ws_head ":"), (expect_head ":") by done.
  rewrite (parse_value_skip fuel _ _ (skip_ws_space _)), Hparse. done.
Qed.

Lemma reads_back_serialize holes stepback v :
  reads_back v → json_like holes v = true → blank stepback →
  ∃ t, serialize stepback v = Some t.
Proof.
  intros Hv Hjson Hblank.
  destruct (Hv holes stepback "" (weight v) Hjson Hblank I (le_n _)) as (t & Ht & _).
  by exists t.
Qed.

Lemma parse_members_serialized holes stepback indent rest props :
  Forall (λ kv, reads_back kv.2) props →
  forallb (λ kv, json_like holes kv.2) props = true →
  blank stepback → blank indent →
  ∃ parts,
    omap (member_text indent) props = parts ∧ (props ≠ [] → parts ≠ [])
    ∧ ∀ acc fuel,
        props ≠ [] →
        ordered (map fst acc ++ map fst props) = true →
        (sum_list_with (λ kv, S (weight kv.2)) props ≤ fuel)%nat →
        parse_members fuel acc
          (String.concat ("," +:+ LF +:+ indent) parts +:+ LF +:+ stepback +:+ "}" +:+ rest)
        = Normal (acc ++ map (λ kv, (kv.1, normalize kv.2)) props, rest).
Proof.
  intros Hall Hjson Hstepback Hindent.
  induction props as [|[k v] props IH]; [by exists [] |].
  apply Forall_cons in Hall as [Hv Hall]. simpl in Hv.
  cbn [forallb] in Hjson. apply andb_true_iff in Hjson as [Hjson_v Hjson]. simpl in Hjson_v.
  destruct (IH Hall Hjson) as (parts & Hparts & Hparts_ne & Hparse). clear IH.
  destruct (reads_back_serialize holes indent v Hv Hjson_v Hindent) as [t Ht].
  exists ((quote k +:+ ": " +:+ t) :: parts). split_and!; [| done |].
  { cbn [omap list_omap]. unfold member_text at 1. simpl. rewrite Ht. simpl.
    by rewrite <- Hparts. }
  intros acc fuel _ Hordered Hfuel. cbn [sum_list_with] in Hfuel. simpl in Hfuel.
  destruct fuel as [|fuel]; [lia |].
  assert (define_prop k (normalize v) acc = acc ++ [(k, normalize v)]) as Hdefine.
  { apply define_prop_append. apply (ordered_app_l _ (map fst props)).
    by rewrite <- (assoc_L (++)). }
  destruct props as [|kv' props].
  - subst parts. change (String.concat ?sep (?x :: omap _ [])) with x. rewrite !app_assoc.
    rewrite (parse_member_text holes indent k v t Hv Hjson_v Hindent Ht)
      by (apply delimited_line || lia).
    rewrite skip_ws_line by done.
    rewrite (skip_ws_head "}"), expect_other, expect_head by done.
    cbv zeta. by rewrite Hdefine.
  - rewrite concat_cons_ne by (by apply Hparts_ne). rewrite !app_assoc.
    rewrite (parse_member_text holes indent k v t Hv Hjson_v Hindent Ht)
      by (apply delimited_comma || lia).
    rewrite (skip_ws_head ","), expect_head by done. cbv zeta. rewrite Hdefine.
    rewrite (parse_members_skip fuel _ _ _ (skip_ws_line indent _ Hindent)).
    rewrite Hparse; [| done | | lia].
    + by rewrite <- (assoc_L (++)).
    + rewrite map_app, <- (assoc_L (++)). done.
Qed.

Lemma parse_value_S_string fuel x :
  parse_value (S fuel) (String dquote x) = '(t, r) ← parse_chars x; Normal (VStr t, r).
Proof. done. Qed.

Lemma parse_value_S_array fuel x :
  parse_value (S fuel) ("[" +:+ x)
  = match expect "]" (skip_ws x) with
    | Some rest' => Normal (VArr [], rest')
    | None => '(elems, r) ← parse_elements fuel x; Normal (VArr elems, r)
    end.
Proof. done. Qed.

Lemma parse_value_S_object fuel x :
  parse_value (S fuel) ("{" +:+ x)
  = match expect "}" (skip_ws x) with
    | Some rest' => Normal (VObj [], rest')
    | None => '(props, r) ← parse_members fuel [] x; Normal (VObj props, r)
    end.
Proof. done. Qed.

Lemma parse_value_S_number fuel c x :
  Ascii.eqb c "-" || is_digit c = true →
  parse_value (S fuel) (String c x) = parse_number (String c x).
Proof. destruct c as [[] [] [] [] [] [] [] []]; intros Hc; try done. Qed.

Lemma integer_text_head negative n :
  ∃ c x, integer_text negative n = String c x ∧ Ascii.eqb c "-" || is_digit c = true.
Proof.
  unfold integer_text. destruct (negative && negb (n =? 0)%N); [by eexists _, _ |].
  destruct (pretty_head n) as (c & d & -> & Hc). exists c, d. by rewrite Hc, orb_true_r.
Qed.

Lemma wrap_cons opening closing stepback indent (partial : list string) :
  partial ≠ [] →
  wrap opening closing stepback indent partial
  = opening +:+ LF +:+ indent +:+ String.concat ("," +:+ LF +:+ indent) partial
    +:+ LF +:+ stepback +:+ closing.
Proof. by destruct partial. Qed.

Lemma concat_head sep c x (l : list string) y :
  ∃ z, String.concat sep (String c x :: l) +:+ y = String c z.
Proof. destruct l; simpl; rewrite ?app_cons; by eexists. Qed.

Lemma element_text_head holes indent e :
  match e with VUndefined => holes | _ => json_like holes e end = true →
  ∃ c x, default "null" (serialize indent e) = String c x
         ∧ is_ws c = false ∧ Ascii.eqb "]" c = false.
Proof.
  intros He. assert (e = VUndefined ∨ json_like holes e = true) as [-> | Hjson]
    by (destruct e; auto).
  - by eexists _, _.
  - destruct (serialize indent e) as [t|] eqn:Ht; [| by destruct e].
    by apply (serialize_head holes indent e t).
Qed.

(** Every value of the fragment is read back from its serialisation. *)
Theorem serialize_reads_back v : reads_back v.
Proof.
  induction v as [| |b|text|s|elems IH|props IH] using value_ind;
    intros holes stepback rest fuel Hjson Hblank Hrest Hfuel;
    (destruct fuel as [|fuel]; [simpl in Hfuel; lia |]).
  - done.
  - by exists "null".
  - destruct b; by eexists.
  - simpl in Hjson. apply safe_integer_text_inv in Hjson as (negative & n & -> & Hn & Hneg).
    exists (integer_text negative n). split; [simpl; by rewrite finite_integer_text |].
    destruct (integer_text_head negative n) as (c & x & Hhead & Hc).
    rewrite Hhead at 1. rewrite app_cons, parse_value_S_number by done.
    rewrite <- app_cons, <- Hhead. by apply parse_number_text.
  - exists (quote s). split; [done |].
    by rewrite quote_app, parse_value_S_string, parse_chars_escape_all.
  - exists (wrap "[" "]" stepback (stepback +:+ gap)
              (map (λ e, default "null" (serialize (stepback +:+ gap) e)) elems)).
    split; [done |]. simpl in Hjson. simpl in Hfuel.
    assert (blank (stepback +:+ gap)) as Hindent by by apply blank_gap.
    set (indent := stepback +:+ gap) in *. clearbody indent.
    destruct elems as [|e elems].
    + unfold wrap. simpl map. cbv iota. rewrite ?app_assoc, parse_value_S_array.
      by rewrite (skip_ws_head "]"), expect_head.
    + rewrite wrap_cons by done. rewrite !app_assoc, parse_value_S_array.
      rewrite skip_ws_line by done.
      assert (expect "]" (skip_ws
                (String.concat ("," +:+ LF +:+ indent)
                   (map (λ e0, default "null" (serialize indent e0)) (e :: elems))
                 +:+ LF +:+ stepback +:+ "]" +:+ rest)) = None) as ->.
      { simpl in Hjson. apply andb_true_iff in Hjson as [He _].
        destruct (element_text_head holes indent e He) as (c & x & Hhead & Hws & Hclose).
        rewrite map_cons, Hhead.
        destruct (concat_head ("," +:+ LF +:+ indent) c x
                    (map (λ e0, default "null" (serialize indent e0)) elems)
                    (LF +:+ stepback +:+ "]" +:+ rest)) as [z ->].
        simpl. rewrite Hws. unfold expect. by rewrite Hclose. }
      rewrite (parse_elements_skip fuel _ _ (skip_ws_line _ _ Hindent)).
      rewrite (parse_elements_serialized holes); try done.
      * eapply Forall_impl; [exact IH |]. apply element_reads_back_of.
      * lia.
  - simpl in Hjson. apply andb_true_iff in Hjson as [Hordered Hjson].
    assert (blank (stepback +:+ gap)) as Hindent by by apply blank_gap.
    destruct (parse_members_serialized holes stepback (stepback +:+ gap) rest props
                IH Hjson Hblank Hindent) as (parts & Hparts & Hne & Hparse).
    exists (wrap "{" "}" stepback (stepback +:+ gap) parts).
    split; [by rewrite <- Hparts |].
    set (indent := stepback +:+ gap) in *. clearbody indent.
    simpl in Hfuel. destruct props as [|[k v] props].
    + subst parts. unfold wrap. simpl omap. cbv iota. rewrite ?app_assoc, parse_value_S_object.
      by rewrite (skip_ws_head "}"), expect_head.
    + rewrite wrap_cons by (by apply Hne). rewrite !app_assoc, parse_value_S_object.
      rewrite skip_ws_line by done.
      assert (expect "}" (skip_ws
                (String.concat ("," +:+ LF +:+ indent) parts
                 +:+ LF +:+ stepback +:+ "}" +:+ rest)) = None) as ->.
      { apply Forall_cons in IH as [Hv _]. simpl in Hjson.
        apply andb_true_iff in Hjson as [Hjson_v _].
        destruct (reads_back_serialize holes indent v Hv Hjson_v Hindent) as [t Ht].
        cbn [omap list_omap] in Hparts. unfold member_text at 1 in Hparts.
        simpl in Hparts. rewrite Ht in Hparts. simpl in Hparts. subst parts.
        rewrite quote_app.
        destruct (concat_head ("," +:+ LF +:+ indent) dquote
                    (escape_all k +:+ String dquote (": " +:+ t))
                    (omap (member_text indent) props)
                    (LF +:+ stepback +:+ "}" +:+ rest)) as [z ->].
        done. }
      rewrite (parse_members_skip fuel _ _ _ (skip_ws_line _ _ Hindent)).
      rewrite Hparse; [done | done | done | lia].
Qed.

(** *** Enough fuel *)

Lemma length_app s t : String.length (s +:+ t) = (String.length s + String.length t)%nat.
Proof. induction s as [|c s IH]; [done |]. rewrite app_cons. simpl. by rewrite IH. Qed.

Lemma concat_length sep (l : list string) :
  sep ≠ "" →
  (sum_list_with (λ x, S (String.length x)) l ≤ S (String.length (String.concat sep l)))%nat.
Proof.
  intros Hsep. induction l as [|x l IH]; simpl; [lia |].
  destruct l as [|y l]; [simpl; lia |].
  rewrite !length_app. destruct sep as [|c sep]; [done |]. simpl in *. lia.
Qed.

Lemma wrap_length opening closing stepback indent partial :
  opening ≠ "" → closing ≠ "" →
  (S (sum_list_with (λ x, S (String.length x)) partial)
   ≤ String.length (wrap opening closing stepback indent partial))%nat.
Proof.
  intros Hopen Hclose. unfold wrap.
  assert (1 ≤ String.length opening)%nat by (destruct opening; [done | simpl; lia]).
  assert (1 ≤ String.length closing)%nat by (destruct closing; [done | simpl; lia]).
  destruct partial as [|x partial]; [rewrite length_app; simpl; lia |].
  pose proof (concat_length ("," +:+ LF +:+ indent) (x :: partial) ltac:(done)) as Hconcat.
  rewrite !length_app.
  set (n := String.length (String.concat _ (x :: partial))) in *.
  set (m := sum_list_with _ (x :: partial)) in *. lia.
Qed.

Lemma integer_text_length negative n : (1 ≤ String.length (integer_text negative n))%nat.
Proof.
  destruct (integer_text_head negative n) as (c & x & -> & _). simpl. lia.
Qed.

Lemma serialize_weight holes v :
  json_like holes v = true →
  ∀ stepback t, serialize stepback v = Some t → (weight v ≤ String.length t)%nat.
Proof.
  induction v as [| |b|text|s|elems IH|props IH] using value_ind;
    intros Hjson stepback t; simpl; intros [= <-]; try done.
  - simpl. lia.
  - destruct b; simpl; lia.
  - simpl in Hjson. apply safe_integer_text_inv in Hjson as (negative & n & -> & _).
    rewrite finite_integer_text. apply integer_text_length.
  - unfold quote, q. simpl. lia.
  - etrans; [| by apply wrap_length]. apply le_n_S.
    simpl in Hjson. induction elems as [|e elems IHelems]; [done |].
    apply Forall_cons in IH as [He IH]. simpl in Hjson.
    apply andb_true_iff in Hjson as [Hjson_e Hjson]. simpl.
    specialize (IHelems IH Hjson).
    assert (weight e ≤ String.length (default "null" (serialize (stepback +:+ gap) e)))%nat.
    { destruct (serialize (stepback +:+ gap) e) as [t|] eqn:Ht.
      - apply (He ltac:(by destruct e) _ _ Ht).
      - destruct e; try done. simpl. lia. }
    lia.
  - etrans; [| by apply wrap_length]. apply le_n_S.
    simpl in Hjson. apply andb_true_iff in Hjson as [_ Hjson].
    induction props as [|[k v] props IHprops]; [done |].
    apply Forall_cons in IH as [Hv IH]. simpl in Hjson, Hv.
    apply andb_true_iff in Hjson as [Hjson_v Hjson].
    specialize (IHprops IH Hjson). cbn [omap list_omap]. simpl.
    destruct (serialize (stepback +:+ gap) v) as [t|] eqn:Ht; [| by destruct v].
    simpl. specialize (Hv Hjson_v _ _ Ht). rewrite !length_app. lia.
Qed.

(** [JSON.parse(JSON.stringify(v, null, 2))] is [v], its holes having become
    [null]. *)
Theorem JSON_parse_stringify holes v t :
  json_like holes v = true → JSON_stringify v = Some t →
  JSON_parse t = Normal (normalize v).
Proof.
  intros Hjson Ht. unfold JSON_parse.
  destruct (serialize_reads_back v holes "" "" (S (String.length t)) Hjson blank_empty I)
    as (t' & Ht' & Hparse).
  { pose proof (serialize_weight holes v Hjson "" t Ht). lia. }
  unfold JSON_stringify in Ht. assert (t' = t) as -> by congruence.
  rewrite app_nil_r in Hparse. by rewrite Hparse.
Qed.

Lemma normalize_json v : is_json v = true → normalize v = v.
Proof.
  unfold is_json. induction v as [| |b|text|s|elems IH|props IH] using value_ind;
    simpl; try done; intros Hjson; f_equal.
  - induction elems as [|e elems IHelems]; [done |].
    apply Forall_cons in IH as [He IH]. simpl in Hjson.
    apply andb_true_iff in Hjson as [Hjson_e Hjson]. simpl.
    rewrite He by (by destruct e). by rewrite IHelems.
  - apply andb_true_iff in Hjson as [_ Hjson].
    induction props as [|[k v] props IHprops]; [done |].
    apply Forall_cons in IH as [Hv IH]. simpl in Hjson, Hv.
    apply andb_true_iff in Hjson as [Hjson_v Hjson]. simpl.
    by rewrite Hv, IHprops.
Qed.

Example JSON_parse_stringify_scenario :
  JSON_parse ("{" +:+ LF +:+ "  " +:+ q "k" +:+ ": [" +:+ LF +:+ "    1," +:+ LF
              +:+ "    null" +:+ LF +:+ "  ]" +:+ LF +:+ "}")
  = Normal (VObj [("k", VArr [VNum "1"; VNull])]).
Proof.
  apply (JSON_parse_stringify true (VObj [("k", VArr [VNum "1"; VUndefined])])); reflexivity.
Qed.

(** *** What the parser returns is a value of the fragment *)

Lemma map_fst_replace_prop k v props : map fst (replace_prop k v props) = map fst props.
Proof.
  induction props as [|[k0 v0] props IH]; [done |]. simpl.
  case_bool_decide; simpl; [done | by rewrite IH].
Qed.

Lemma lookup_prop_None_inv k props :
  lookup_prop k props = None → Forall (λ k', k' ≠ k) (map fst props).
Proof.
  induction props as [|[k0 v0] props IH]; simpl; [constructor |].
  case_bool_decide; [done |]. intros Hk. constructor; [done | by apply IH].
Qed.

Lemma ordered_snoc keys k :
  ordered keys = true → Forall (λ k', key_before k' k = true) keys →
  ordered (keys ++ [k]) = true.
Proof.
  induction keys as [|k0 keys IH]; [done |]. simpl.
  intros [H0 Hkeys]%andb_true_iff [Hk0 Hall]%Forall_cons.
  rewrite forallb_app, H0, IH by done. simpl. by rewrite Hk0.
Qed.

Lemma array_index_inj k k' i : array_index k = Some i → array_index k' = Some i → k = k'.
Proof. intros [-> _]%array_index_Some [-> _]%array_index_Some. done. Qed.

Lemma ordered_insert_index i k v props :
  array_index k = Some i → Forall (λ k', k' ≠ k) (map fst props) →
  ordered (map fst props) = true →
  ordered (map fst (insert_index i k v props)) = true
  ∧ ∀ k0, forallb (key_before k0) (map fst props) = true → key_before k0 k = true →
          forallb (key_before k0) (map fst (insert_index i k v props)) = true.
Proof.
  intros Hk. induction props as [|[k1 v1] props IH]; simpl.
  { intros _ _. split; [done |]. intros k0 _ ->. done. }
  intros [Hne Hall]%Forall_cons [H1 Hordered]%andb_true_iff.
  destruct (IH Hall Hordered) as [IHordered IHbefore]. clear IH.
  assert (∀ k0, forallb (key_before k0) (k1 :: map fst props) = true →
                key_before k0 k = true →
                forallb (key_before k0) (k :: k1 :: map fst props) = true) as Hfront.
  { intros k0 H0 Hk0. simpl in *. by rewrite Hk0, H0. }
  assert (key_before k k1 = true →
          ordered (k :: k1 :: map fst props) = true) as Hhere.
  { intros Hkk1. simpl. rewrite Hkk1, H1, Hordered. simpl. rewrite andb_true_r.
    apply forallb_forall. intros k2 Hk2.
    rewrite forallb_forall in H1. specialize (H1 k2 Hk2).
    unfold key_before in *. rewrite Hk in *.
    destruct (array_index k1) as [j1|], (array_index k2) as [j2|]; try done.
    apply N.ltb_lt in Hkk1, H1. apply N.ltb_lt. lia. }
  destruct (array_index k1) as [j|] eqn:Hk1.
  - destruct (j <? i)%N eqn:Hji; simpl.
    + split.
      * rewrite IHordered, andb_true_r. apply IHbefore; [done |].
        unfold key_before. by rewrite Hk1, Hk.
      * intros k0 [H0 H0']%andb_true_iff Hk0. rewrite H0. by apply IHbefore.
    + split; [| done]. apply Hhere. unfold key_before. rewrite Hk, Hk1.
      apply N.ltb_lt. apply N.ltb_ge in Hji.
      assert (j ≠ i) by (intros ->; by apply Hne, (array_index_inj _ _ i)). lia.
  - split; [| done]. apply Hhere. unfold key_before. by rewrite Hk, Hk1.
Qed.

Lemma ordered_define_prop k v props :
  ordered (map fst props) = true → ordered (map fst (define_prop k v props)) = true.
Proof.
  intros Hordered. unfold define_prop.
  destruct (lookup_prop k props) as [v0|] eqn:Hlookup.
  - by rewrite map_fst_replace_prop.
  - apply lookup_prop_None_inv in Hlookup.
    destruct (array_index k) as [i|] eqn:Hk.
    + by apply ordered_insert_index.
    + rewrite map_app. apply ordered_snoc; [done |].
      eapply Forall_impl; [exact Hlookup |]. intros k' Hk'. unfold key_before.
      simpl in *. rewrite Hk. destruct (array_index k'); [done |]. by rewrite bool_decide_eq_false_2.
Qed.

Lemma elem_of_replace_prop kv k v props :
  kv ∈ replace_prop k v props → kv = (k, v) ∨ kv ∈ props.
Proof.
  induction props as [|[k0 v0] props IH]; simpl; [by right |].
  case_bool_decide as Hk; intros [-> | Hin]%elem_of_cons.
  - left. by subst.
  - right. by right.
  - right. left.
  - destruct (IH Hin); [by left | right; by right].
Qed.

Lemma elem_of_insert_index kv i k v props :
  kv ∈ insert_index i k v props → kv = (k, v) ∨ kv ∈ props.
Proof.
  induction props as [|[k0 v0] props IH]; simpl.
  { intros ->%list_elem_of_singleton. by left. }
  destruct (array_index k0) as [j|]; [destruct (j <? i)%N |].
  - intros [-> | Hin]%elem_of_cons; [right; left |].
    destruct (IH Hin); [by left | right; by right].
  - intros [-> | Hin]%elem_of_cons; [by left | by right].
  - intros [-> | Hin]%elem_of_cons; [by left | by right].
Qed.

Lemma elem_of_define_prop kv k v props :
  kv ∈ define_prop k v props → kv = (k, v) ∨ kv ∈ props.
Proof.
  unfold define_prop. destruct (lookup_prop k props); [apply elem_of_replace_prop |].
  destruct (array_index k); [apply elem_of_insert_index |].
  intros [Hin | ->%list_elem_of_singleton]%elem_of_app; [by right | by left].
Qed.

Lemma forallb_define_prop (P : value → bool) k v props :
  P v = true → forallb (λ kv, P kv.2) props = true →
  forallb (λ kv, P kv.2) (define_prop k v props) = true.
Proof.
  intros Hv Hprops. apply forallb_forall. intros kv Hin.
  apply list_elem_of_In, elem_of_define_prop in Hin as [-> | Hin]; [done |].
  rewrite forallb_forall in Hprops. by apply Hprops, list_elem_of_In.
Qed.

Lemma safe_integer_text_integer negative n :
  (n ≤ max_safe_integer)%N → safe_integer_text (integer_text negative n) = true.
Proof.
  intros Hn. unfold integer_text, safe_integer_text.
  destruct (negative && negb (n =? 0)%N) eqn:Hneg.
  - change (expect "-" (String "-" ?x)) with (Some x). cbv iota beta.
    rewrite canonical_numeric_pretty.
    apply andb_true_iff in Hneg as [_ ->]. by apply N.leb_le.
  - destruct (pretty_head n) as (c & d & Hp & Hc).
    assert (expect "-" (pretty n) = None) as ->.
    { rewrite Hp. unfold expect. destruct (Ascii.eqb_spec "-" c) as [<- |]; done. }
    rewrite canonical_numeric_pretty. by apply N.leb_le.
Qed.

Lemma finish_number_json negative digits rest v r :
  finish_number negative digits rest = Normal (v, r) → is_json v = true.
Proof.
  unfold finish_number. intros H.
  repeat (case_match; simplify_eq/=); apply safe_integer_text_integer; by apply N.leb_le.
Qed.

Lemma parse_number_json s v r : parse_number s = Normal (v, r) → is_json v = true.
Proof.
  unfold parse_number. intros H.
  repeat (case_match; simplify_eq/=); by eapply finish_number_json.
Qed.

Lemma parse_literal_json s v r : parse_literal s = Normal (v, r) → is_json v = true.
Proof. unfold parse_literal. intros H. by repeat (case_match; simplify_eq/=). Qed.

Lemma bind_Normal_inv {A B} (c : completion A) (f : A → completion B) b :
  c ≫= f = Normal b → ∃ a, c = Normal a ∧ f a = Normal b.
Proof. destruct c as [a| |]; [| done..]. intros H. by exists a. Qed.

Lemma is_json_array elems : is_json (VArr elems) = forallb is_json elems.
Proof.
  unfold is_json. simpl. induction elems as [|e elems IH]; [done |]. simpl.
  rewrite IH. by destruct e.
Qed.

Lemma parse_json fuel :
  (∀ s v r, parse_value fuel s = Normal (v, r) → is_json v = true)
  ∧ (∀ s vs r, parse_elements fuel s = Normal (vs, r) → forallb is_json vs = true)
  ∧ (∀ acc s props r,
       ordered (map fst acc) = true → forallb (λ kv, is_json kv.2) acc = true →
       parse_members fuel acc s = Normal (props, r) →
       ordered (map fst props) = true ∧ forallb (λ kv, is_json kv.2) props = true).
Proof.
  induction fuel as [|fuel (IHvalue & IHelements & IHmembers)]; [done |]. split_and!.
  - intros s v r. simpl. destruct (skip_ws s) as [|c rest]; [done |].
    destruct (Ascii.eqb c "{"); [| destruct (Ascii.eqb c "[");
      [| destruct (Ascii.eqb c dquote); [| destruct (Ascii.eqb c "-" || is_digit c)]]].
    + destruct (expect "}" (skip_ws rest)); [by intros [= <- _] |].
      intros ([props r'] & Hmembers & [= <- _])%bind_Normal_inv.
      apply IHmembers in Hmembers as [Hordered Hall]; [| done..].
      unfold is_json. simpl. by rewrite Hordered.
    + destruct (expect "]" (skip_ws rest)); [by intros [= <- _] |].
      intros ([elems r'] & Helements & [= <- _])%bind_Normal_inv.
      rewrite is_json_array. by eapply IHelements.
    + by intros ([t r'] & _ & [= <- _])%bind_Normal_inv.
    + apply parse_number_json.
    + apply parse_literal_json.
  - intros s vs r. rewrite parse_elements_S.
    intros ([v r'] & Hvalue & Hrest)%bind_Normal_inv. apply IHvalue in Hvalue.
    destruct (expect "," (skip_ws r')) as [r''|].
    + apply bind_Normal_inv in Hrest as ([vs' r3] & Helements & [= <- _]).
      simpl. rewrite Hvalue. by eapply IHelements.
    + destruct (expect "]" (skip_ws r')); [| done]. injection Hrest as <- _.
      simpl. by rewrite Hvalue.
  - intros acc s props r Hordered Hall. rewrite parse_members_S.
    destruct (expect dquote (skip_ws s)) as [r0|]; [| done].
    intros ([k r1] & _ & Hrest)%bind_Normal_inv.
    destruct (expect ":" (skip_ws r1)) as [r2|]; [| done].
    apply bind_Normal_inv in Hrest as ([v r3] & Hvalue & Hrest). apply IHvalue in Hvalue.
    cbv zeta in Hrest.
    assert (ordered (map fst (define_prop k v acc)) = true) as Hordered'
      by by apply ordered_define_prop.
    assert (forallb (λ kv, is_json kv.2) (define_prop k v acc) = true) as Hall'
      by by apply forallb_define_prop.
    destruct (expect "," (skip_ws r3)) as [r4|]; [by eapply IHmembers |].
    destruct (expect "}" (skip_ws r3)); [| done]. by injection Hrest as <- _.
Qed.

Lemma JSON_parse_json s D : JSON_parse s = Normal D → is_json D = true.
Proof.
  intros (r & Hvalue & _)%JSON_parse_Normal.
  by eapply (parse_json (S (String.length s))).
Qed.

(** ** The parser and the grammar

    [JSON.parse] and [well_formed] agree: a text that the parser reads is in
    the grammar, and a text on which it throws is not. *)

(** *** What the parser accepts is in the grammar *)

Lemma run_skip_ws_value b stack s :
  run (at_value b) stack (skip_ws s) = run (at_value b) stack s.
Proof.
  induction s as [|c s IH]; [done |]. simpl.
  destruct (is_ws c) eqn:Hc; [done |]. simpl. by rewrite Hc.
Qed.

Lemma run_skip_ws_key b stack s :
  run (at_key b) stack (skip_ws s) = run (at_key b) stack s.
Proof.
  induction s as [|c s IH]; [done |]. simpl.
  destruct (is_ws c) eqn:Hc; [done |]. simpl. by rewrite Hc.
Qed.

Lemma run_skip_ws_colon stack s : run at_colon stack (skip_ws s) = run at_colon stack s.
Proof.
  induction s as [|c s IH]; [done |]. simpl.
  destruct (is_ws c) eqn:Hc; [done |]. simpl. by rewrite Hc.
Qed.

Lemma run_skip_ws_after stack s : run after_value stack (skip_ws s) = run after_value stack s.
Proof.
  induction s as [|c s IH]; [done |]. simpl. unfold close_value.
  destruct (is_ws c) eqn:Hc; [done |]. simpl. unfold close_value. by rewrite Hc.
Qed.

Lemma skip_ws_not_ws s c rest : skip_ws s = String c rest → is_ws c = false.
Proof.
  induction s as [|c' s IH]; [done |]. simpl. destruct (is_ws c') eqn:Hc; [done |].
  by intros [= <- _].
Qed.

Lemma run_after_blank r : skip_ws r = "" → run after_value [] r = true.
Proof. intros Hr. by rewrite <- run_skip_ws_after, Hr. Qed.

Lemma code_unit_hex h1 h2 h3 h4 n :
  code_unit h1 h2 h3 h4 = Some n →
  is_hex h1 = true ∧ is_hex h2 = true ∧ is_hex h3 = true ∧ is_hex h4 = true.
Proof.
  unfold code_unit, is_hex. intros H.
  destruct (hex_value h1); [| done]. destruct (hex_value h2); [| done].
  destruct (hex_value h3); [| done]. destruct (hex_value h4); [| done].
  split_and!; by apply bool_decide_eq_true.
Qed.

Lemma run_parse_chars_le n s key stack t r :
  (String.length s ≤ n)%nat → parse_chars s = Normal (t, r) →
  run (in_string key) stack s = run (if key then at_colon else after_value) stack r.
Proof.
  revert s t r. induction n as [|n IH]; intros s t r Hn; (destruct s as [|c rest]; [done |]);
    simpl in Hn; [lia |].
  simpl. destruct (Ascii.eqb c dquote) eqn:Hquote.
  { by intros [= <- <-]. }
  destruct (Ascii.eqb c backslash) eqn:Hslash.
  - destruct rest as [|e rest']; [done |]. simpl. destruct (Ascii.eqb e "u") eqn:Hu.
    + destruct rest' as [|h1 [|h2 [|h3 [|h4 rest'']]]]; try done.
      destruct (code_unit h1 h2 h3 h4) as [m|] eqn:Hcode; [| done].
      apply code_unit_hex in Hcode as (H1 & H2 & H3 & H4).
      destruct (m <? 256)%N; [| done].
      intros ([t' r'] & Hrest & [= <- <-])%bind_Normal_inv.
      simpl. rewrite H1. simpl. rewrite H2. simpl. rewrite H3. simpl. rewrite H4.
      apply (IH rest'' t' r'); [simpl in Hn; lia | done].
    + destruct (unescape e) as [x|] eqn:Hx; [| done].
      intros ([t' r'] & Hrest & [= <- <-])%bind_Normal_inv.
      rewrite bool_decide_eq_true_2 by by eexists.
      apply (IH rest' t' r'); [simpl in Hn; lia | done].
  - destruct (N_of_ascii c <? 32)%N; [done |].
    intros ([t' r'] & Hrest & [= <- <-])%bind_Normal_inv.
    apply (IH rest t' r'); [lia | done].
Qed.

Lemma run_parse_chars s key stack t r :
  parse_chars s = Normal (t, r) →
  run (in_string key) stack s = run (if key then at_colon else after_value) stack r.
Proof. by apply (run_parse_chars_le (String.length s)). Qed.

Lemma run_take_digits stack rest d r :
  take_digits rest = (d, r) →
  run num_int stack rest = run num_int stack r
  ∧ match r with String c _ => is_digit c = false | "" => True end.
Proof.
  revert d r. induction rest as [|c rest IH]; intros d r; simpl.
  - by intros [= <- <-].
  - destruct (is_digit c) eqn:Hc.
    + destruct (take_digits rest) as [d' r'] eqn:Hrest. intros [= <- <-]. by apply (IH d').
    + intros [= <- <-]. simpl. by rewrite Hc.
Qed.

Lemma finish_number_rest negative digits rest v r :
  finish_number negative digits rest = Normal (v, r) → r = rest ∧ ends_number rest.
Proof.
  unfold finish_number, ends_number. destruct rest as [|c rest].
  - destruct (digits_value 0 digits) as [n|]; [| done].
    destruct (n <=? max_safe_integer)%N; [| done]. by intros [= _ <-].
  - destruct (Ascii.eqb c "." || Ascii.eqb c "e" || Ascii.eqb c "E"); [done |].
    destruct (digits_value 0 digits) as [n|]; [| done].
    destruct (n <=? max_safe_integer)%N; [| done]. by intros [= _ <-].
Qed.

Lemma run_num_zero_end stack r : ends_number r → run num_zero stack r = run after_value stack r.
Proof.
  destruct r as [|c r]; simpl; [by destruct stack |].
  intros [[Hdot He]%orb_false_elim HE]%orb_false_elim. by rewrite Hdot, He, HE.
Qed.

Lemma run_num_int_end stack r :
  ends_number r → match r with String c _ => is_digit c = false | "" => True end →
  run num_int stack r = run after_value stack r.
Proof.
  destruct r as [|c r]; simpl; [by destruct stack |].
  intros [[Hdot He]%orb_false_elim HE]%orb_false_elim Hdigit.
  by rewrite Hdigit, Hdot, He, HE.
Qed.

Lemma step_digit b stack c :
  is_digit c = true →
  step (at_value b) stack c = Some (if Ascii.eqb c "0" then num_zero else num_int, stack)
  ∧ step num_minus stack c = Some (if Ascii.eqb c "0" then num_zero else num_int, stack).
Proof. by destruct c as [[] [] [] [] [] [] [] []], b. Qed.

Lemma run_unsigned negative m stack c rest v r :
  (is_digit c = true →
   step m stack c = Some (if Ascii.eqb c "0" then num_zero else num_int, stack)) →
  (if Ascii.eqb c "0" then finish_number negative "0" rest
   else if is_digit c then
     let '(d, r) := take_digits rest in finish_number negative (String c d) r
   else Throw SyntaxError) = Normal (v, r) →
  run m stack (String c rest) = run after_value stack r.
Proof.
  intros Hstep. simpl. destruct (Ascii.eqb c "0") eqn:H0.
  - apply Ascii.eqb_eq in H0 as ->. rewrite Hstep by done.
    intros [-> Hend]%finish_number_rest. by apply run_num_zero_end.
  - destruct (is_digit c); [| done]. rewrite Hstep by done.
    destruct (take_digits rest) as [d r'] eqn:Hd.
    apply (run_take_digits stack) in Hd as [-> Hdigit].
    intros [-> Hend]%finish_number_rest. by apply run_num_int_end.
Qed.

Lemma run_parse_number b stack c rest v r :
  Ascii.eqb c "-" || is_digit c = true →
  parse_number (String c rest) = Normal (v, r) →
  run (at_value b) stack (String c rest) = run after_value stack r.
Proof.
  intros Hc. unfold parse_number. simpl expect.
  destruct (Ascii.eqb "-" c) eqn:Hminus.
  - apply Ascii.eqb_eq in Hminus as <-.
    destruct rest as [|c1 rest1]; [done |]. intros Hnumber.
    transitivity (run num_minus stack (String c1 rest1)); [by destruct b |].
    eapply run_unsigned; [| done]. intros Hc1. by apply step_digit.
  - rewrite Ascii.eqb_sym, Hminus in Hc. simpl in Hc.
    apply run_unsigned. intros _. by apply step_digit.
Qed.

Lemma expect_all_Some word s r : expect_all word s = Some r → s = word +:+ r.
Proof.
  revert s. induction word as [|c word IH]; intros s; simpl.
  - by intros [= ->].
  - destruct (expect c s) as [rest|] eqn:Hc; [| done].
    apply expect_Some in Hc as ->. intros ->%IH. done.
Qed.

Lemma run_parse_literal b stack s v r :
  parse_literal s = Normal (v, r) → run (at_value b) stack s = run after_value stack r.
Proof.
  unfold parse_literal.
  destruct (expect_all "true" s) as [r1|] eqn:H1.
  { apply expect_all_Some in H1 as ->. intros [= _ <-]. by destruct b. }
  destruct (expect_all "false" s) as [r2|] eqn:H2.
  { apply expect_all_Some in H2 as ->. intros [= _ <-]. by destruct b. }
  destruct (expect_all "null" s) as [r3|] eqn:H3; [| done].
  apply expect_all_Some in H3 as ->. intros [= _ <-]. by destruct b.
Qed.

Lemma run_parse fuel :
  (∀ s v r b stack,
     parse_value fuel s = Normal (v, r) →
     run (at_value b) stack s = run after_value stack r)
  ∧ (∀ s vs r b stack,
       parse_elements fuel s = Normal (vs, r) →
       run (at_value b) (in_array :: stack) s = run after_value stack r)
  ∧ (∀ acc s props r b stack,
       parse_members fuel acc s = Normal (props, r) →
       run (at_key b) (in_object :: stack) s = run after_value stack r).
Proof.
  induction fuel as [|fuel (IHvalue & IHelements & IHmembers)]; [done |]. split_and!.
  - intros s v r b stack. simpl. rewrite <- (run_skip_ws_value b stack s).
    destruct (skip_ws s) as [|c rest] eqn:Hs; [done |].
    destruct (Ascii.eqb c "{") eqn:Hobject.
    { apply Ascii.eqb_eq in Hobject as ->.
      intros Hparse.
      transitivity (run (at_key true) (in_object :: stack) rest); [by destruct b |].
      revert Hparse. destruct (expect "}" (skip_ws rest)) as [rest'|] eqn:Hclose.
      - intros [= _ <-]. apply expect_Some in Hclose.
        by rewrite <- run_skip_ws_key, Hclose.
      - intros ([props r'] & Hmembers & [= _ <-])%bind_Normal_inv. by eapply IHmembers. }
    destruct (Ascii.eqb c "[") eqn:Harray.
    { apply Ascii.eqb_eq in Harray as ->.
      intros Hparse.
      transitivity (run (at_value true) (in_array :: stack) rest); [by destruct b |].
      revert Hparse. destruct (expect "]" (skip_ws rest)) as [rest'|] eqn:Hclose.
      - intros [= _ <-]. apply expect_Some in Hclose.
        by rewrite <- run_skip_ws_value, Hclose.
      - intros ([elems r'] & Helements & [= _ <-])%bind_Normal_inv. by eapply IHelements. }
    destruct (Ascii.eqb c dquote) eqn:Hquote.
    { apply Ascii.eqb_eq in Hquote as ->.
      intros ([t r'] & Hchars & [= _ <-])%bind_Normal_inv.
      transitivity (run (in_string false) stack rest); [by destruct b |].
      by apply (run_parse_chars rest false stack t). }
    destruct (Ascii.eqb c "-" || is_digit c) eqn:Hnumber.
    + by apply run_parse_number.
    + apply run_parse_literal.
  - intros s vs r b stack. rewrite parse_elements_S.
    intros ([v r'] & Hvalue & Hrest)%bind_Normal_inv.
    rewrite (IHvalue s v r' b (in_array :: stack) Hvalue), <- run_skip_ws_after.
    destruct (expect "," (skip_ws r')) as [r''|] eqn:Hcomma.
    + apply bind_Normal_inv in Hrest as ([vs' r3] & Helements & [= _ <-]).
      apply expect_Some in Hcomma as ->. by apply (IHelements r'' vs' r3 false).
    + destruct (expect "]" (skip_ws r')) as [r''|] eqn:Hclose; [| done].
      injection Hrest as _ <-. by apply expect_Some in Hclose as ->.
  - intros acc s props r b stack. rewrite parse_members_S, <- run_skip_ws_key.
    destruct (expect dquote (skip_ws s)) as [r0|] eqn:Hquote; [| done].
    apply expect_Some in Hquote as ->.
    intros ([k r1] & Hkey & Hrest)%bind_Normal_inv.
    transitivity (run (in_string true) (in_object :: stack) r0); [by destruct b |].
    rewrite (run_parse_chars r0 true _ k r1 Hkey), <- run_skip_ws_colon.
    destruct (expect ":" (skip_ws r1)) as [r2|] eqn:Hcolon; [| done].
    apply expect_Some in Hcolon as ->.
    apply bind_Normal_inv in Hrest as ([v r3] & Hvalue & Hrest). cbv zeta in Hrest.
    transitivity (run (at_value false) (in_object :: stack) r2); [done |].
    rewrite (IHvalue r2 v r3 false (in_object :: stack) Hvalue), <- run_skip_ws_after.
    destruct (expect "," (skip_ws r3)) as [r4|] eqn:Hcomma.
    + apply expect_Some in Hcomma as ->.
      by apply (IHmembers (define_prop k v acc) r4 props r false).
    + destruct (expect "}" (skip_ws r3)) as [r4|] eqn:Hclose; [| done].
      injection Hrest as _ <-. by apply expect_Some in Hclose as ->.
Qed.

(** A text that [JSON.parse] reads is in the grammar. *)
Lemma JSON_parse_well_formed s D : JSON_parse s = Normal D → well_formed s = true.
Proof.
  intros (r & Hvalue & Hr)%JSON_parse_Normal. unfold well_formed.
  rewrite (proj1 (run_parse _) s D r false [] Hvalue). by apply run_after_blank.
Qed.

(** *** What the parser rejects is outside the grammar *)

Lemma bind_Throw_inv {A B} (c : completion A) (f : A → completion B) e :
  c ≫= f = Throw e → c = Throw e ∨ ∃ a, c = Normal a ∧ f a = Throw e.
Proof.
  destruct c as [a| e' |]; [| | done]; intros H; [right; by exists a |].
  left. change (Throw e' = Throw e :> completion B) in H. by injection H as ->.
Qed.

Lemma accepting_open m stack frame : accepting m (frame :: stack) = false.
Proof. done. Qed.

Lemma hex_code_unit h1 h2 h3 h4 :
  is_hex h1 = true → is_hex h2 = true → is_hex h3 = true → is_hex h4 = true →
  is_Some (code_unit h1 h2 h3 h4).
Proof.
  unfold is_hex, code_unit.
  intros [a ->]%bool_decide_eq_true [b ->]%bool_decide_eq_true
    [c ->]%bool_decide_eq_true [d ->]%bool_decide_eq_true. by eexists.
Qed.

Local Ltac ends stack := intros [= <-]; split; [done | simpl; by destruct stack].

Lemma reject_parse_chars_le n s key stack e :
  (String.length s ≤ n)%nat → parse_chars s = Throw e →
  e = SyntaxError ∧ run (in_string key) stack s = false.
Proof.
  revert s. induction n as [|n IH]; intros s Hn; (destruct s as [|c rest]; [ends stack |]);
    simpl in Hn; [lia |].
  simpl. destruct (Ascii.eqb c dquote) eqn:Hquote; [done |].
  destruct (Ascii.eqb c backslash) eqn:Hslash.
  - destruct rest as [|x rest']; [ends stack |]. simpl.
    destruct (Ascii.eqb x "u") eqn:Hu.
    + destruct rest' as [|h1 rest']; [ends stack |]. simpl.
      destruct (is_hex h1) eqn:H1.
      2:{ intros He. split; [| done].
          destruct rest' as [|h2 [|h3 [|h4 rest'']]]; try by injection He.
          destruct (code_unit h1 h2 h3 h4) as [m|] eqn:Hcode; [| by injection He].
          apply code_unit_hex in Hcode as (? & _). congruence. }
      destruct rest' as [|h2 rest']; [ends stack |]. simpl.
      destruct (is_hex h2) eqn:H2.
      2:{ intros He. split; [| done].
          destruct rest' as [|h3 [|h4 rest'']]; try by injection He.
          destruct (code_unit h1 h2 h3 h4) as [m|] eqn:Hcode; [| by injection He].
          apply code_unit_hex in Hcode as (_ & ? & _). congruence. }
      destruct rest' as [|h3 rest']; [ends stack |]. simpl.
      destruct (is_hex h3) eqn:H3.
      2:{ intros He. split; [| done].
          destruct rest' as [|h4 rest'']; try by injection He.
          destruct (code_unit h1 h2 h3 h4) as [m|] eqn:Hcode; [| by injection He].
          apply code_unit_hex in Hcode as (_ & _ & ? & _). congruence. }
      destruct rest' as [|h4 rest'']; [ends stack |]. simpl.
      destruct (is_hex h4) eqn:H4.
      2:{ intros He. split; [| done].
          destruct (code_unit h1 h2 h3 h4) as [m|] eqn:Hcode; [| by injection He].
          apply code_unit_hex in Hcode as (_ & _ & _ & ?). congruence. }
      destruct (hex_code_unit h1 h2 h3 h4 H1 H2 H3 H4) as [m ->].
      destruct (m <? 256)%N; [| done].
      intros [He | ([t r] & _ & [=])]%bind_Throw_inv.
      apply (IH rest''); [simpl in Hn; lia | done].
    + destruct (unescape x) as [y|] eqn:Hx.
      * rewrite bool_decide_eq_true_2 by by eexists.
        intros [He | ([t r] & _ & [=])]%bind_Throw_inv.
        apply (IH rest'); [simpl in Hn; lia | done].
      * rewrite bool_decide_eq_false_2 by by intros [y Hy]. ends stack.
  - destruct (N_of_ascii c <? 32)%N; [ends stack |].
    intros [He | ([t r] & _ & [=])]%bind_Throw_inv.
    apply (IH rest); [lia | done].
Qed.

Lemma reject_parse_chars s key stack e :
  parse_chars s = Throw e → e = SyntaxError ∧ run (in_string key) stack s = false.
Proof. by apply (reject_parse_chars_le (String.length s)). Qed.

Lemma take_digits_value rest d r acc : take_digits rest = (d, r) → is_Some (digits_value acc d).
Proof.
  revert d r acc. induction rest as [|c rest IH]; intros d r acc; simpl.
  - intros [= <- <-]. by eexists.
  - destruct (is_digit c) eqn:Hc.
    + destruct (take_digits rest) as [d' r'] eqn:Hrest. intros [= <- <-]. simpl.
      apply bool_decide_eq_true in Hc as [x ->]. by apply (IH d' r').
    + intros [= <- <-]. by eexists.
Qed.

Lemma finish_number_Throw negative digits rest e :
  finish_number negative digits rest = Throw e → digits_value 0 digits = None.
Proof.
  unfold finish_number. destruct (match rest with "" => false | String _ _ => _ end); [done |].
  destruct (digits_value 0 digits) as [n|]; [| done]. by destruct (n <=? max_safe_integer)%N.
Qed.

Lemma reject_unsigned negative m stack c rest e :
  (is_digit c = true →
   step m stack c = Some (if Ascii.eqb c "0" then num_zero else num_int, stack)) →
  (is_digit c = false → step m stack c = None) →
  (if Ascii.eqb c "0" then finish_number negative "0" rest
   else if is_digit c then
     let '(d, r) := take_digits rest in finish_number negative (String c d) r
   else Throw SyntaxError) = Throw e →
  e = SyntaxError ∧ run m stack (String c rest) = false.
Proof.
  intros Hdigit Hother. destruct (Ascii.eqb c "0") eqn:H0.
  { by intros [=]%finish_number_Throw. }
  destruct (is_digit c) eqn:Hc.
  - destruct (take_digits rest) as [d r] eqn:Hd. intros Hvalue%finish_number_Throw.
    destruct (take_digits_value (String c rest) (String c d) r 0) as [n Hn].
    { simpl. by rewrite Hc, Hd. }
    congruence.
  - intros [= <-]. split; [done |]. simpl. by rewrite Hother.
Qed.

Lemma step_not_digit stack c : is_digit c = false → step num_minus stack c = None.
Proof. by destruct c as [[] [] [] [] [] [] [] []]. Qed.

Lemma reject_parse_number b stack c rest e :
  Ascii.eqb c "-" || is_digit c = true →
  parse_number (String c rest) = Throw e →
  e = SyntaxError ∧ run (at_value b) stack (String c rest) = false.
Proof.
  intros Hc. unfold parse_number. simpl expect.
  destruct (Ascii.eqb "-" c) eqn:Hminus.
  - apply Ascii.eqb_eq in Hminus as <-.
    destruct rest as [|c1 rest1]; [intros [= <-]; split; [done | by destruct b, stack] |].
    intros Hnumber.
    replace (run (at_value b) stack (String "-" (String c1 rest1)))
      with (run num_minus stack (String c1 rest1)) by by destruct b.
    eapply reject_unsigned; [| | done].
    + intros Hc1. by apply step_digit.
    + apply step_not_digit.
  - rewrite Ascii.eqb_sym, Hminus in Hc. simpl in Hc.
    apply reject_unsigned; [intros _; by apply step_digit | by rewrite Hc].
Qed.

Lemma run_literal_None word stack rest :
  word ≠ "" → expect_all word rest = None → run (in_literal word) stack rest = false.
Proof.
  revert rest. induction word as [|c word IH]; intros rest Hword; [done |]. simpl.
  destruct rest as [|x rest]; simpl; [intros _; by destruct stack |].
  rewrite (Ascii.eqb_sym x c). destruct (Ascii.eqb c x).
  - destruct word as [|c' word]; [done |]. intros H. by apply IH.
  - by destruct word.
Qed.

Lemma not_digit_zero c : is_digit c = false → Ascii.eqb c "0" = false.
Proof. by destruct c as [[] [] [] [] [] [] [] []]. Qed.

Lemma reject_parse_literal b stack c rest e :
  parse_literal (String c rest) = Throw e →
  step (at_value b) stack c = open_value c stack →
  Ascii.eqb c "{" = false → Ascii.eqb c "[" = false → Ascii.eqb c dquote = false →
  Ascii.eqb c "-" || is_digit c = false →
  e = SyntaxError ∧ run (at_value b) stack (String c rest) = false.
Proof.
  unfold parse_literal. intros Hliteral Hstep Hobject Harray Hquote [Hminus Hdigit]%orb_false_elim.
  destruct (expect_all "true" (String c rest)) as [|] eqn:Htrue; [done |].
  destruct (expect_all "false" (String c rest)) as [|] eqn:Hfalse; [done |].
  destruct (expect_all "null" (String c rest)) as [|] eqn:Hnull; [done |].
  injection Hliteral as <-. split; [done |].
  change (run (at_value b) stack (String c rest))
    with (match step (at_value b) stack c with
          | Some (m', stack') => run m' stack' rest
          | None => false
          end).
  rewrite Hstep. unfold open_value.
  rewrite Hobject, Harray, Hquote, Hminus, (not_digit_zero c Hdigit), Hdigit.
  simpl in Htrue, Hfalse, Hnull.
  rewrite (Ascii.eqb_sym c "t"), (Ascii.eqb_sym c "f"), (Ascii.eqb_sym c "n").
  destruct (Ascii.eqb "t" c); [by apply run_literal_None |].
  destruct (Ascii.eqb "f" c); [by apply run_literal_None |].
  destruct (Ascii.eqb "n" c); [by apply run_literal_None | done].
Qed.

Lemma run_after_other stack s :
  match stack with
  | in_array :: _ => expect "," (skip_ws s) = None ∧ expect "]" (skip_ws s) = None
  | in_object :: _ => expect "," (skip_ws s) = None ∧ expect "}" (skip_ws s) = None
  | [] => skip_ws s ≠ ""
  end →
  run after_value stack s = false.
Proof.
  rewrite <- run_skip_ws_after. destruct (skip_ws s) as [|c rest] eqn:Hs.
  - by destruct stack as [|[] stack].
  - apply skip_ws_not_ws in Hs. simpl. unfold close_value. rewrite Hs.
    destruct stack as [|[] stack]; [done | |]; simpl; rewrite !(Ascii.eqb_sym c);
      intros [Hcomma Hclose].
    + destruct (Ascii.eqb "," c); [done |]. by destruct (Ascii.eqb "]" c).
    + destruct (Ascii.eqb "," c); [done |]. by destruct (Ascii.eqb "}" c).
Qed.

Lemma step_value_open b stack c rest :
  is_ws c = false → (b = true → expect "]" (String c rest) = None) →
  step (at_value b) stack c = open_value c stack.
Proof.
  intros Hc Hclose. simpl. rewrite Hc.
  destruct b; [| done]. specialize (Hclose eq_refl). simpl in Hclose.
  rewrite (Ascii.eqb_sym c). by destruct (Ascii.eqb "]" c).
Qed.

Lemma reject_parse fuel :
  (∀ s e b stack,
     parse_value fuel s = Throw e → (b = true → expect "]" (skip_ws s) = None) →
     e = SyntaxError ∧ run (at_value b) stack s = false)
  ∧ (∀ s e b stack,
       parse_elements fuel s = Throw e → (b = true → expect "]" (skip_ws s) = None) →
       e = SyntaxError ∧ run (at_value b) (in_array :: stack) s = false)
  ∧ (∀ acc s e b stack,
       parse_members fuel acc s = Throw e → (b = true → expect "}" (skip_ws s) = None) →
       e = SyntaxError ∧ run (at_key b) (in_object :: stack) s = false).
Proof.
  induction fuel as [|fuel (IHvalue & IHelements & IHmembers)]; [done |]. split_and!.
  - intros s e b stack. simpl. rewrite <- (run_skip_ws_value b stack s).
    destruct (skip_ws s) as [|c rest] eqn:Hs.
    { intros [= <-] _. split; [done | by destruct stack]. }
    intros Hparse Hclose.
    pose proof (step_value_open b stack c rest (skip_ws_not_ws _ _ _ Hs) Hclose) as Hstep.
    change (run (at_value b) stack (String c rest))
      with (match step (at_value b) stack c with
            | Some (m', stack') => run m' stack' rest
            | None => false
            end).
    destruct (Ascii.eqb c "{") eqn:Hobject.
    { rewrite Hstep. unfold open_value. rewrite Hobject.
      destruct (expect "}" (skip_ws rest)) as [rest'|] eqn:Hempty; [done |].
      apply bind_Throw_inv in Hparse as [Hmembers | ([props r] & _ & [=])].
      by apply (IHmembers [] rest e true stack). }
    destruct (Ascii.eqb c "[") eqn:Harray.
    { rewrite Hstep. unfold open_value. rewrite Hobject, Harray.
      destruct (expect "]" (skip_ws rest)) as [rest'|] eqn:Hempty; [done |].
      apply bind_Throw_inv in Hparse as [Helements | ([elems r] & _ & [=])].
      by apply (IHelements rest e true stack). }
    destruct (Ascii.eqb c dquote) eqn:Hquote.
    { rewrite Hstep. unfold open_value. rewrite Hobject, Harray, Hquote.
      apply bind_Throw_inv in Hparse as [Hchars | ([t r] & _ & [=])].
      by apply reject_parse_chars. }
    destruct (Ascii.eqb c "-" || is_digit c) eqn:Hnumber.
    + by apply (reject_parse_number b stack c rest e).
    + by apply (reject_parse_literal b stack c rest e).
  - intros s e b stack. rewrite parse_elements_S.
    intros [Hvalue | ([v r'] & Hvalue & Hrest)]%bind_Throw_inv Hclose.
    { by apply IHvalue. }
    rewrite (proj1 (run_parse fuel) s v r' b (in_array :: stack) Hvalue).
    destruct (expect "," (skip_ws r')) as [r''|] eqn:Hcomma.
    + apply bind_Throw_inv in Hrest as [Helements | ([vs r3] & _ & [=])].
      apply expect_Some in Hcomma. rewrite <- run_skip_ws_after, Hcomma.
      by apply (IHelements r'' e false stack).
    + destruct (expect "]" (skip_ws r')) as [r''|] eqn:Hend; [done |].
      injection Hrest as <-. split; [done |]. by apply run_after_other.
  - intros acc s e b stack. rewrite parse_members_S, <- run_skip_ws_key.
    intros Hparse Hclose.
    destruct (skip_ws s) as [|c rest] eqn:Hs.
    { injection Hparse as <-. split; [done | by destruct b]. }
    pose proof (skip_ws_not_ws _ _ _ Hs) as Hc. simpl in Hparse, Hclose.
    change (run (at_key b) (in_object :: stack) (String c rest))
      with (match step (at_key b) (in_object :: stack) c with
            | Some (m', stack') => run m' stack' rest
            | None => false
            end).
    assert (step (at_key b) (in_object :: stack) c
            = if Ascii.eqb c dquote then Some (in_string true, in_object :: stack) else None)
      as ->.
    { simpl. rewrite Hc. destruct b; [| done]. specialize (Hclose eq_refl).
      rewrite (Ascii.eqb_sym c "}"). by destruct (Ascii.eqb "}" c). }
    rewrite (Ascii.eqb_sym c). destruct (Ascii.eqb dquote c); [| by injection Hparse as <-].
    apply bind_Throw_inv in Hparse as [Hkey | ([k r1] & Hkey & Hrest)].
    { by apply reject_parse_chars. }
    rewrite (run_parse_chars rest true _ k r1 Hkey), <- run_skip_ws_colon.
    destruct (skip_ws r1) as [|c1 r2] eqn:Hr1.
    { injection Hrest as <-. done. }
    pose proof (skip_ws_not_ws _ _ _ Hr1) as Hc1. simpl in Hrest. simpl. rewrite Hc1.
    rewrite (Ascii.eqb_sym c1). destruct (Ascii.eqb ":" c1); [| by injection Hrest as <-].
    apply bind_Throw_inv in Hrest as [Hvalue | ([v r3] & Hvalue & Hrest)].
    { by apply IHvalue. }
    cbv zeta in Hrest.
    rewrite (proj1 (run_parse fuel) r2 v r3 false (in_object :: stack) Hvalue).
    destruct (expect "," (skip_ws r3)) as [r4|] eqn:Hcomma.
    + apply expect_Some in Hcomma. rewrite <- run_skip_ws_after, Hcomma.
      by apply (IHmembers (define_prop k v acc) r4 e false stack).
    + destruct (expect "}" (skip_ws r3)) as [r4|] eqn:Hend; [done |].
      injection Hrest as <-. split; [done |]. by apply run_after_other.
Qed.

(** [JSON.parse] throws a [SyntaxError], and nothing else, exactly on the
    texts outside the grammar. *)
Lemma JSON_parse_Throw s e : JSON_parse s = Throw e → e = SyntaxError ∧ well_formed s = false.
Proof.
  unfold JSON_parse, well_formed.
  destruct (parse_value (S (String.length s)) s) as [[v r]| e' |] eqn:Hvalue.
  - destruct (skip_ws r) eqn:Hr; [done |]. intros [= <-]. split; [done |].
    rewrite (proj1 (run_parse _) s v r false [] Hvalue). apply run_after_other.
    by rewrite Hr.
  - intros [= <-]. by apply (proj1 (reject_parse (S (String.length s))) s e' false []).
  - destruct (run (at_value false) [] s); [done | by intros [= <-]].
Qed.

Lemma JSON_parse_not_json s : well_formed s = false ↔ JSON_parse s = Throw SyntaxError.
Proof.
  split; [| by intros [_ ?]%JSON_parse_Throw].
  intros Hs. destruct (JSON_parse s) as [D| e |] eqn:Hparse.
  - apply JSON_parse_well_formed in Hparse. congruence.
  - by apply JSON_parse_Throw in Hparse as [-> _].
  - unfold JSON_parse in Hparse. rewrite Hs in Hparse.
    by destruct (parse_value _ s) as [[v r]| |]; [destruct (skip_ws r) | |].
Qed.

(** ** Writing, then reading *)

Lemma json_like_element holes e : json_like holes e = true → element_like holes e = true.
Proof. by destruct e. Qed.

Lemma element_like_defined holes e :
  element_like holes e = true → e ≠ VUndefined → json_like holes e = true.
Proof. by destruct e. Qed.

Lemma json_like_holes v : is_json v = true → json_like true v = true.
Proof.
  unfold is_json. induction v as [| |b|text|s|elems IH|props IH] using value_ind;
    simpl; try done.
  - induction elems as [|e elems IHelems]; [done |].
    apply Forall_cons in IH as [He IH]. simpl.
    intros [Hjson_e Hjson]%andb_true_iff. rewrite IHelems by done.
    destruct e; try done; by rewrite He.
  - intros [-> Hjson]%andb_true_iff. simpl.
    induction props as [|[k v] props IHprops]; [done |].
    apply Forall_cons in IH as [Hv IH]. simpl in *.
    apply andb_true_iff in Hjson as [Hjson_v Hjson]. by rewrite Hv, IHprops.
Qed.

Lemma forallb_lookup {A} (P : A → bool) (l : list A) i x :
  forallb P l = true → l !! i = Some x → P x = true.
Proof.
  intros Hall Hx. rewrite forallb_forall in Hall. apply Hall, list_elem_of_In.
  by eapply list_elem_of_lookup_2.
Qed.

Lemma forallb_insert {A} (P : A → bool) (l : list A) i x :
  forallb P l = true → P x = true → forallb P (<[i:=x]> l) = true.
Proof.
  revert i. induction l as [|y l IH]; intros i; [done |]. simpl.
  intros [Hy Hl]%andb_true_iff Hx. destruct i as [|i]; simpl.
  - by rewrite Hx, Hl.
  - by rewrite Hy, IH.
Qed.

Lemma forallb_replicate {A} (P : A → bool) n x : P x = true → forallb P (replicate n x) = true.
Proof. intros Hx. induction n as [|n IH]; [done |]. simpl. by rewrite Hx, IH. Qed.

Lemma lookup_prop_forallb (P : value → bool) k props v :
  forallb (λ kv, P kv.2) props = true → lookup_prop k props = Some v → P v = true.
Proof.
  intros Hall Hv. apply lookup_prop_elem_of in Hv. rewrite forallb_forall in Hall.
  by apply (Hall (k, v)), list_elem_of_In.
Qed.

Lemma write_element_lookup i v elems : write_element i v elems !! i = Some v.
Proof.
  unfold write_element. case_decide as Hi.
  - by apply list_lookup_insert_eq.
  - rewrite lookup_app_r by lia. rewrite lookup_app_r by (rewrite length_replicate; lia).
    rewrite length_replicate. by replace (i - _ - _)%nat with 0%nat by lia.
Qed.

Lemma write_element_json i v elems :
  forallb (element_like true) elems = true → json_like true v = true →
  forallb (element_like true) (write_element i v elems) = true.
Proof.
  intros Helems Hv. apply json_like_element in Hv. unfold write_element. case_decide.
  - by apply forallb_insert.
  - rewrite !forallb_app, Helems, forallb_replicate by done. simpl. by rewrite Hv.
Qed.

Lemma array_index_not_length k i : array_index k = Some i → k ≠ "length".
Proof. by intros Hk ->. Qed.

Lemma classic_container v : container v ∨ ¬ container v.
Proof. destruct v; simpl; tauto. Qed.

(** A read that gives an object or an array is the read of a property of an
    object or of an element of an array. *)
Lemma get_container D k child :
  get D k = Normal child → container child →
  (∃ props, D = VObj props ∧ lookup_prop k props = Some child)
  ∨ (∃ elems i, D = VArr elems ∧ array_index k = Some i
                ∧ elems !! N.to_nat i = Some child).
Proof.
  intros Hget Hchild.
  assert (container D) as HD.
  { destruct (classic_container D) as [HD | HD]; [done |].
    by destruct (get_not_container D k child HD Hget). }
  apply get_Normal in Hget as [Hown | [_ ->]]; [| done].
  destruct D as [| |b|text|s|elems|props]; try done; simpl in Hown.
  - right. case_bool_decide; [simplify_eq; by destruct Hchild |].
    destruct (array_index k) as [i|] eqn:Hk; simpl in Hown; [| done].
    by exists elems, i.
  - left. by exists props.
Qed.

Lemma get_put_child D k child child' :
  get D k = Normal child → container child → get (put_child D k child') k = Normal child'.
Proof.
  intros Hget Hchild. apply get_own.
  destruct (get_container D k child Hget Hchild)
    as [(props & -> & Hk) | (elems & i & -> & Hk & Hi)]; simpl.
  - by rewrite lookup_replace_prop, bool_decide_eq_true_2, Hk.
  - rewrite Hk. simpl. rewrite bool_decide_eq_false_2 by by eapply array_index_not_length.
    rewrite Hk. simpl. rewrite list_lookup_insert_eq; [done |]. by eapply lookup_lt_Some.
Qed.

Lemma navigate_container v p c : navigate v p = Normal c → container c → container v.
Proof.
  revert v. induction p as [|seg rest IH]; simpl; intros v; [by intros [= ->] |].
  intros (next & Hget & Hnav)%bind_Normal_inv Hc.
  destruct (classic_container v) as [Hv | Hv]; [done |].
  destruct (get_not_container v _ next Hv Hget). by eapply IH.
Qed.

Lemma navigate_app v p p' : navigate v (p ++ p') = c ← navigate v p; navigate c p'.
Proof.
  revert v. induction p as [|seg rest IH]; intros v; [done |]. simpl.
  destruct (get v (property_key seg)) as [next| |]; [| done..]. apply IH.
Qed.

(** An assignment that does not throw is made on an object or an array, or
    it is the assignment to [__proto__] of a primitive, which does nothing. *)
Lemma set_container parent k v parent' :
  set parent k v = Normal parent' → container parent ∨ parent' = parent.
Proof.
  destruct parent; simpl; try done; try (by left).
  all: case_bool_decide; [| done]; intros [= <-]; by right.
Qed.

Lemma replace_prop_id k v props : lookup_prop k props = Some v → replace_prop k v props = props.
Proof.
  induction props as [| [k' v'] props IH]; [done |]. simpl.
  destruct (bool_decide (k = k')); [by intros [= ->] |]. intros H. by rewrite IH.
Qed.

Lemma replace_prop_absent k v props : lookup_prop k props = None → replace_prop k v props = props.
Proof.
  induction props as [| [k' v'] props IH]; [done |]. simpl.
  destruct (bool_decide (k = k')); [done |]. intros H. by rewrite IH.
Qed.

(** Putting back the child that is there changes nothing. *)
Lemma put_child_same D k child : get D k = Normal child → put_child D k child = D.
Proof.
  intros Hget. destruct D as [| |b|text|s|elems|props]; try done; simpl.
  - destruct (array_index k) as [i|] eqn:Hk; [| done]. f_equal.
    apply get_Normal in Hget as [Hown | [Hown _]]; simpl in Hown; rewrite Hk in Hown;
      rewrite bool_decide_eq_false_2 in Hown by (by eapply array_index_not_length);
      simpl in Hown.
    + by apply list_insert_id.
    + apply list_insert_ge. by apply lookup_ge_None.
  - f_equal. apply get_Normal in Hget as [Hown | [Hown _]]; simpl in Hown.
    + by apply replace_prop_id.
    + by apply replace_prop_absent.
Qed.

(** Below a value that is no object and no array, an assignment that does
    not throw changes nothing. *)
Lemma assign_primitive c segs lastKey newValue c' :
  ¬ container c → assign c segs lastKey newValue = Normal c' → c' = c.
Proof.
  revert c c'. induction segs as [|seg rest IH]; simpl; intros c c' Hc.
  - intros Hset. by destruct (set_container _ _ _ _ Hset).
  - intros (child & Hget & (child' & Hassign & [= <-])%bind_Normal_inv)%bind_Normal_inv.
    by destruct c.
Qed.

(** The steps of [assign] on a path that is not empty. *)
Lemma assign_cons D seg rest lastKey newValue D' :
  assign D (seg :: rest) lastKey newValue = Normal D' →
  ∃ child child',
    get D (property_key seg) = Normal child
    ∧ assign child rest lastKey newValue = Normal child'
    ∧ D' = put_child D (property_key seg) child'
    ∧ (container child ∨ (child' = child ∧ D' = D)).
Proof.
  simpl.
  intros (child & Hget & (child' & Hassign & [= <-])%bind_Normal_inv)%bind_Normal_inv.
  exists child, child'. split_and!; try done.
  destruct (classic_container child) as [Hc | Hc]; [by left | right].
  apply (assign_primitive _ _ _ _ _ Hc) in Hassign as ->.
  split; [done |]. by apply put_child_same.
Qed.

(** When the assignment at the end of the loop leaves the parent as it is,
    the document is left as it is. *)
Lemma assign_id D intermediate lastKey newValue parent :
  navigate D intermediate = Normal parent →
  set parent (property_key lastKey) newValue = Normal parent →
  assign D intermediate lastKey newValue = Normal D.
Proof.
  intros Hnav Hset. revert D Hnav.
  induction intermediate as [| seg rest IH]; intros D Hnav; simpl in *.
  - by injection Hnav as ->.
  - apply bind_Normal_inv in Hnav as (child & Hget & Hnav). rewrite Hget, bind_Normal.
    rewrite (IH child Hnav), bind_Normal. by rewrite (put_child_same D _ child Hget).
Qed.

(** The assignment at the end of the loop is seen from the root: after it,
    the intermediate segments lead to the parent as the assignment left it. *)
Lemma assign_navigate D intermediate lastKey newValue parent parent' :
  navigate D intermediate = Normal parent →
  set parent (property_key lastKey) newValue = Normal parent' →
  ∃ D', assign D intermediate lastKey newValue = Normal D'
        ∧ navigate D' intermediate = Normal parent'.
Proof.
  intros Hnav Hset.
  destruct (set_container _ _ _ _ Hset) as [Hparent | ->];
    [| exists D; split; [by eapply assign_id | done]].
  revert D Hnav. induction intermediate as [|seg rest IH]; simpl; intros D.
  - intros [= ->]. by exists parent'.
  - intros (child & Hget & Hnav)%bind_Normal_inv.
    destruct (IH child Hnav) as (child' & Hassign & Hnav').
    rewrite Hget, bind_Normal, Hassign, bind_Normal. eexists. split; [done |].
    rewrite (get_put_child D _ child child' Hget), bind_Normal; [done |].
    by eapply navigate_container.
Qed.

(** What an assignment that does not throw has done. *)
Lemma assign_Normal_inv D intermediate lastKey newValue D' :
  assign D intermediate lastKey newValue = Normal D' →
  ∃ parent parent',
    navigate D intermediate = Normal parent
    ∧ set parent (property_key lastKey) newValue = Normal parent'
    ∧ navigate D' intermediate = Normal parent'.
Proof.
  revert D D'. induction intermediate as [| seg rest IH]; intros D D' Hassign.
  - by exists D, D'.
  - apply assign_cons in Hassign
      as (child & child' & Hget & Hassign & -> & [Hc | [-> Hsame]]).
    + destruct (IH _ _ Hassign) as (parent & parent' & Hnav & Hset & Hnav').
      exists parent, parent'. simpl. rewrite Hget, bind_Normal. split; [done |].
      split; [done |]. by rewrite (get_put_child D _ child child' Hget), bind_Normal.
    + destruct (IH _ _ Hassign) as (parent & parent' & Hnav & Hset & Hnav').
      exists parent, parent'. rewrite Hsame. simpl. rewrite Hget, bind_Normal. done.
Qed.

Lemma get_set parent lastKey v parent' :
  set parent (property_key lastKey) v = Normal parent' → fits parent lastKey →
  get parent' (property_key lastKey) = Normal v.
Proof.
  destruct parent as [| |b|text|s|elems|props]; simpl; try done.
  - intros Hset [i Hk]. rewrite Hk in Hset. injection Hset as <-. apply get_own. simpl.
    rewrite bool_decide_eq_false_2 by by eapply array_index_not_length.
    rewrite Hk. simpl. by rewrite write_element_lookup.
  - intros Hset Hfits.
    rewrite (proj2 (andb_false_iff _ _)) in Hset.
    + injection Hset as <-. apply get_own. simpl.
      by rewrite lookup_define_prop, bool_decide_eq_true_2.
    + destruct Hfits as [Hproto | [x Hx]].
      * left. by apply bool_decide_eq_false.
      * right. apply bool_decide_eq_false. by rewrite Hx.
Qed.

Lemma set_fits parent lastKey v :
  fits parent lastKey → ∃ parent', set parent (property_key lastKey) v = Normal parent'.
Proof.
  destruct parent as [| |b|text|s|elems|props]; simpl; try done.
  - intros [i ->]. by eexists.
  - intros _.
    destruct (bool_decide (property_key lastKey = "__proto__")
              && bool_decide (lookup_prop (property_key lastKey) props = None)); by eexists.
Qed.

(** Values of the fragment stay in the fragment, up to the holes of an array
    written past its end. *)
Lemma set_json parent k v parent' :
  json_like true parent = true → json_like true v = true →
  set parent k v = Normal parent' → json_like true parent' = true.
Proof.
  destruct parent as [| |b|text|s|elems|props]; simpl; try done.
  - intros _ _. case_bool_decide; [by intros [= <-] | done].
  - intros Hparent _. case_bool_decide; [by intros [= <-] | done].
  - intros _ _. case_bool_decide; [by intros [= <-] | done].
  - intros Helems Hv. destruct (array_index k) as [i|].
    + intros [= <-]. simpl. by apply write_element_json.
    + case_bool_decide; [done |]. by intros [= <-].
  - intros Hprops Hv.
    destruct (bool_decide (k = "__proto__") && bool_decide (lookup_prop k props = None));
      intros [= <-]; [done |].
    apply andb_true_iff in Hprops as [Hordered Hprops]. simpl.
    rewrite ordered_define_prop by done. by apply forallb_define_prop.
Qed.

Lemma get_json holes D k child :
  json_like holes D = true → get D k = Normal child → container child →
  json_like holes child = true.
Proof.
  intros HD Hget Hchild.
  destruct (get_container D k child Hget Hchild)
    as [(props & -> & Hk) | (elems & i & -> & Hk & Hi)]; simpl in HD.
  - apply andb_true_iff in HD as [_ HD]. by eapply (lookup_prop_forallb (json_like holes)).
  - apply (element_like_defined holes); [| by destruct child].
    by eapply (forallb_lookup (element_like holes)).
Qed.

Lemma navigate_json holes D p c :
  json_like holes D = true → navigate D p = Normal c → container c →
  json_like holes c = true.
Proof.
  revert D. induction p as [|seg rest IH]; simpl; intros D HD; [by intros [= <-] |].
  intros (child & Hget & Hnav)%bind_Normal_inv Hc.
  eapply IH; [| done..]. eapply get_json; [done.. |]. by eapply navigate_container.
Qed.

Lemma put_child_json D k child child' :
  json_like true D = true → get D k = Normal child → container child →
  json_like true child' = true → json_like true (put_child D k child') = true.
Proof.
  intros HD Hget Hchild Hchild'.
  destruct (get_container D k child Hget Hchild)
    as [(props & -> & Hk) | (elems & i & -> & Hk & Hi)]; simpl in *.
  - apply andb_true_iff in HD as [Hordered HD].
    rewrite map_fst_replace_prop, Hordered. simpl.
    apply forallb_forall. intros kv Hin.
    apply list_elem_of_In, elem_of_replace_prop in Hin as [-> | Hin]; [done |].
    rewrite forallb_forall in HD. by apply HD, list_elem_of_In.
  - rewrite Hk. simpl. apply (forallb_insert (element_like true)); [done |].
    by apply json_like_element.
Qed.

(** The document after an assignment is in the fragment when the parent, as
    the assignment left it, is. *)
Lemma assign_json_at D intermediate lastKey newValue D' parent :
  json_like true D = true → navigate D intermediate = Normal parent →
  (∀ parent', set parent (property_key lastKey) newValue = Normal parent' →
              json_like true parent' = true) →
  assign D intermediate lastKey newValue = Normal D' → json_like true D' = true.
Proof.
  intros HD Hnav Hset. revert D D' HD Hnav.
  induction intermediate as [| seg rest IH]; intros D D' HD Hnav Hassign.
  - injection Hnav as ->. by apply Hset.
  - apply assign_cons in Hassign
      as (child & child' & Hget & Hassign & -> & [Hc | [-> ->]]); [| done].
    simpl in Hnav. rewrite Hget, bind_Normal in Hnav.
    eapply put_child_json; [done.. |].
    eapply IH; [| done | done]. by eapply (get_json true).
Qed.

Lemma assign_json D intermediate lastKey newValue D' :
  json_like true D = true → json_like true newValue = true →
  assign D intermediate lastKey newValue = Normal D' → json_like true D' = true.
Proof.
  intros HD Hvalue. revert D D' HD.
  induction intermediate as [| seg rest IH]; intros D D' HD Hassign.
  - by apply (set_json D (property_key lastKey) newValue).
  - apply assign_cons in Hassign
      as (child & child' & Hget & Hassign & -> & [Hc | [-> ->]]); [| done].
    eapply put_child_json; [done.. |].
    eapply IH; [| done]. by eapply (get_json true).
Qed.

(** Reading in the document as it is read back from its serialisation. *)
Lemma normalize_not_container v : ¬ container v → v ≠ VUndefined → normalize v = v.
Proof. by destruct v. Qed.

Lemma lookup_prop_normalize k props :
  lookup_prop k (map (λ kv, (kv.1, normalize kv.2)) props) = normalize <$> lookup_prop k props.
Proof.
  induction props as [|[k0 v0] props IH]; [done |]. simpl. by case_bool_decide.
Qed.

Lemma own_normalize D k child :
  own D k = Some child → own (normalize D) k = Some (normalize child).
Proof.
  destruct D as [| |b|text|s|elems|props]; simpl; try done.
  - intros Hown. rewrite Hown. f_equal. symmetry.
    assert (get (VStr s) k = Normal child) as Hget by by apply get_own.
    pose proof (get_not_container (VStr s) k child (λ H, H) Hget) as Hc.
    revert Hown. case_bool_decide; [by intros [= <-] |].
    destruct (canonical_numeric k) as [i|]; simpl; [| done].
    destruct (String.get (N.to_nat i) s); simpl; [| done]. by intros [= <-].
  - rewrite length_map. case_bool_decide; [by intros [= <-] |].
    destruct (array_index k) as [i|]; simpl; [| done].
    rewrite list_lookup_fmap. destruct (elems !! N.to_nat i); simpl; by intros [= <-].
  - rewrite lookup_prop_normalize.
    destruct (lookup_prop k props); simpl; by intros [= <-].
Qed.

Lemma get_normalize D k child :
  get D k = Normal child → child ≠ VUndefined →
  get (normalize D) k = Normal (normalize child).
Proof.
  intros Hget Hchild. apply get_Normal in Hget as [Hown | [_ ->]]; [| done].
  by apply get_own, own_normalize.
Qed.

Lemma navigate_normalize D p v :
  navigate D p = Normal v → v ≠ VUndefined →
  navigate (normalize D) p = Normal (normalize v).
Proof.
  revert D. induction p as [|seg rest IH]; simpl; intros D.
  - by intros [= ->].
  - intros (child & Hget & Hnav)%bind_Normal_inv Hv.
    assert (child ≠ VUndefined) as Hchild.
    { intros ->. destruct rest; simpl in Hnav; by simplify_eq. }
    rewrite (get_normalize D _ child Hget Hchild), bind_Normal. by apply IH.
Qed.

Lemma json_like_defined holes v : json_like holes v = true → v ≠ VUndefined.
Proof. by destruct v. Qed.

Lemma is_json_stringify V : is_json V = true → ∃ t, JSON_stringify V = Some t.
Proof. intros HV. apply stringify_defined. by eapply json_like_defined. Qed.

(** What writing produces and what reading it back gives, for a place that
    is writable. *)
Lemma updateJsonAtPath_member jsonString D intermediate lastKey newValue parent :
  JSON_parse jsonString = Normal D → is_json newValue = true →
  navigate D intermediate = Normal parent → fits parent lastKey →
  ∃ D' parent' t,
    set parent (property_key lastKey) newValue = Normal parent'
    ∧ navigate D' intermediate = Normal parent'
    ∧ json_like true D' = true
    ∧ JSON_stringify D' = Some t
    ∧ updateJsonAtPath jsonString (Some (intermediate ++ [lastKey])) newValue
      = Normal (Some t)
    ∧ JSON_parse t = Normal (normalize D').
Proof.
  intros HD Hvalue Hnav Hfits.
  destruct (set_fits parent lastKey newValue Hfits) as [parent' Hset].
  destruct (assign_navigate D intermediate lastKey newValue parent parent' Hnav Hset)
    as (D' & Hassign & Hnav').
  assert (json_like true D' = true) as HD'.
  { eapply assign_json; [| | exact Hassign]; apply json_like_holes; [| done].
    by eapply JSON_parse_json. }
  destruct (stringify_defined D' (json_like_defined _ _ HD')) as [t Ht].
  exists D', parent', t. split_and!; try done.
  - by rewrite updateJsonAtPath_snoc, HD, bind_Normal, Hassign, bind_Normal, Ht.
  - by eapply JSON_parse_stringify.
Qed.

(** Writing at the root, then reading the root. *)
Lemma write_read_root jsonString D newValue :
  JSON_parse jsonString = Normal D → is_json newValue = true →
  ∃ t, updateJsonAtPath jsonString (Some []) newValue = Normal (Some t)
       ∧ getFullNodeValue t (Some []) = Normal (JSON_stringify newValue).
Proof.
  intros HD Hvalue.
  destruct (is_json_stringify newValue Hvalue) as [t Ht]. exists t. split.
  - unfold updateJsonAtPath. by rewrite HD, bind_Normal, Ht.
  - rewrite (getFullNodeValue_navigate t (normalize newValue) []).
    + simpl. by rewrite normalize_json.
    + by apply (JSON_parse_stringify false).
Qed.

(** Writing a member that fits its parent, then reading it. *)
Lemma write_read_member jsonString D intermediate lastKey newValue parent :
  JSON_parse jsonString = Normal D → is_json newValue = true →
  navigate D intermediate = Normal parent → fits parent lastKey →
  ∃ t, updateJsonAtPath jsonString (Some (intermediate ++ [lastKey])) newValue
       = Normal (Some t)
       ∧ getFullNodeValue t (Some (intermediate ++ [lastKey]))
         = Normal (JSON_stringify newValue).
Proof.
  intros HD Hvalue Hnav Hfits.
  destruct (updateJsonAtPath_member jsonString D intermediate lastKey newValue parent
              HD Hvalue Hnav Hfits)
    as (D' & parent' & t & Hset & Hnav' & HD' & Ht & Hwrite & Hparse).
  exists t. split; [done |].
  rewrite (getFullNodeValue_navigate t (normalize D') _ Hparse).
  rewrite (navigate_normalize D' _ newValue).
  - by rewrite normalize_json.
  - rewrite navigate_app, Hnav', bind_Normal. simpl.
    by rewrite (get_set parent lastKey newValue parent' Hset).
  - by eapply json_like_defined.
Qed.

(** C5, as it is stated, fails: a string segment that ends a path on an
    array names a property of the array, which the serialisation leaves
    out, so that reading the path in the document produced gives nothing. *)
Lemma updateJsonAtPath_named_member_of_array :
  ¬ (∀ jsonString D (p : path) newValue,
       JSON_parse jsonString = Normal D → is_json newValue = true →
       (∀ n, n < List.length p - 1 → resolves_to_container D (take (S n) p)) →
       ∃ t, updateJsonAtPath jsonString (Some p) newValue = Normal (Some t)
            ∧ getFullNodeValue t (Some p) = Normal (JSON_stringify newValue)).
Proof.
  intros H.
  destruct (H ("{" +:+ q "a" +:+ ":[1]}") (VObj [("a", VArr [VNum "1"])])
              [Key "a"; Key "foo"] (VNum "2") eq_refl eq_refl) as (t & Hwrite & Hread).
  - intros n Hn. simpl in Hn. assert (n = 0) as -> by lia.
    by exists (VArr [VNum "1"]).
  - vm_compute in Hwrite. injection Hwrite as <-. vm_compute in Hread. discriminate.
Qed.

(** C5, amended: when the path is empty, or its intermediate segments lead
    to an array and the last segment is an array index, or they lead to an
    object and the last segment is not [__proto__], unless the object owns a
    property of that name, reading the path in the document that writing the
    value there produces gives exactly the value. *)
Theorem updateJsonAtPath_then_read (jsonString : string) (D : value) (p : path)
    (newValue : value) :
  JSON_parse jsonString = Normal D → is_json newValue = true → writable D p →
  ∃ t, updateJsonAtPath jsonString (Some p) newValue = Normal (Some t)
       ∧ getFullNodeValue t (Some p) = Normal (JSON_stringify newValue).
Proof.
  intros HD Hvalue Hwritable.
  destruct Hwritable as [| intermediate lastKey parent Hnav Hfits].
  - by apply (write_read_root jsonString D).
  - by apply (write_read_member jsonString D intermediate lastKey newValue parent).
Qed.

Lemma updateJsonAtPath_then_read_witness :
  ∃ t, updateJsonAtPath ("{" +:+ q "a" +:+ ":[1,2]}") (Some [Key "a"; Index 1]) (VNum "99")
       = Normal (Some t)
       ∧ getFullNodeValue t (Some [Key "a"; Index 1]) = Normal (JSON_stringify (VNum "99")).
Proof.
  apply (updateJsonAtPath_then_read _ (VObj [("a", VArr [VNum "1"; VNum "2"])])).
  - reflexivity.
  - reflexivity.
  - apply (writable_member _ [Key "a"] (Index 1) (VArr [VNum "1"; VNum "2"])).
    + reflexivity.
    + by exists 1%N.
Defined.

(** C3, as it is stated, fails for the same paths: saving a text that is not
    JSON at a string segment of an array raises no error, and does not
    store the text either. *)
Lemma handleSave_named_member_of_array :
  ¬ (∀ st T D (p : path),
       editValue st = Some T → JSON_parse T = Throw SyntaxError →
       selected_path st = Some p → JSON_parse (json st) = Normal D →
       (∀ n, n < List.length p - 1 → resolves_to_container D (take (S n) p)) →
       ∃ st', handleSave st = Normal st'
              ∧ getFullNodeValue (json st') (Some p) = Normal (JSON_stringify (VStr T))).
Proof.
  intros H.
  destruct (H {| json := "{" +:+ q "a" +:+ ":[1]}";
                 selectedNode := Some {| text := []; node_path := Some [Key "a"; Key "foo"] |};
                 isEditing := true; editValue := Some "not json"; toasts := [] |}
              "not json" (VObj [("a", VArr [VNum "1"])]) [Key "a"; Key "foo"]
              eq_refl eq_refl eq_refl eq_refl) as (st' & Hsave & Hread).
  - intros n Hn. simpl in Hn. assert (n = 0) as -> by lia.
    by exists (VArr [VNum "1"]).
  - vm_compute in Hsave. injection Hsave as <-. vm_compute in Hread. discriminate.
Qed.

(** C3, amended: when the buffer is not JSON (it is outside the grammar,
    which is when [JSON.parse] throws) and the selected path is empty or
    ends, after intermediate segments that lead there, on an index of an
    array or on a property of an object (under a name other than
    [__proto__], unless the object owns a property of that name), saving
    raises no error: it stores the text of the buffer as a string at the
    path in the document of the store, shows the string in the buffer,
    reports the success and leaves edit mode. *)
Theorem handleSave_unparsable (st : state) (T : string) (D : value) (p : path) :
  editValue st = Some T → well_formed T = false →
  selected_path st = Some p → JSON_parse (json st) = Normal D → writable D p →
  ∃ t,
    handleSave st
    = Normal {| json := t; selectedNode := selectedNode st; isEditing := false;
                editValue := Some (quote T);
                toasts := toasts st ++ [toast_success "Node updated successfully!"] |}
    ∧ getFullNodeValue t (Some p) = Normal (Some (quote T)).
Proof.
  intros Hbuffer HT%JSON_parse_not_json Hpath HD Hwritable.
  assert (∃ t, updateJsonAtPath (json st) (Some p) (VStr T) = Normal (Some t)
               ∧ getFullNodeValue t (Some p) = Normal (JSON_stringify (VStr T)))
    as (t & Hwrite & Hread).
  { destruct Hwritable as [| intermediate lastKey parent Hnav Hfits].
    - by apply (write_read_root (json st) D).
    - by apply (write_read_member (json st) D intermediate lastKey (VStr T) parent). }
  exists t. split; [| done].
  unfold handleSave, getJson. rewrite Hbuffer, Hpath. simpl buffer_text. rewrite HT.
  simpl. by rewrite Hwrite.
Qed.

Lemma handleSave_unparsable_witness :
  ∃ t,
    handleSave {| json := "{" +:+ q "a" +:+ ":1}";
                  selectedNode := Some {| text := []; node_path := Some [Key "a"] |};
                  isEditing := true; editValue := Some "not json"; toasts := [] |}
    = Normal {| json := t;
                selectedNode := Some {| text := []; node_path := Some [Key "a"] |};
                isEditing := false; editValue := Some (quote "not json");
                toasts := [toast_success "Node updated successfully!"] |}
    ∧ getFullNodeValue t (Some [Key "a"]) = Normal (Some (quote "not json")).
Proof.
  apply (handleSave_unparsable
           {| json := "{" +:+ q "a" +:+ ":1}";
              selectedNode := Some {| text := []; node_path := Some [Key "a"] |};
              isEditing := true; editValue := Some "not json"; toasts := [] |}
           "not json" (VObj [("a", VNum "1")]) [Key "a"]).
  - reflexivity.
  - reflexivity.
  - reflexivity.
  - reflexivity.
  - apply (writable_member _ [] (Key "a") (VObj [("a", VNum "1")])); [reflexivity | by left].
Defined.

(** C10: when the intermediate segments lead to an array and the last
    segment is an array index at or past the length of the array, writing
    succeeds: in the document produced the array is the old one, followed
    by [null] at the positions skipped, followed by the value, which is what
    the index holds. *)
Theorem updateJsonAtPath_extends_array (jsonString : string) (D : value)
    (intermediate : path) (i : N) (newValue : value) (elems : list value) :
  JSON_parse jsonString = Normal D → is_json newValue = true →
  navigate D intermediate = Normal (VArr elems) →
  (List.length elems ≤ N.to_nat i)%nat → (i < max_array_index)%N →
  ∃ t,
    updateJsonAtPath jsonString (Some (intermediate ++ [Index i])) newValue = Normal (Some t)
    ∧ getFullNodeValue t (Some intermediate)
      = Normal (JSON_stringify
                  (VArr (elems ++ replicate (N.to_nat i - List.length elems) VNull
                               ++ [newValue])))
    ∧ getFullNodeValue t (Some (intermediate ++ [Index i]))
      = Normal (JSON_stringify newValue).
Proof.
  intros HD Hvalue Hnav Hlength Hindex.
  assert (fits (VArr elems) (Index i)) as Hfits.
  { simpl. rewrite array_index_pretty by done. by eexists. }
  destruct (updateJsonAtPath_member jsonString D intermediate (Index i) newValue
              (VArr elems) HD Hvalue Hnav Hfits)
    as (D' & parent' & t & Hset & Hnav' & HD' & Ht & Hwrite & Hparse).
  exists t. split_and!; [done | |].
  - rewrite (getFullNodeValue_navigate t (normalize D') _ Hparse).
    simpl in Hset. rewrite array_index_pretty in Hset by done. injection Hset as <-.
    rewrite (navigate_normalize D' _ _ Hnav') by done. do 2 f_equal.
    unfold write_element. rewrite decide_False by lia.
    assert (is_json (VArr elems) = true) as Helems.
    { eapply navigate_json; [| exact Hnav | done]. by eapply JSON_parse_json. }
    apply normalize_json in Helems. simpl in Helems. injection Helems as Helems.
    simpl. rewrite !map_app, Helems.
    change (map normalize [newValue]) with [normalize newValue].
    rewrite normalize_json by done. do 3 f_equal.
    generalize (N.to_nat i - List.length elems)%nat. intros n.
    induction n as [|n IH]; [done |]. simpl. by rewrite IH.
  - destruct (write_read_member jsonString D intermediate (Index i) newValue (VArr elems)
                HD Hvalue Hnav Hfits) as (t' & Hwrite' & Hread').
    assert (t' = t) as -> by congruence. done.
Qed.

Lemma updateJsonAtPath_extends_array_witness :
  ∃ t,
    updateJsonAtPath ("{" +:+ q "a" +:+ ":[1,2]}") (Some ([Key "a"] ++ [Index 4])) (VStr "x")
    = Normal (Some t)
    ∧ getFullNodeValue t (Some [Key "a"])
      = Normal (JSON_stringify
                  (VArr ([VNum "1"; VNum "2"]
                         ++ replicate (N.to_nat 4 - List.length [VNum "1"; VNum "2"]) VNull
                         ++ [VStr "x"])))
    ∧ getFullNodeValue t (Some ([Key "a"] ++ [Index 4])) = Normal (JSON_stringify (VStr "x")).
Proof.
  apply (updateJsonAtPath_extends_array _ (VObj [("a", VArr [VNum "1"; VNum "2"])])).
  - reflexivity.
  - reflexivity.
  - reflexivity.
  - simpl. lia.
  - reflexivity.
Defined.

Example updateJsonAtPath_extends_array_text :
  updateJsonAtPath "[1]" (Some [Index 3]) (VBool true)
  = Normal (Some ("[" +:+ LF +:+ "  1," +:+ LF +:+ "  null," +:+ LF +:+ "  null," +:+ LF
                  +:+ "  true" +:+ LF +:+ "]")).
Proof. reflexivity. Qed.

(** * Further properties of the module *)

(** ** Reading: what is shown and when *)

Lemma holds_navigate D (p : path) v : holds D p v → navigate D p = Normal v.
Proof.
  intros [| intermediate lastKey parent v' Hnav _ Hget _]; [done |].
  rewrite navigate_app, Hnav. simpl. by rewrite Hget.
Qed.

Lemma holds_defined D (p : path) v : D ≠ VUndefined → holds D p v → v ≠ VUndefined.
Proof. by intros HD [|]. Qed.

Lemma get_fits_json holes parent lastKey v :
  json_like holes parent = true → fits parent lastKey →
  get parent (property_key lastKey) = Normal v → v ≠ VUndefined →
  json_like holes v = true.
Proof.
  intros Hjson Hfits Hget Hv. apply get_Normal in Hget as [Hown | [_ ->]]; [| done].
  destruct parent as [| | | | |elems|props]; try done.
  - destruct Hfits as [i Hi]. simpl in Hown. rewrite Hi in Hown.
    rewrite bool_decide_eq_false_2 in Hown by by eapply array_index_not_length.
    simpl in Hown, Hjson.
    apply (forallb_lookup _ _ _ _ Hjson) in Hown. by destruct v.
  - simpl in Hown, Hjson. apply andb_prop in Hjson as [_ Hjson].
    by apply (lookup_prop_forallb _ _ _ _ Hjson Hown).
Qed.

Lemma holds_json D (p : path) v : is_json D = true → holds D p v → is_json v = true.
Proof.
  intros HD [| intermediate lastKey parent v' Hnav Hfits Hget Hv]; [done |].
  apply (get_fits_json false parent lastKey); try done.
  apply (navigate_json false D intermediate); [done.. |]. by destruct parent.
Qed.

Lemma holds_read jsonString D (p : path) v :
  JSON_parse jsonString = Normal D → holds D p v →
  ∃ t, JSON_stringify v = Some t
       ∧ getFullNodeValue jsonString (Some p) = Normal (Some t)
       ∧ JSON_parse t = Normal v.
Proof.
  intros HD Hholds. pose proof (JSON_parse_json _ _ HD) as Hjson.
  pose proof (holds_json D p v Hjson Hholds) as Hv.
  destruct (is_json_stringify v Hv) as [t Ht]. exists t. split; [done |]. split.
  - by rewrite (getFullNodeValue_navigate _ _ _ HD), (holds_navigate _ _ _ Hholds), Ht.
  - rewrite (JSON_parse_stringify false v t Hv Ht). by rewrite normalize_json.
Qed.

(** X1: Reading never raises: whatever the document text and the path,
    [getFullNodeValue] does not throw, and on a document text that is not
    JSON it returns the text of the empty object for every path. *)
Theorem getFullNodeValue_never_throws (jsonString : string) (path : option path) :
  (∀ e, getFullNodeValue jsonString path ≠ Throw e)
  ∧ (∀ e, JSON_parse jsonString = Throw e →
          getFullNodeValue jsonString path = Normal (Some "{}")).
Proof.
  unfold getFullNodeValue. split.
  - intros e. destruct (JSON_parse jsonString) as [D| |]; try done.
    rewrite bind_Normal. destruct path as [[|seg rest]|]; try done.
    by destruct (navigate D (seg :: rest)).
  - by intros e ->.
Qed.

Lemma getFullNodeValue_never_throws_witness :
  getFullNodeValue "not json" (Some [Key "a"]) = Normal (Some "{}").
Proof.
  apply (proj2 (getFullNodeValue_never_throws "not json" (Some [Key "a"])) SyntaxError).
  reflexivity.
Defined.

(** X2: With no path or an empty path, [getFullNodeValue] returns the whole
    document in the layout of [JSON.stringify(_, null, 2)], and that layout
    is a fixed point: reading the text it returned returns the same text. *)
Theorem getFullNodeValue_root_fixpoint (jsonString : string) (D : value) :
  JSON_parse jsonString = Normal D →
  ∃ t, JSON_stringify D = Some t
       ∧ getFullNodeValue jsonString None = Normal (Some t)
       ∧ getFullNodeValue jsonString (Some []) = Normal (Some t)
       ∧ getFullNodeValue t None = Normal (Some t)
       ∧ getFullNodeValue t (Some []) = Normal (Some t).
Proof.
  intros HD. pose proof (JSON_parse_json _ _ HD) as Hjson.
  destruct (is_json_stringify D Hjson) as [t Ht]. exists t.
  pose proof (JSON_parse_stringify false D t Hjson Ht) as Hback.
  rewrite (normalize_json D Hjson) in Hback.
  unfold getFullNodeValue. rewrite HD, Hback, !bind_Normal, Ht. done.
Qed.

Lemma getFullNodeValue_root_fixpoint_witness :
  ∃ t, JSON_stringify (VArr [VNum "1"; VNum "2"]) = Some t
       ∧ getFullNodeValue "[1,2]" None = Normal (Some t)
       ∧ getFullNodeValue "[1,2]" (Some []) = Normal (Some t)
       ∧ getFullNodeValue t None = Normal (Some t)
       ∧ getFullNodeValue t (Some []) = Normal (Some t).
Proof. apply (getFullNodeValue_root_fixpoint "[1,2]"). reflexivity. Defined.

(** X3: A path that goes on below a member that is [null], or below a place
    that is missing or [undefined] and is named by segments none of which
    is a member of a built-in prototype, shows the text of the empty object:
    the read of the next segment throws and the [catch] returns the
    fallback. *)
Theorem getFullNodeValue_missing_intermediate (jsonString : string) (D : value)
    (p : path) (seg : segment) (rest : path) :
  JSON_parse jsonString = Normal D →
  (resolve D p = None ∧ forallb ordinary p = true) ∨ resolve D p = Some VNull →
  getFullNodeValue jsonString (Some (p ++ seg :: rest)) = Normal (Some "{}").
Proof.
  intros HD Hp. rewrite (getFullNodeValue_navigate _ _ _ HD), navigate_app.
  destruct Hp as [[Hp Hord] | Hp].
  - by destruct (navigate_resolve_None _ _ Hp Hord) as [-> | ->].
  - by rewrite (navigate_resolve_Some _ _ _ Hp).
Qed.

Lemma getFullNodeValue_missing_intermediate_witness :
  getFullNodeValue ("{" +:+ q "a" +:+ ":null}") (Some ([Key "a"] ++ Key "b" :: []))
  = Normal (Some "{}").
Proof.
  apply (getFullNodeValue_missing_intermediate _ (VObj [("a", VNull)])).
  - reflexivity.
  - right. reflexivity.
Defined.

(** X4: When only the last segment of a path is missing (its parent is
    reached, is not [null] and does not own the member, or owns it as a
    hole) and the segment does not name a member of a built-in prototype,
    nothing throws and [getFullNodeValue] returns [undefined], not the
    fallback text. *)
Theorem getFullNodeValue_missing_last (jsonString : string) (D : value)
    (p : path) (parent : value) (seg : segment) :
  JSON_parse jsonString = Normal D →
  resolve D p = Some parent → parent ≠ VNull →
  member parent (property_key seg) = None → ordinary seg = true →
  getFullNodeValue jsonString (Some (p ++ [seg])) = Normal None.
Proof.
  intros HD Hp Hnull Hmember Hseg.
  pose proof (resolve_defined D p parent (JSON_parse_defined _ _ HD) Hp) as Hdefined.
  rewrite (getFullNodeValue_navigate _ _ _ HD), navigate_app.
  rewrite (navigate_resolve_Some _ _ _ Hp), bind_Normal.
  apply negb_true_iff in Hseg.
  unfold member in Hmember. unfold navigate. rewrite (get_ordinary _ _ Hseg).
  destruct parent; try done;
    by destruct (own _ (property_key seg)) as [[]|].
Qed.

Lemma getFullNodeValue_missing_last_witness :
  getFullNodeValue ("{" +:+ q "a" +:+ ":[1]}") (Some ([Key "a"] ++ [Index 5])) = Normal None.
Proof.
  apply (getFullNodeValue_missing_last _ (VObj [("a", VArr [VNum "1"])]) _ (VArr [VNum "1"])).
  - reflexivity.
  - reflexivity.
  - discriminate.
  - reflexivity.
  - reflexivity.
Defined.

(** X5: The text shown for a stored member is JSON that reads back to that
    member: for the root, and for a property of an object or an element of
    an array that is not [undefined], [getFullNodeValue] returns a text and
    [JSON.parse] of that text is the value at the path. *)
Theorem getFullNodeValue_parses_back (jsonString : string) (D : value) (p : path) (v : value) :
  JSON_parse jsonString = Normal D → holds D p v →
  ∃ t, getFullNodeValue jsonString (Some p) = Normal (Some t) ∧ JSON_parse t = Normal v.
Proof.
  intros HD Hholds. destruct (holds_read _ _ _ _ HD Hholds) as (t & _ & Hread & Hback).
  by exists t.
Qed.

Lemma getFullNodeValue_parses_back_witness :
  ∃ t, getFullNodeValue ("{" +:+ q "a" +:+ ":[1,2]}") (Some ([Key "a"] ++ [Index 1]))
       = Normal (Some t)
       ∧ JSON_parse t = Normal (VNum "2").
Proof.
  apply (getFullNodeValue_parses_back _ (VObj [("a", VArr [VNum "1"; VNum "2"])])).
  - reflexivity.
  - apply (holds_member _ [Key "a"] (Index 1) (VArr [VNum "1"; VNum "2"])).
    + reflexivity.
    + simpl. by eexists.
    + reflexivity.
    + discriminate.
Defined.

(** ** Writing: what changes and what does not *)

Lemma set_same parent lastKey v :
  fits parent lastKey → get parent (property_key lastKey) = Normal v → v ≠ VUndefined →
  set parent (property_key lastKey) v = Normal parent.
Proof.
  intros Hfits Hget Hv. apply get_Normal in Hget as [Hown | [_ ->]]; [| done].
  destruct parent as [| | | | |elems|props]; try done.
  - destruct Hfits as [i Hi]. simpl in *. rewrite Hi in *.
    rewrite bool_decide_eq_false_2 in Hown by by eapply array_index_not_length.
    simpl in Hown. unfold write_element.
    rewrite decide_True by by eapply lookup_lt_Some. by rewrite list_insert_id.
  - simpl in *.
    destruct (bool_decide (property_key lastKey = "__proto__")
              && bool_decide (lookup_prop (property_key lastKey) props = None)); [done |].
    unfold define_prop. rewrite Hown. by rewrite replace_prop_id.
Qed.

Lemma updateJsonAtPath_Normal_inv jsonString D (p : path) newValue r :
  JSON_parse jsonString = Normal D →
  updateJsonAtPath jsonString (Some p) newValue = Normal r →
  (p = [] ∧ r = JSON_stringify newValue)
  ∨ ∃ intermediate lastKey D',
      p = intermediate ++ [lastKey]
      ∧ assign D intermediate lastKey newValue = Normal D'
      ∧ r = JSON_stringify D'.
Proof.
  intros HD. destruct p as [| lastKey intermediate _] using rev_ind.
  - unfold updateJsonAtPath. rewrite HD, bind_Normal. intros [= <-]. by left.
  - rewrite updateJsonAtPath_snoc, HD, bind_Normal. intros Hupdate. right.
    exists intermediate, lastKey.
    destruct (assign D intermediate lastKey newValue) as [D'| |]; try done.
    exists D'. by injection Hupdate as <-.
Qed.

Lemma get_put_child_other D k k' child' : k ≠ k' → get (put_child D k child') k' = get D k'.
Proof.
  intros Hk. destruct D as [| | | | |elems|props]; try done.
  - simpl. destruct (array_index k) as [i|] eqn:Hi; [| done]. simpl.
    rewrite length_insert. destruct (bool_decide (k' = "length")); [done |].
    destruct (array_index k') as [j|] eqn:Hj; [| done]. simpl.
    rewrite list_lookup_insert_ne; [done |].
    intros Hij. apply N2Nat.inj in Hij as ->. by destruct Hk; eapply array_index_inj.
  - simpl. rewrite lookup_replace_prop. by rewrite bool_decide_eq_false_2.
Qed.

Lemma write_element_other i j v elems :
  i ≠ j → default VUndefined (write_element i v elems !! j) = default VUndefined (elems !! j).
Proof.
  intros Hij. unfold write_element. destruct (decide (i < List.length elems)) as [Hi | Hi].
  - by rewrite list_lookup_insert_ne.
  - destruct (decide (j < List.length elems)) as [Hj | Hj].
    + by rewrite lookup_app_l.
    + rewrite lookup_app_r by lia. rewrite (lookup_ge_None_2 elems j) by lia. simpl.
      destruct (decide (j - List.length elems < i - List.length elems)) as [Hlt | Hge].
      * rewrite lookup_app_l by by rewrite length_replicate.
        by rewrite lookup_replicate_2.
      * rewrite lookup_ge_None_2; [done |].
        rewrite List.length_app, length_replicate. simpl. lia.
Qed.

Lemma get_set_other o k k' v o' :
  set o k v = Normal o' → k ≠ k' → k' ≠ "length" → get o' k' = get o k'.
Proof.
  intros Hset Hk Hlength. destruct o as [| | | | |elems|props]; try done.
  - simpl in Hset. destruct (bool_decide (k = "__proto__")); [by injection Hset as <- | done].
  - simpl in Hset. destruct (bool_decide (k = "__proto__")); [by injection Hset as <- | done].
  - simpl in Hset. destruct (bool_decide (k = "__proto__")); [by injection Hset as <- | done].
  - simpl in Hset. destruct (array_index k) as [i|] eqn:Hi.
    + injection Hset as <-. destruct (array_index k') as [j|] eqn:Hj.
      * rewrite !(get_ordinary _ k') by by eapply array_index_ordinary.
        simpl. rewrite Hj, bool_decide_eq_false_2 by done. simpl. f_equal.
        apply write_element_other.
        intros Hij. apply N2Nat.inj in Hij as ->. by destruct Hk; eapply array_index_inj.
      * unfold get. simpl. by rewrite Hj, bool_decide_eq_false_2 by done.
    + destruct (bool_decide (k = "length")); [done |]. by injection Hset as <-.
  - simpl in Hset.
    destruct (bool_decide (k = "__proto__") && bool_decide (lookup_prop k props = None));
      injection Hset as <-; [done |].
    unfold get. simpl. rewrite lookup_define_prop. by rewrite bool_decide_eq_false_2.
Qed.

Lemma assign_diverges D intermediate lastKey newValue D' (p' : path) :
  assign D intermediate lastKey newValue = Normal D' →
  diverges (intermediate ++ [lastKey]) p' →
  navigate D' p' = navigate D p'.
Proof.
  revert D D' p'. induction intermediate as [| seg rest IH]; intros D D' p' Hassign Hdiverges.
  - simpl in *.
    inversion Hdiverges as [s s' r r' Hne Hlength | s s' r r' Heq Hrest]; subst.
    + simpl. by rewrite (get_set_other _ _ _ _ _ Hassign).
    + inversion Hrest.
  - destruct (assign_cons _ _ _ _ _ _ Hassign)
      as (child & child' & Hget & Hchild & HD' & [Hc | [_ ->]]); [| done].
    subst D'.
    inversion Hdiverges as [s s' r r' Hne Hlength | s s' r r' Heq Hrest]; subst.
    + simpl. by rewrite get_put_child_other.
    + simpl. rewrite <- Heq.
      rewrite (get_put_child D _ child child' Hget Hc), Hget, !bind_Normal.
      by apply IH.
Qed.

Lemma navigate_normal_form D (p : path) v :
  is_json D = true → navigate D p = Normal v → v ≠ VUndefined → normalize v = v.
Proof.
  intros HD Hnav Hv. destruct (classic_container v) as [Hc | Hc].
  - apply normalize_json. by apply (navigate_json false D p).
  - by apply normalize_not_container.
Qed.

Lemma assign_not_resolving D intermediate lastKey newValue :
  ¬ resolves_to_container D intermediate →
  forallb ordinary (intermediate ++ [lastKey]) = true →
  assign D intermediate lastKey newValue = Throw TypeError.
Proof.
  revert D. induction intermediate as [| seg rest IH]; intros D Hno Hord.
  - apply assign_not_container; [| done]. intros Hc. apply Hno. by exists D.
  - simpl in Hord. apply andb_prop in Hord as [Hseg Hord]. apply negb_true_iff in Hseg.
    simpl. destruct (get D (property_key seg)) as [child| |] eqn:Hget.
    + rewrite bind_Normal, IH; [done | | done].
      intros (c & Hnav & Hc). apply Hno. exists c. simpl. by rewrite Hget.
    + rewrite get_ordinary in Hget by done. by destruct D.
    + by destruct (get_supported D (property_key seg)).
Qed.

Lemma assign_resolving D intermediate lastKey newValue :
  resolves_to_container D intermediate →
  ∀ e, assign D intermediate lastKey newValue ≠ Throw e.
Proof.
  revert D. induction intermediate as [| seg rest IH]; intros D (c & Hnav & Hc) e.
  - injection Hnav as ->. simpl. destruct c as [| | | | |elems|props]; try done; simpl.
    + destruct (array_index _); [done |]. by destruct (bool_decide _).
    + by destruct (_ && _).
  - simpl in *. apply bind_Normal_inv in Hnav as (child & Hget & Hnav).
    rewrite Hget, bind_Normal.
    assert (resolves_to_container child rest) as Hchild by by exists c.
    specialize (IH child Hchild).
    destruct (assign child rest lastKey newValue) as [child'| e' |]; [done | | done].
    simpl. intros [= <-]. by destruct (IH e').
Qed.

Lemma updateJsonAtPath_throws_own (jsonString : string) (path : option path)
    (newValue : value) (e : error) :
  updateJsonAtPath jsonString path newValue = Throw e →
  e = Error "Failed to update JSON at path".
Proof.
  unfold updateJsonAtPath. destruct (JSON_parse jsonString) as [D| e' |]; try done.
  - rewrite bind_Normal. destruct path as [[|seg rest]|]; try done.
    destruct (assign D _ _ newValue); try done.
    all: by intros [= <-].
  - by intros [= <-].
Qed.

(** X6: [updateJsonAtPath] reports every failure with one error, whose
    message is its own, and it fails on a document text that is not JSON
    whatever the path: also for the empty path, where the document is parsed
    and not used. *)
Theorem updateJsonAtPath_failure (jsonString : string) (path : option path)
    (newValue : value) :
  (∀ e, updateJsonAtPath jsonString path newValue = Throw e →
        e = Error "Failed to update JSON at path")
  ∧ (∀ e, JSON_parse jsonString = Throw e →
          updateJsonAtPath jsonString path newValue
          = Throw (Error "Failed to update JSON at path")).
Proof.
  split.
  - apply updateJsonAtPath_throws_own.
  - unfold updateJsonAtPath. by intros e ->.
Qed.

Lemma updateJsonAtPath_failure_witness :
  updateJsonAtPath "not json" (Some []) (VNum "1")
  = Throw (Error "Failed to update JSON at path").
Proof.
  apply (proj2 (updateJsonAtPath_failure "not json" (Some []) (VNum "1")) SyntaxError).
  reflexivity.
Defined.

(** X7: On a parsed document, [updateJsonAtPath] with a path that is not
    empty, has no segment that names a member of a built-in prototype and
    does not end on a length throws exactly when the segments before the
    last do not lead to an object or an array: the loop reads through
    [null] or [undefined], or the assignment meets a primitive. *)
Theorem updateJsonAtPath_throws_iff (jsonString : string) (D : value)
    (intermediate : path) (lastKey : segment) (newValue : value) :
  JSON_parse jsonString = Normal D → property_key lastKey ≠ "length" →
  forallb ordinary (intermediate ++ [lastKey]) = true →
  updateJsonAtPath jsonString (Some (intermediate ++ [lastKey])) newValue
  = Throw (Error "Failed to update JSON at path")
  ↔ ¬ resolves_to_container D intermediate.
Proof.
  intros HD _ Hord. rewrite updateJsonAtPath_snoc, HD, bind_Normal. split.
  - intros Hthrow Hresolves.
    pose proof (assign_resolving D intermediate lastKey newValue Hresolves) as Hno.
    destruct (assign D intermediate lastKey newValue) as [D'| e |]; try done.
    by destruct (Hno e).
  - intros Hno. by rewrite assign_not_resolving.
Qed.

Lemma updateJsonAtPath_throws_iff_witness :
  updateJsonAtPath ("{" +:+ q "a" +:+ ":1}") (Some ([Key "a"] ++ [Key "b"])) VNull
  = Throw (Error "Failed to update JSON at path")
  ↔ ¬ resolves_to_container (VObj [("a", VNum "1")]) [Key "a"].
Proof. apply updateJsonAtPath_throws_iff; [reflexivity | discriminate | reflexivity]. Defined.

(** X8: Saving what is shown changes nothing but the layout: when the
    buffer still holds the text read at a stored member, [updateJsonAtPath]
    writes back the value that is there and returns the document as
    [JSON.stringify] prints it, and [handleSave] stores that text, keeps the
    buffer, reports the success and leaves edit mode. *)
Theorem handleSave_unchanged (st : state) (D : value) (p : path) (v : value) :
  selected_path st = Some p → JSON_parse (json st) = Normal D → holds D p v →
  getFullNodeValue (json st) (Some p) = Normal (editValue st) →
  ∃ t, JSON_stringify D = Some t
       ∧ updateJsonAtPath (json st) (Some p) v = Normal (Some t)
       ∧ handleSave st
         = Normal {| json := t; selectedNode := selectedNode st; isEditing := false;
                     editValue := editValue st;
                     toasts := toasts st ++ [toast_success "Node updated successfully!"] |}.
Proof.
  intros Hpath HD Hholds Hbuffer.
  destruct (is_json_stringify D (JSON_parse_json _ _ HD)) as [t Ht]. exists t.
  split; [done |].
  destruct (holds_read _ _ _ _ HD Hholds) as (b & Hb & Hread & Hback).
  rewrite Hread in Hbuffer. injection Hbuffer as Hbuffer.
  assert (updateJsonAtPath (json st) (Some p) v = Normal (Some t)) as Hupdate.
  { destruct Hholds as [| intermediate lastKey parent v Hnav Hfits Hget Hv].
    - unfold updateJsonAtPath. by rewrite HD, bind_Normal, Ht.
    - rewrite updateJsonAtPath_snoc, HD, bind_Normal.
      rewrite (assign_id D intermediate lastKey v parent Hnav), bind_Normal, Ht; [done |].
      by apply set_same. }
  split; [done |].
  unfold handleSave, getJson. rewrite <- Hbuffer, Hpath. simpl buffer_text. rewrite Hback.
  simpl. by rewrite Hupdate, Hb.
Qed.

Lemma handleSave_unchanged_witness :
  ∃ t, JSON_stringify (VObj [("a", VNum "1")]) = Some t
       ∧ updateJsonAtPath ("{" +:+ q "a" +:+ ":1}") (Some ([] ++ [Key "a"])) (VNum "1")
         = Normal (Some t)
       ∧ handleSave {| json := "{" +:+ q "a" +:+ ":1}";
                       selectedNode := Some {| text := []; node_path := Some ([] ++ [Key "a"]) |};
                       isEditing := true; editValue := Some "1"; toasts := [] |}
         = Normal {| json := t;
                     selectedNode := Some {| text := []; node_path := Some ([] ++ [Key "a"]) |};
                     isEditing := false; editValue := Some "1";
                     toasts := [toast_success "Node updated successfully!"] |}.
Proof.
  apply (handleSave_unchanged
           {| json := "{" +:+ q "a" +:+ ":1}";
              selectedNode := Some {| text := []; node_path := Some ([] ++ [Key "a"]) |};
              isEditing := true; editValue := Some "1"; toasts := [] |}
           (VObj [("a", VNum "1")]) ([] ++ [Key "a"]) (VNum "1")).
  - reflexivity.
  - reflexivity.
  - apply (holds_member _ [] (Key "a") (VObj [("a", VNum "1")])).
    + reflexivity.
    + by left.
    + reflexivity.
    + discriminate.
  - reflexivity.
Defined.

(** X9: A write at a name of an array that is neither an index nor
    [length] nor a member of a built-in prototype is lost without an error:
    [updateJsonAtPath] returns the document as it was, in the layout of
    [JSON.stringify], and the path reads as [undefined] in it. *)
Theorem updateJsonAtPath_named_member_lost (jsonString : string) (D : value)
    (intermediate : path) (lastKey : segment) (newValue : value) (elems : list value) :
  JSON_parse jsonString = Normal D →
  navigate D intermediate = Normal (VArr elems) →
  array_index (property_key lastKey) = None → property_key lastKey ≠ "length" →
  ordinary lastKey = true →
  ∃ t, JSON_stringify D = Some t
       ∧ updateJsonAtPath jsonString (Some (intermediate ++ [lastKey])) newValue
         = Normal (Some t)
       ∧ getFullNodeValue t (Some (intermediate ++ [lastKey])) = Normal None.
Proof.
  intros HD Hnav Hindex Hlength Hord. pose proof (JSON_parse_json _ _ HD) as Hjson.
  apply negb_true_iff in Hord.
  destruct (is_json_stringify D Hjson) as [t Ht]. exists t. split; [done |]. split.
  - rewrite updateJsonAtPath_snoc, HD, bind_Normal.
    rewrite (assign_id D intermediate lastKey newValue (VArr elems) Hnav), bind_Normal, Ht;
      [done |].
    simpl. by rewrite Hindex, bool_decide_eq_false_2.
  - pose proof (JSON_parse_stringify false D t Hjson Ht) as Hback.
    rewrite (normalize_json D Hjson) in Hback.
    rewrite (getFullNodeValue_navigate _ _ _ Hback), navigate_app, Hnav, bind_Normal.
    cbn [navigate]. rewrite (get_ordinary _ _ Hord). simpl.
    by rewrite Hindex, bool_decide_eq_false_2.
Qed.

Lemma updateJsonAtPath_named_member_lost_witness :
  ∃ t, JSON_stringify (VObj [("a", VArr [VNum "1"])]) = Some t
       ∧ updateJsonAtPath ("{" +:+ q "a" +:+ ":[1]}") (Some ([Key "a"] ++ [Key "foo"])) (VNum "2")
         = Normal (Some t)
       ∧ getFullNodeValue t (Some ([Key "a"] ++ [Key "foo"])) = Normal None.
Proof.
  apply (updateJsonAtPath_named_member_lost _ _ [Key "a"] (Key "foo") _ [VNum "1"]).
  - reflexivity.
  - reflexivity.
  - reflexivity.
  - discriminate.
  - reflexivity.
Defined.

(** X10: A write that does not end on a length leaves the rest of the
    document as it was: at a path that diverges from the written one (after
    segments naming the same members it names another member, not a length)
    and that leads to a value stored in the document, what was read before
    the write is read after it. *)
Theorem updateJsonAtPath_frame (jsonString : string) (D : value)
    (intermediate : path) (lastKey : segment)
    (newValue : value) (t : string) (p' : path) (v : value) :
  JSON_parse jsonString = Normal D → is_json newValue = true →
  property_key lastKey ≠ "length" →
  updateJsonAtPath jsonString (Some (intermediate ++ [lastKey])) newValue = Normal (Some t) →
  diverges (intermediate ++ [lastKey]) p' → resolve D p' = Some v →
  getFullNodeValue t (Some p') = getFullNodeValue jsonString (Some p').
Proof.
  intros HD HV _ Hupdate Hdiverges Hv. pose proof (JSON_parse_json _ _ HD) as Hjson.
  rewrite updateJsonAtPath_snoc, HD, bind_Normal in Hupdate.
  destruct (assign D intermediate lastKey newValue) as [D'| |] eqn:Hassign; try done.
  injection Hupdate as Ht.
  assert (json_like true D' = true) as HD'.
  { apply (assign_json D intermediate lastKey newValue); [| | done]; by apply json_like_holes. }
  pose proof (JSON_parse_stringify true D' t HD' Ht) as Hback.
  pose proof (navigate_resolve_Some _ _ _ Hv) as Hnav.
  pose proof (resolve_defined D p' v (JSON_parse_defined _ _ HD) Hv) as Hdefined.
  pose proof (assign_diverges _ _ _ _ _ _ Hassign Hdiverges) as Hsame. rewrite Hnav in Hsame.
  rewrite (getFullNodeValue_navigate _ _ _ HD), (getFullNodeValue_navigate _ _ _ Hback).
  rewrite (navigate_normalize D' p' v Hsame Hdefined), Hnav.
  by rewrite (navigate_normal_form D p' v Hjson Hnav Hdefined).
Qed.

Lemma updateJsonAtPath_frame_witness :
  getFullNodeValue
    ("{" +:+ LF +:+ "  " +:+ q "a" +:+ ": 3," +:+ LF +:+ "  " +:+ q "b" +:+ ": 2" +:+ LF +:+ "}")
    (Some [Key "b"])
  = getFullNodeValue ("{" +:+ q "a" +:+ ":1," +:+ q "b" +:+ ":2}") (Some [Key "b"]).
Proof.
  apply (updateJsonAtPath_frame _ (VObj [("a", VNum "1"); ("b", VNum "2")]) [] (Key "a")
           (VNum "3") _ [Key "b"] (VNum "2")).
  - reflexivity.
  - reflexivity.
  - discriminate.
  - reflexivity.
  - by apply diverges_here.
  - reflexivity.
Defined.

Lemma length_write_element i v elems :
  List.length (write_element i v elems) = Nat.max (List.length elems) (S i).
Proof.
  unfold write_element. destruct (decide (i < List.length elems)).
  - rewrite length_insert. lia.
  - rewrite !List.length_app, length_replicate. simpl. lia.
Qed.

(** X11: After a write at index [i] of an array of [n] elements, the length
    of the array reads as the larger of [n] and [i + 1]: a write inside the
    array keeps its length, a write past its end extends it up to the
    index. *)
Theorem updateJsonAtPath_array_length (jsonString : string) (D : value)
    (intermediate : path) (i : N) (newValue : value) (elems : list value) :
  JSON_parse jsonString = Normal D → is_json newValue = true →
  navigate D intermediate = Normal (VArr elems) → (i < max_array_index)%N →
  ∃ t,
    updateJsonAtPath jsonString (Some (intermediate ++ [Index i])) newValue = Normal (Some t)
    ∧ getFullNodeValue t (Some (intermediate ++ [Key "length"]))
      = Normal (Some (pretty (N.of_nat (Nat.max (List.length elems) (S (N.to_nat i)))))).
Proof.
  intros HD HV Hnav Hi. pose proof (array_index_pretty i Hi) as Hindex.
  destruct (updateJsonAtPath_member jsonString D intermediate (Index i) newValue (VArr elems))
    as (D' & parent' & t & Hset & Hnav' & HD' & Ht & Hupdate & Hback); try done.
  { simpl. by rewrite Hindex. }
  exists t. split; [done |].
  simpl in Hset. rewrite Hindex in Hset. injection Hset as <-.
  rewrite (getFullNodeValue_navigate _ _ _ Hback), navigate_app.
  rewrite (navigate_normalize D' intermediate _ Hnav'); [| done].
  rewrite bind_Normal. simpl. rewrite length_map, length_write_element.
  unfold number_of_nat, JSON_stringify. simpl.
  pose proof (finite_integer_text false
                (N.of_nat (Nat.max (List.length elems) (S (N.to_nat i))))) as Hfinite.
  unfold integer_text in Hfinite. simpl in Hfinite. by rewrite Hfinite.
Qed.

Lemma updateJsonAtPath_array_length_witness :
  ∃ t,
    updateJsonAtPath "[1,2]" (Some ([] ++ [Index 4])) VNull = Normal (Some t)
    ∧ getFullNodeValue t (Some ([] ++ [Key "length"]))
      = Normal (Some (pretty (N.of_nat (Nat.max (List.length [VNum "1"; VNum "2"])
                                                 (S (N.to_nat 4)))))).
Proof.
  apply (updateJsonAtPath_array_length _ (VArr [VNum "1"; VNum "2"])).
  - reflexivity.
  - reflexivity.
  - reflexivity.
  - reflexivity.
Defined.

(** ** The handlers *)

Lemma write_read jsonString D (p : path) newValue :
  JSON_parse jsonString = Normal D → is_json newValue = true → writable D p →
  ∃ t, updateJsonAtPath jsonString (Some p) newValue = Normal (Some t)
       ∧ getFullNodeValue t (Some p) = Normal (JSON_stringify newValue).
Proof.
  intros HD HV [| intermediate lastKey parent Hnav Hfits].
  - by apply (write_read_root jsonString D).
  - by apply (write_read_member jsonString D intermediate lastKey newValue parent).
Qed.

Lemma handleSave_stores (st : state) (D : value) (p : path) (newValue : value) :
  try_catch (JSON_parse (buffer_text (editValue st)))
            (λ _, Normal (buffer_value (editValue st))) = Normal newValue →
  is_json newValue = true →
  selected_path st = Some p → JSON_parse (json st) = Normal D → writable D p →
  ∃ t b,
    JSON_stringify newValue = Some b
    ∧ handleSave st
      = Normal {| json := t; selectedNode := selectedNode st; isEditing := false;
                  editValue := Some b;
                  toasts := toasts st ++ [toast_success "Node updated successfully!"] |}
    ∧ getFullNodeValue t (Some p) = Normal (Some b).
Proof.
  intros Hbuffer HV Hpath HD Hwritable.
  destruct (write_read (json st) D p newValue HD HV Hwritable) as (t & Hwrite & Hread).
  destruct (is_json_stringify newValue HV) as [b Hb]. exists t, b.
  split; [done |]. rewrite Hb in Hread. split; [| done].
  unfold handleSave, getJson. rewrite Hbuffer, Hpath, bind_Normal, Hwrite. simpl.
  by rewrite Hb.
Qed.

(** X12: When the buffer is JSON, saving stores the value it denotes, not
    its text: at a writable place (the root, an index of an array, or a
    property of an object under a name other than a [__proto__] that the
    object does not own) the member read back from the stored document is
    that value, the buffer becomes its layout by
    [JSON.stringify], the success is reported and edit mode is left. *)
Theorem handleSave_parsed (st : state) (T : string) (V D : value) (p : path) :
  editValue st = Some T → JSON_parse T = Normal V →
  selected_path st = Some p → JSON_parse (json st) = Normal D → writable D p →
  ∃ t b,
    JSON_stringify V = Some b
    ∧ handleSave st
      = Normal {| json := t; selectedNode := selectedNode st; isEditing := false;
                  editValue := Some b;
                  toasts := toasts st ++ [toast_success "Node updated successfully!"] |}
    ∧ getFullNodeValue t (Some p) = Normal (Some b)
    ∧ JSON_parse b = Normal V.
Proof.
  intros Hbuffer HT Hpath HD Hwritable. pose proof (JSON_parse_json _ _ HT) as HV.
  destruct (handleSave_stores st D p V) as (t & b & Hb & Hsave & Hread); try done.
  { by rewrite Hbuffer; simpl; rewrite HT. }
  exists t, b. repeat (split; [done |]).
  rewrite (JSON_parse_stringify false V b HV Hb). by rewrite normalize_json.
Qed.

Lemma handleSave_parsed_witness :
  ∃ t b,
    JSON_stringify (VArr [VNum "1"]) = Some b
    ∧ handleSave {| json := "{" +:+ q "a" +:+ ":1}";
                    selectedNode := Some {| text := []; node_path := Some ([] ++ [Key "a"]) |};
                    isEditing := true; editValue := Some "[1]"; toasts := [] |}
      = Normal {| json := t;
                  selectedNode := Some {| text := []; node_path := Some ([] ++ [Key "a"]) |};
                  isEditing := false; editValue := Some b;
                  toasts := [toast_success "Node updated successfully!"] |}
    ∧ getFullNodeValue t (Some ([] ++ [Key "a"])) = Normal (Some b)
    ∧ JSON_parse b = Normal (VArr [VNum "1"]).
Proof.
  apply (handleSave_parsed
           {| json := "{" +:+ q "a" +:+ ":1}";
              selectedNode := Some {| text := []; node_path := Some ([] ++ [Key "a"]) |};
              isEditing := true; editValue := Some "[1]"; toasts := [] |}
           "[1]" (VArr [VNum "1"]) (VObj [("a", VNum "1")]) ([] ++ [Key "a"])).
  - reflexivity.
  - reflexivity.
  - reflexivity.
  - reflexivity.
  - apply (writable_member _ [] (Key "a") (VObj [("a", VNum "1")])); [reflexivity | by left].
Defined.

(** X13: A save is all or nothing and never raises: [handleSave] does not
    throw, and when it returns it has either stored a document, set the
    buffer, left edit mode and reported the success, or changed nothing but
    the notifications, to which it has added the error of
    [updateJsonAtPath]. *)
Theorem handleSave_all_or_nothing (st : state) :
  (∀ e, handleSave st ≠ Throw e)
  ∧ (∀ st', handleSave st = Normal st' →
       (∃ t b,
          st' = {| json := t; selectedNode := selectedNode st; isEditing := false;
                   editValue := b;
                   toasts := toasts st ++ [toast_success "Node updated successfully!"] |})
       ∨ st' = {| json := json st; selectedNode := selectedNode st;
                  isEditing := isEditing st; editValue := editValue st;
                  toasts := toasts st ++ [toast_error "Failed to update JSON at path"] |}).
Proof.
  unfold handleSave, getJson.
  destruct (try_catch (JSON_parse (buffer_text (editValue st))) _) as [newValue| e0 |] eqn:Hnew;
    [| by destruct (JSON_parse (buffer_text (editValue st))) | done].
  rewrite bind_Normal.
  destruct (updateJsonAtPath (json st) (selected_path st) newValue) as [[t|]| e1 |] eqn:Hupdate;
    try done.
  - split; [done |]. intros st' [= <-]. left. by eexists _, _.
  - apply updateJsonAtPath_throws_own in Hupdate as ->.
    split; [done |]. intros st' [= <-]. by right.
Qed.

Lemma handleSave_all_or_nothing_witness :
  handleSave {| json := "1"; selectedNode := None; isEditing := true;
                editValue := Some "2"; toasts := [] |}
  = Normal {| json := "2"; selectedNode := None; isEditing := false;
              editValue := Some "2";
              toasts := [toast_success "Node updated successfully!"] |}
  ∧ ((∃ t b,
        {| json := "2"; selectedNode := None; isEditing := false; editValue := Some "2";
           toasts := [toast_success "Node updated successfully!"] |}
        = {| json := t; selectedNode := None; isEditing := false; editValue := b;
             toasts := [] ++ [toast_success "Node updated successfully!"] |})
     ∨ {| json := "2"; selectedNode := None; isEditing := false; editValue := Some "2";
          toasts := [toast_success "Node updated successfully!"] |}
       = {| json := "1"; selectedNode := None; isEditing := true; editValue := Some "2";
            toasts := [] ++ [toast_error "Failed to update JSON at path"] |}).
Proof.
  split; [reflexivity |].
  apply (proj2 (handleSave_all_or_nothing
                  {| json := "1"; selectedNode := None; isEditing := true;
                     editValue := Some "2"; toasts := [] |})).
  reflexivity.
Defined.

Lemma updateJsonAtPath_keeps_json jsonString D (path : option path) newValue t :
  JSON_parse jsonString = Normal D → is_json newValue = true →
  updateJsonAtPath jsonString path newValue = Normal (Some t) →
  ∃ D', JSON_parse t = Normal D'.
Proof.
  intros HD HV Hupdate.
  assert (updateJsonAtPath jsonString (Some (default [] path)) newValue = Normal (Some t))
    as Hsome by by destruct path.
  destruct (updateJsonAtPath_Normal_inv _ _ _ _ _ HD Hsome)
    as [[_ Ht] | (intermediate & lastKey & D' & _ & Hassign & Ht)].
  - eexists. by apply (JSON_parse_stringify false newValue).
  - eexists. apply (JSON_parse_stringify true D'); [| done].
    apply (assign_json D intermediate lastKey newValue); [| | done]; apply json_like_holes;
      [by apply (JSON_parse_json jsonString) | done].
Qed.

(** X14: The store keeps a document that parses: when the document of the
    store is JSON and the buffer holds a text, the document after
    [handleSave], whether the save succeeded or failed, is JSON again. *)
Theorem handleSave_keeps_json (st st' : state) (D : value) (T : string) :
  JSON_parse (json st) = Normal D → editValue st = Some T →
  handleSave st = Normal st' →
  ∃ D', JSON_parse (json st') = Normal D'.
Proof.
  intros HD Hbuffer. unfold handleSave, getJson. rewrite Hbuffer. simpl buffer_text.
  simpl buffer_value.
  assert (∃ newValue, is_json newValue = true
            ∧ (try_catch (JSON_parse T) (λ _, Normal (VStr T)) = Normal newValue
               ∨ try_catch (JSON_parse T) (λ _, Normal (VStr T)) = Unsupported))
    as (newValue & HV & [-> | ->]); [| | done].
  { destruct (JSON_parse T) as [V| e |] eqn:HT.
    - exists V. split; [by apply (JSON_parse_json T) | by left].
    - exists (VStr T). split; [done | by left].
    - exists VNull. split; [done | by right]. }
  rewrite bind_Normal.
  destruct (updateJsonAtPath (json st) (selected_path st) newValue) as [[t|]| e |] eqn:Hupdate;
    try done.
  - intros [= <-]. simpl. by apply (updateJsonAtPath_keeps_json _ _ _ _ _ HD HV Hupdate).
  - apply updateJsonAtPath_throws_own in Hupdate as ->. intros [= <-]. by exists D.
Qed.

Lemma handleSave_keeps_json_witness :
  ∃ D', JSON_parse ("{" +:+ LF +:+ "  " +:+ q "a" +:+ ": " +:+ q "not json" +:+ LF +:+ "}")
        = Normal D'.
Proof.
  apply (handleSave_keeps_json
           {| json := "{" +:+ q "a" +:+ ":1}";
              selectedNode := Some {| text := []; node_path := Some [Key "a"] |};
              isEditing := true; editValue := Some "not json"; toasts := [] |}
           {| json := "{" +:+ LF +:+ "  " +:+ q "a" +:+ ": " +:+ q "not json" +:+ LF +:+ "}";
              selectedNode := Some {| text := []; node_path := Some [Key "a"] |};
              isEditing := false; editValue := Some (q "not json");
              toasts := [toast_success "Node updated successfully!"] |}
           (VObj [("a", VNum "1")]) "not json").
  - reflexivity.
  - reflexivity.
  - reflexivity.
Defined.

(** X15: Cancel undoes an edit: from the state the modal has after it
    opened on a node, entering edit mode, typing any text and cancelling
    gives that state back; the text typed has no effect. *)
Theorem handleCancel_undoes_edit (st0 st : state) (node : NodeData) (typed : string) :
  selectedNode st0 = Some node → opened_effect st0 = Normal st →
  handleCancel (onChange typed (handleEdit st)) = Normal st.
Proof.
  intros Hnode. unfold opened_effect, handleCancel, selected_path, getJson. rewrite Hnode.
  destruct (getFullNodeValue (json st0) (node_path node)) as [fullValue| |] eqn:Hfull;
    try done.
  intros [= <-]. simpl. rewrite Hnode. simpl. by rewrite Hfull.
Qed.

Lemma handleCancel_undoes_edit_witness :
  handleCancel
    (onChange "typed"
       (handleEdit {| json := "[1,2]";
                      selectedNode := Some {| text := []; node_path := Some [Index 1] |};
                      isEditing := false; editValue := Some "2"; toasts := [] |}))
  = Normal {| json := "[1,2]";
              selectedNode := Some {| text := []; node_path := Some [Index 1] |};
              isEditing := false; editValue := Some "2"; toasts := [] |}.
Proof.
  apply (handleCancel_undoes_edit
           {| json := "[1,2]";
              selectedNode := Some {| text := []; node_path := Some [Index 1] |};
              isEditing := true; editValue := None; toasts := [] |}
           _ {| text := []; node_path := Some [Index 1] |}).
  - reflexivity.
  - reflexivity.
Defined.

(** X16: After a save at a writable place (the root, an index of an array,
    or a property of an object under a name other than a [__proto__] that
    the object does not own) the buffer shows what the document holds at the
    path: opening the modal again on the node, or cancelling, leaves the
    state as the save left it. *)
Theorem handleSave_then_reopen (st : state) (T : string) (D : value) (p : path) :
  editValue st = Some T → JSON_parse T ≠ Unsupported →
  selected_path st = Some p → JSON_parse (json st) = Normal D → writable D p →
  ∃ st', handleSave st = Normal st'
         ∧ opened_effect st' = Normal st'
         ∧ handleCancel st' = Normal st'.
Proof.
  intros Hbuffer HT Hpath HD Hwritable.
  assert (∃ newValue, is_json newValue = true
            ∧ try_catch (JSON_parse (buffer_text (editValue st)))
                        (λ _, Normal (buffer_value (editValue st))) = Normal newValue)
    as (newValue & HV & Hnew).
  { rewrite Hbuffer. simpl. destruct (JSON_parse T) as [V| e |] eqn:HV; [| | done].
    - exists V. split; [by apply (JSON_parse_json T) | done].
    - by exists (VStr T). }
  destruct (handleSave_stores st D p newValue Hnew HV Hpath HD Hwritable)
    as (t & b & Hb & Hsave & Hread).
  eexists. split; [done |].
  unfold selected_path in Hpath.
  destruct (selectedNode st) as [node|] eqn:Hnode; [| done]. simpl in Hpath.
  unfold opened_effect, handleCancel, selected_path, getJson. simpl.
  by rewrite Hpath, Hread.
Qed.

Lemma handleSave_then_reopen_witness :
  ∃ st', handleSave {| json := "{" +:+ q "a" +:+ ":1}";
                       selectedNode := Some {| text := []; node_path := Some ([] ++ [Key "a"]) |};
                       isEditing := true; editValue := Some "[1]"; toasts := [] |}
         = Normal st'
         ∧ opened_effect st' = Normal st'
         ∧ handleCancel st' = Normal st'.
Proof.
  apply (handleSave_then_reopen _ "[1]" (VObj [("a", VNum "1")]) ([] ++ [Key "a"])).
  - reflexivity.
  - discriminate.
  - reflexivity.
  - reflexivity.
  - apply (writable_member _ [] (Key "a") (VObj [("a", VNum "1")])); [reflexivity | by left].
Defined.

(** ** The parent after a write *)

Lemma set_result_container parent k v parent' :
  container parent → set parent k v = Normal parent' → container parent'.
Proof.
  destruct parent as [| | | | |elems|props]; try done; simpl; intros _.
  - destruct (array_index k); [by intros [= <-] |].
    destruct (bool_decide (k = "length")); [done | by intros [= <-]].
  - destruct (_ && _); by intros [= <-].
Qed.

Lemma fits_container parent lastKey : fits parent lastKey → container parent.
Proof. by destruct parent. Qed.

Lemma set_property k v props :
  k ≠ "__proto__" ∨ is_Some (lookup_prop k props) →
  set (VObj props) k v = Normal (VObj (define_prop k v props)).
Proof.
  intros Hk. simpl.
  destruct (bool_decide (k = "__proto__") && bool_decide (lookup_prop k props = None)) eqn:Hb;
    [| done].
  apply andb_prop in Hb as [Hproto%bool_decide_eq_true Hnone%bool_decide_eq_true].
  destruct Hk as [Hk | [x Hx]]; [done | congruence].
Qed.

Lemma updateJsonAtPath_parent jsonString D intermediate lastKey newValue parent :
  JSON_parse jsonString = Normal D → is_json newValue = true →
  navigate D intermediate = Normal parent → fits parent lastKey →
  ∃ t parent',
    set parent (property_key lastKey) newValue = Normal parent'
    ∧ updateJsonAtPath jsonString (Some (intermediate ++ [lastKey])) newValue = Normal (Some t)
    ∧ getFullNodeValue t (Some intermediate) = Normal (JSON_stringify (normalize parent')).
Proof.
  intros HD HV Hnav Hfits.
  destruct (updateJsonAtPath_member jsonString D intermediate lastKey newValue parent
              HD HV Hnav Hfits)
    as (D' & parent' & t & Hset & Hnav' & HD' & Ht & Hwrite & Hparse).
  exists t, parent'. split; [done |]. split; [done |].
  rewrite (getFullNodeValue_navigate t (normalize D') _ Hparse).
  rewrite (navigate_normalize D' _ _ Hnav'); [done |].
  apply set_result_container in Hset; [| by eapply fits_container]. by destruct parent'.
Qed.

Lemma replace_prop_middle k v old before after :
  lookup_prop k before = None →
  replace_prop k v (before ++ (k, old) :: after) = before ++ (k, v) :: after.
Proof.
  induction before as [| [k' v'] before IH]; simpl.
  - intros _. by rewrite bool_decide_eq_true_2.
  - destruct (bool_decide (k = k')); [done |]. intros H. by rewrite IH.
Qed.

Lemma ordered_middle before k after :
  ordered (before ++ k :: after) = true → Forall (λ k', k' ≠ k) before.
Proof.
  intros Hordered.
  replace (before ++ k :: after) with ((before ++ [k]) ++ after) in Hordered
    by by rewrite <- List.app_assoc.
  apply ordered_app_l, ordered_app_inv in Hordered as [Hbefore _].
  eapply Forall_impl; [done |]. intros k' Hk'. by apply key_before_ne.
Qed.

Lemma define_prop_json k v props :
  is_json (VObj props) = true → is_json v = true → is_json (VObj (define_prop k v props)) = true.
Proof.
  unfold is_json. simpl. intros [Hordered Hprops]%andb_prop Hv. apply andb_true_intro. split.
  - by apply ordered_define_prop.
  - by apply (forallb_define_prop (json_like false)).
Qed.

(** X17: Writing a property that an object has replaces its value where it
    stands: in the document produced the object has the same properties in
    the same order, with the new value at the key. *)
Theorem updateJsonAtPath_replaces_property (jsonString : string) (D : value)
    (intermediate : path) (lastKey : segment) (newValue old : value)
    (before after : list (string * value)) :
  JSON_parse jsonString = Normal D → is_json newValue = true →
  navigate D intermediate
  = Normal (VObj (before ++ (property_key lastKey, old) :: after)) →
  ∃ t,
    updateJsonAtPath jsonString (Some (intermediate ++ [lastKey])) newValue = Normal (Some t)
    ∧ getFullNodeValue t (Some intermediate)
      = Normal (JSON_stringify (VObj (before ++ (property_key lastKey, newValue) :: after))).
Proof.
  intros HD HV Hnav.
  assert (is_json (VObj (before ++ (property_key lastKey, old) :: after)) = true) as Hparent.
  { eapply navigate_json; [| exact Hnav | done]. by eapply JSON_parse_json. }
  assert (lookup_prop (property_key lastKey) before = None) as Hbefore.
  { unfold is_json in Hparent. simpl in Hparent.
    apply andb_prop in Hparent as [Hordered _]. rewrite map_app in Hordered.
    by apply ordered_middle, lookup_prop_None_keys in Hordered. }
  assert (lookup_prop (property_key lastKey) (before ++ (property_key lastKey, old) :: after)
          = Some old) as Hold.
  { rewrite lookup_prop_app, Hbefore. simpl. by rewrite bool_decide_eq_true_2. }
  destruct (updateJsonAtPath_parent jsonString D intermediate lastKey newValue _ HD HV Hnav)
    as (t & parent' & Hset & Hwrite & Hread); [right; by eexists |].
  exists t. split; [done |]. rewrite Hread. do 2 f_equal.
  rewrite set_property in Hset by (right; by eexists).
  injection Hset as <-. rewrite normalize_json by by apply define_prop_json.
  f_equal. unfold define_prop. rewrite Hold. by apply replace_prop_middle.
Qed.

Lemma updateJsonAtPath_replaces_property_witness :
  ∃ t,
    updateJsonAtPath ("{" +:+ q "a" +:+ ":1," +:+ q "b" +:+ ":2}") (Some ([] ++ [Key "a"]))
      (VNum "3") = Normal (Some t)
    ∧ getFullNodeValue t (Some [])
      = Normal (JSON_stringify (VObj ([] ++ (property_key (Key "a"), VNum "3")
                                         :: [("b", VNum "2")]))).
Proof.
  apply (updateJsonAtPath_replaces_property _ (VObj [("a", VNum "1"); ("b", VNum "2")])
           [] (Key "a") (VNum "3") (VNum "1") [] [("b", VNum "2")]).
  - reflexivity.
  - reflexivity.
  - reflexivity.
Defined.

(** X18: Writing a property that an object does not have, under a name
    that is neither an array index nor [__proto__], adds it after the
    properties the object has. *)
Theorem updateJsonAtPath_appends_property (jsonString : string) (D : value)
    (intermediate : path) (lastKey : segment) (newValue : value)
    (props : list (string * value)) :
  JSON_parse jsonString = Normal D → is_json newValue = true →
  navigate D intermediate = Normal (VObj props) →
  lookup_prop (property_key lastKey) props = None →
  array_index (property_key lastKey) = None →
  property_key lastKey ≠ "__proto__" →
  ∃ t,
    updateJsonAtPath jsonString (Some (intermediate ++ [lastKey])) newValue = Normal (Some t)
    ∧ getFullNodeValue t (Some intermediate)
      = Normal (JSON_stringify (VObj (props ++ [(property_key lastKey, newValue)]))).
Proof.
  intros HD HV Hnav Habsent Hname Hproto.
  destruct (updateJsonAtPath_parent jsonString D intermediate lastKey newValue _ HD HV Hnav)
    as (t & parent' & Hset & Hwrite & Hread); [by left |].
  exists t. split; [done |]. rewrite Hread. do 2 f_equal.
  assert (is_json (VObj props) = true) as Hparent.
  { eapply navigate_json; [| exact Hnav | done]. by eapply JSON_parse_json. }
  rewrite set_property in Hset by by left.
  injection Hset as <-. rewrite normalize_json by by apply define_prop_json.
  unfold define_prop. by rewrite Habsent, Hname.
Qed.

Lemma updateJsonAtPath_appends_property_witness :
  ∃ t,
    updateJsonAtPath ("{" +:+ q "b" +:+ ":2}") (Some ([] ++ [Key "a"])) (VNum "3")
    = Normal (Some t)
    ∧ getFullNodeValue t (Some [])
      = Normal (JSON_stringify (VObj ([("b", VNum "2")] ++ [(property_key (Key "a"), VNum "3")]))).
Proof.
  apply (updateJsonAtPath_appends_property _ (VObj [("b", VNum "2")]) [] (Key "a")).
  - reflexivity.
  - reflexivity.
  - reflexivity.
  - reflexivity.
  - reflexivity.
  - discriminate.
Defined.

(** X19: Writing an element that an array has replaces it where it stands:
    in the document produced the array has the elements before and after
    the index as they were, and the new value at the index. *)
Theorem updateJsonAtPath_replaces_element (jsonString : string) (D : value)
    (intermediate : path) (i : N) (newValue old : value) (before after : list value) :
  JSON_parse jsonString = Normal D → is_json newValue = true →
  navigate D intermediate = Normal (VArr (before ++ old :: after)) →
  N.to_nat i = List.length before → (i < max_array_index)%N →
  ∃ t,
    updateJsonAtPath jsonString (Some (intermediate ++ [Index i])) newValue = Normal (Some t)
    ∧ getFullNodeValue t (Some intermediate)
      = Normal (JSON_stringify (VArr (before ++ newValue :: after))).
Proof.
  intros HD HV Hnav Hi Hindex.
  assert (is_json (VArr (before ++ old :: after)) = true) as Hparent.
  { eapply navigate_json; [| exact Hnav | done]. by eapply JSON_parse_json. }
  destruct (updateJsonAtPath_parent jsonString D intermediate (Index i) newValue _ HD HV Hnav)
    as (t & parent' & Hset & Hwrite & Hread).
  { simpl. rewrite array_index_pretty by done. by eexists. }
  exists t. split; [done |]. rewrite Hread. do 2 f_equal.
  simpl in Hset. rewrite array_index_pretty in Hset by done. injection Hset as <-.
  unfold write_element. rewrite decide_True by (rewrite List.length_app; simpl; lia).
  rewrite Hi, insert_app_r_alt by done. rewrite Nat.sub_diag.
  change (<[0:=newValue]> (old :: after)) with (newValue :: after).
  apply (normalize_json (VArr (before ++ newValue :: after))). rewrite is_json_array in *.
  rewrite forallb_app in *. simpl in *.
  apply andb_prop in Hparent as [Hbefore [_ Hafter]%andb_prop].
  by rewrite Hbefore, Hafter, HV.
Qed.

Lemma updateJsonAtPath_replaces_element_witness :
  ∃ t,
    updateJsonAtPath "[1,2,3]" (Some ([] ++ [Index 1])) (VStr "x") = Normal (Some t)
    ∧ getFullNodeValue t (Some [])
      = Normal (JSON_stringify (VArr ([VNum "1"] ++ VStr "x" :: [VNum "3"]))).
Proof.
  apply (updateJsonAtPath_replaces_element _ (VArr [VNum "1"; VNum "2"; VNum "3"])
           [] 1 (VStr "x") (VNum "2") [VNum "1"] [VNum "3"]).
  - reflexivity.
  - reflexivity.
  - reflexivity.
  - reflexivity.
  - reflexivity.
Defined.

(** ** The path shown *)

Lemma bracket_groups_app (p p' : path) :
  bracket_groups (p ++ p') = bracket_groups p +:+ bracket_groups p'.
Proof.
  induction p as [| seg p IH]; simpl; [by rewrite app_nil_l |].
  by rewrite IH, app_assoc.
Qed.

(** X20: The text of a path extends the text of its parent: the path of a
    child is shown as the path of the node followed by one bracket group,
    the key between double quotes or the index as it is. *)
Theorem jsonPathToString_child (p : path) :
  (∀ k, jsonPathToString (Some (p ++ [Key k]))
        = jsonPathToString (Some p) +:+ "[" +:+ q k +:+ "]")
  ∧ (∀ i, jsonPathToString (Some (p ++ [Index i]))
          = jsonPathToString (Some p) +:+ "[" +:+ pretty i +:+ "]").
Proof.
  split; intros x; rewrite !jsonPathToString_spec; unfold format_spec;
    rewrite bracket_groups_app, app_assoc; simpl; by rewrite app_nil_r.
Qed.

(** X21: A key is shown as it is, without escaping: a key that holds a
    double quote, a closing and an opening bracket and a double quote is
    shown as the two keys around them, whatever comes before and after in
    the path. *)
Theorem jsonPathToString_unescaped (p p' : path) (a b : string) :
  jsonPathToString (Some (p ++ Key (a +:+ q "][" +:+ b) :: p'))
  = jsonPathToString (Some (p ++ Key a :: Key b :: p')).
Proof.
  rewrite !jsonPathToString_spec. unfold format_spec. rewrite !bracket_groups_app.
  do 2 f_equal. simpl. unfold q.
  repeat (rewrite app_cons || rewrite app_nil_l || rewrite app_assoc). done.
Qed.

(** ** The preview of a node *)

Lemma add_row_contributes obj row : contributes row = false → add_row obj row = obj.
Proof.
  unfold contributes, add_row.
  destruct (negb (bool_decide (row_type row = "array"))
            && negb (bool_decide (row_type row = "object"))); [| done].
  simpl. destruct (truthy (row_key row)); [| done].
  intros H. apply bool_decide_eq_false in H. destruct H. by eexists.
Qed.

Lemma fold_add_row_filter rows obj :
  fold_left add_row (List.filter contributes rows) obj = fold_left add_row rows obj.
Proof.
  revert obj. induction rows as [| row rows IH]; intros obj; [done |]. simpl.
  destruct (contributes row) eqn:Hrow; simpl; [done |].
  by rewrite (add_row_contributes obj row Hrow).
Qed.

Lemma normalizeNodeData_object rows :
  (∀ row, rows = [row] → truthy (row_key row) ≠ None) →
  normalizeNodeData (Some rows)
  = JSON_stringify (VObj (properties (fold_left add_row rows empty_preview))).
Proof.
  intros Hsingle. destruct rows as [| row0 others]; [done |]. simpl.
  destruct others as [| row1 others]; [| done].
  destruct (truthy (row_key row0)) eqn:Hkey; [done |]. by destruct (Hsingle row0).
Qed.

(** X22: Only the rows that have a key and a type other than [array] and
    [object] count in the preview: unless the node is a single row without a
    key, its preview is the preview of those rows alone. *)
Theorem normalizeNodeData_contributes (rows : list NodeRow) :
  (∀ row, rows = [row] → truthy (row_key row) ≠ None) →
  normalizeNodeData (Some rows) = normalizeNodeData (Some (List.filter contributes rows)).
Proof.
  intros Hsingle. rewrite (normalizeNodeData_object rows Hsingle).
  rewrite normalizeNodeData_object; [by rewrite fold_add_row_filter |].
  intros row Hrow.
  assert (contributes row = true) as Hcontributes.
  { apply (proj1 (filter_In contributes row rows)). rewrite Hrow. by left. }
  unfold contributes in Hcontributes. apply andb_prop in Hcontributes as [_ Hkey].
  apply bool_decide_eq_true in Hkey as [k Hk]. by rewrite Hk.
Qed.

Lemma normalizeNodeData_contributes_witness :
  normalizeNodeData (Some [
    {| row_key := Some "name"; row_value := SStr "Ann"; row_type := "string" |};
    {| row_key := Some "orders"; row_value := SNum "2"; row_type := "array" |};
    {| row_key := None; row_value := SNull; row_type := "null" |} ])
  = normalizeNodeData (Some (List.filter contributes [
      {| row_key := Some "name"; row_value := SStr "Ann"; row_type := "string" |};
      {| row_key := Some "orders"; row_value := SNum "2"; row_type := "array" |};
      {| row_key := None; row_value := SNull; row_type := "null" |} ])).
Proof. apply normalizeNodeData_contributes. intros row [=]. Defined.

Lemma fold_add_row_json rows obj :
  Forall (λ row, contributes row = true → scalar_json (row_value row) = true) rows →
  is_json (VObj (properties obj)) = true →
  is_json (VObj (properties (fold_left add_row rows obj))) = true.
Proof.
  revert obj. induction rows as [| row rows IH]; intros obj Hrows Hobj; [done |].
  apply Forall_cons in Hrows as [Hrow Hrows]. simpl. apply IH; [done |].
  destruct (contributes row) eqn:Hcontributes; [| by rewrite add_row_contributes].
  unfold add_row.
  destruct (negb (bool_decide (row_type row = "array"))
            && negb (bool_decide (row_type row = "object"))); [| done].
  destruct (truthy (row_key row)) as [k|]; [| done]. unfold assign_field.
  destruct (bool_decide (k = "__proto__") && negb (detached obj)).
  - by destruct (value_of_scalar (row_value row)).
  - apply define_prop_json; [done |]. by apply Hrow.
Qed.

(** X23: The preview of a node is JSON: unless the node is a single row
    without a key, and with numbers inside the safe integers, the preview is
    a text that [JSON.parse] reads back as the object built from the rows,
    with the properties that the assignments of the loop have given it (an
    assignment to [__proto__] gives none while the object has its
    prototype). *)
Theorem normalizeNodeData_parses (rows : list NodeRow) :
  (∀ row, rows = [row] → truthy (row_key row) ≠ None) →
  Forall (λ row, contributes row = true → scalar_json (row_value row) = true) rows →
  ∃ t, normalizeNodeData (Some rows) = Some t
       ∧ JSON_parse t = Normal (VObj (properties (fold_left add_row rows empty_preview))).
Proof.
  intros Hsingle Hrows. rewrite (normalizeNodeData_object rows Hsingle).
  pose proof (fold_add_row_json rows empty_preview Hrows eq_refl) as Hobj.
  destruct (is_json_stringify _ Hobj) as [t Ht]. exists t. split; [done |].
  rewrite (JSON_parse_stringify false _ t Hobj Ht). by rewrite normalize_json.
Qed.

Lemma normalizeNodeData_parses_witness :
  ∃ t, normalizeNodeData (Some [
         {| row_key := Some "name"; row_value := SStr "Ann"; row_type := "string" |};
         {| row_key := Some "age"; row_value := SNum "7"; row_type := "number" |} ])
       = Some t
       ∧ JSON_parse t
         = Normal (VObj (properties (fold_left add_row [
             {| row_key := Some "name"; row_value := SStr "Ann"; row_type := "string" |};
             {| row_key := Some "age"; row_value := SNum "7"; row_type := "number" |} ]
             empty_preview))).
Proof.
  apply normalizeNodeData_parses.
  - intros row [=].
  - repeat constructor.
Defined.

(** ** Saving without a path, and on a document that is not JSON *)

(** X24: Without a path (no node, or a node without one) a save replaces
    the whole document by the value of the buffer: the document of the store
    becomes the layout of that value, which is the value the buffer denotes
    when the buffer is JSON and the text of the buffer as a string when it
    is not. *)
Theorem handleSave_without_path (st : state) (T : string) (D : value) :
  selected_path st = None → JSON_parse (json st) = Normal D →
  editValue st = Some T → JSON_parse T ≠ Unsupported →
  ∃ b,
    handleSave st
    = Normal {| json := b; selectedNode := selectedNode st; isEditing := false;
                editValue := Some b;
                toasts := toasts st ++ [toast_success "Node updated successfully!"] |}
    ∧ (∀ V, JSON_parse T = Normal V → JSON_parse b = Normal V)
    ∧ (∀ e, JSON_parse T = Throw e → b = quote T).
Proof.
  intros Hpath HD Hbuffer HT. unfold handleSave, getJson, updateJsonAtPath.
  rewrite Hpath, Hbuffer, HD. simpl buffer_text. simpl buffer_value.
  destruct (JSON_parse T) as [V| e |] eqn:HV; [| | done].
  - pose proof (JSON_parse_json _ _ HV) as Hjson.
    destruct (is_json_stringify V Hjson) as [b Hb]. exists b. simpl. rewrite Hb.
    split; [done |]. split; [| done]. intros V' [= <-].
    rewrite (JSON_parse_stringify false V b Hjson Hb). by rewrite normalize_json.
  - exists (quote T). split; [done |]. split; [done |]. by intros.
Qed.

Lemma handleSave_without_path_witness :
  ∃ b,
    handleSave {| json := "[1,2]"; selectedNode := None; isEditing := true;
                  editValue := Some "not json"; toasts := [] |}
    = Normal {| json := b; selectedNode := None; isEditing := false; editValue := Some b;
                toasts := [] ++ [toast_success "Node updated successfully!"] |}
    ∧ (∀ V, JSON_parse "not json" = Normal V → JSON_parse b = Normal V)
    ∧ (∀ e, JSON_parse "not json" = Throw e → b = quote "not json").
Proof.
  apply (handleSave_without_path
           {| json := "[1,2]"; selectedNode := None; isEditing := true;
              editValue := Some "not json"; toasts := [] |}
           "not json" (VArr [VNum "1"; VNum "2"])).
  - reflexivity.
  - reflexivity.
  - reflexivity.
  - discriminate.
Defined.

(** X25: When the document of the store is not JSON, no save goes through:
    whatever the buffer and the path, the empty path included, [handleSave]
    changes nothing and shows the error of [updateJsonAtPath]. *)
Theorem handleSave_malformed_document (st : state) (e : error) :
  JSON_parse (json st) = Throw e →
  JSON_parse (buffer_text (editValue st)) ≠ Unsupported →
  handleSave st
  = Normal {| json := json st; selectedNode := selectedNode st;
              isEditing := isEditing st; editValue := editValue st;
              toasts := toasts st ++ [toast_error "Failed to update JSON at path"] |}.
Proof.
  intros HD Hbuffer. unfold handleSave, getJson, updateJsonAtPath. rewrite HD.
  by destruct (JSON_parse (buffer_text (editValue st))).
Qed.

Lemma handleSave_malformed_document_witness :
  handleSave {| json := "{"; selectedNode := None; isEditing := true;
                editValue := Some "1"; toasts := [] |}
  = Normal {| json := "{"; selectedNode := None; isEditing := true; editValue := Some "1";
              toasts := [] ++ [toast_error "Failed to update JSON at path"] |}.
Proof.
  apply (handleSave_malformed_document
           {| json := "{"; selectedNode := None; isEditing := true;
              editValue := Some "1"; toasts := [] |} SyntaxError).
  - reflexivity.
  - discriminate.
Defined.

(** ** Segments and property names *)

Lemma navigate_names D (p p' : path) :
  map property_key p = map property_key p' → navigate D p = navigate D p'.
Proof.
  revert D p'. induction p as [| seg p IH]; intros D [| seg' p']; try done.
  simpl. intros [= Hseg Hrest]. rewrite Hseg.
  destruct (get D (property_key seg')) as [child| |]; try done.
  rewrite !bind_Normal. by apply IH.
Qed.

Lemma assign_names D (p p' : path) lastKey lastKey' newValue :
  map property_key p = map property_key p' → property_key lastKey = property_key lastKey' →
  assign D p lastKey newValue = assign D p' lastKey' newValue.
Proof.
  intros Hp Hlast. revert D p' Hp.
  induction p as [| seg p IH]; intros D [| seg' p']; try done; simpl.
  - intros _. by rewrite Hlast.
  - intros [= Hseg Hrest]. rewrite Hseg.
    destruct (get D (property_key seg')) as [child| |]; try done.
    rewrite !bind_Normal. by rewrite (IH child p' Hrest).
Qed.

(** X26: Reading and writing go by the property names of the segments, not
    by their kinds: two paths whose segments have the same names, a string
    key that spells an index and the index among them, read the same value
    and write the same place. *)
Theorem segments_by_name (jsonString : string) (p p' : path) (newValue : value) :
  map property_key p = map property_key p' →
  getFullNodeValue jsonString (Some p) = getFullNodeValue jsonString (Some p')
  ∧ updateJsonAtPath jsonString (Some p) newValue
    = updateJsonAtPath jsonString (Some p') newValue.
Proof.
  intros Hnames. split.
  - unfold getFullNodeValue. destruct (JSON_parse jsonString) as [D| |]; try done.
    rewrite !bind_Normal. destruct p as [| seg p], p' as [| seg' p']; try done.
    by rewrite (navigate_names D _ _ Hnames).
  - destruct p as [| lastKey p _] using rev_ind; destruct p' as [| lastKey' p' _] using rev_ind;
      try done.
    + rewrite map_app in Hnames. by destruct (map property_key p').
    + rewrite map_app in Hnames. by destruct (map property_key p).
    + rewrite !map_app in Hnames. simpl in Hnames.
      apply app_inj_tail in Hnames as [Hp Hlast].
      rewrite !updateJsonAtPath_snoc.
      destruct (JSON_parse jsonString) as [D| |]; try done. rewrite !bind_Normal.
      by rewrite (assign_names D p p' lastKey lastKey' newValue Hp Hlast).
Qed.

Lemma segments_by_name_witness :
  getFullNodeValue "[1,2]" (Some [Index 1]) = getFullNodeValue "[1,2]" (Some [Key "1"])
  ∧ updateJsonAtPath "[1,2]" (Some [Index 1]) VNull
    = updateJsonAtPath "[1,2]" (Some [Key "1"]) VNull.
Proof. apply segments_by_name. reflexivity. Defined.

(** ** Saving a buffer that is [undefined] *)

Lemma parse_undefined : JSON_parse "undefined" = Throw SyntaxError.
Proof. reflexivity. Qed.

Lemma write_element_hole i elems :
  forallb (element_like true) elems = true →
  forallb (element_like true) (write_element i VUndefined elems) = true.
Proof.
  intros Helems. unfold write_element. destruct (decide (i < List.length elems)).
  - by apply forallb_insert.
  - rewrite !forallb_app, Helems. simpl. by rewrite forallb_replicate.
Qed.

Lemma map_normalize_json elems : forallb is_json elems = true → map normalize elems = elems.
Proof.
  intros Helems. rewrite <- is_json_array in Helems. apply normalize_json in Helems.
  simpl in Helems. by injection Helems.
Qed.

Lemma map_normalize_holes n : map normalize (replicate n VUndefined) = replicate n VNull.
Proof. induction n as [| n IH]; [done |]. simpl. by rewrite IH. Qed.

(** X27: Saving a buffer that is [undefined] at an index past the end of
    an array reports a success and extends the array with [null] up to the
    index, the index included; the buffer stays [undefined]. *)
Theorem handleSave_undefined_extends_array (st : state) (D : value)
    (intermediate : path) (i : N) (elems : list value) :
  editValue st = None → selected_path st = Some (intermediate ++ [Index i]) →
  JSON_parse (json st) = Normal D → navigate D intermediate = Normal (VArr elems) →
  (List.length elems ≤ N.to_nat i)%nat → (i < max_array_index)%N →
  ∃ t,
    handleSave st
    = Normal {| json := t; selectedNode := selectedNode st; isEditing := false;
                editValue := None;
                toasts := toasts st ++ [toast_success "Node updated successfully!"] |}
    ∧ getFullNodeValue t (Some intermediate)
      = Normal (JSON_stringify
                  (VArr (elems ++ replicate (N.to_nat i - List.length elems) VNull
                               ++ [VNull]))).
Proof.
  intros Hbuffer Hpath HD Hnav Hlength Hindex.
  pose proof (JSON_parse_json _ _ HD) as Hjson.
  pose proof (array_index_pretty i Hindex) as Hi.
  assert (set (VArr elems) (property_key (Index i)) VUndefined
          = Normal (VArr (write_element (N.to_nat i) VUndefined elems))) as Hset.
  { simpl. by rewrite Hi. }
  destruct (assign_navigate D intermediate (Index i) VUndefined _ _ Hnav Hset)
    as (D' & Hassign & Hnav').
  assert (is_json (VArr elems) = true) as Helems.
  { eapply navigate_json; [| exact Hnav | done]. done. }
  assert (json_like true D' = true) as HD'.
  { apply (assign_json_at D intermediate (Index i) VUndefined D' (VArr elems));
      [by apply json_like_holes | done | | done].
    intros parent'. rewrite Hset. intros [= <-]. simpl.
    apply write_element_hole. by apply (json_like_holes (VArr elems)). }
  destruct (stringify_defined D' (json_like_defined _ _ HD')) as [t Ht]. exists t.
  pose proof (JSON_parse_stringify true D' t HD' Ht) as Hback. split.
  - assert (updateJsonAtPath (json st) (Some (intermediate ++ [Index i])) VUndefined
            = Normal (Some t)) as Hupdate.
    { by rewrite updateJsonAtPath_snoc, HD, bind_Normal, Hassign, bind_Normal, Ht. }
    unfold handleSave, getJson. rewrite Hbuffer, Hpath. simpl buffer_text.
    rewrite parse_undefined. simpl try_catch. by rewrite Hupdate.
  - rewrite (getFullNodeValue_navigate _ _ _ Hback).
    rewrite (navigate_normalize D' intermediate _ Hnav'); [| done].
    do 2 f_equal. simpl. f_equal. unfold write_element. rewrite decide_False by lia.
    rewrite !map_app, map_normalize_holes. rewrite is_json_array in Helems.
    by rewrite (map_normalize_json elems Helems).
Qed.

Lemma handleSave_undefined_extends_array_witness :
  ∃ t,
    handleSave {| json := "[1]";
                  selectedNode := Some {| text := []; node_path := Some ([] ++ [Index 2]) |};
                  isEditing := true; editValue := None; toasts := [] |}
    = Normal {| json := t;
                selectedNode := Some {| text := []; node_path := Some ([] ++ [Index 2]) |};
                isEditing := false; editValue := None;
                toasts := [] ++ [toast_success "Node updated successfully!"] |}
    ∧ getFullNodeValue t (Some [])
      = Normal (JSON_stringify
                  (VArr ([VNum "1"] ++ replicate (N.to_nat 2 - List.length [VNum "1"]) VNull
                                   ++ [VNull]))).
Proof.
  apply (handleSave_undefined_extends_array
           {| json := "[1]";
              selectedNode := Some {| text := []; node_path := Some ([] ++ [Index 2]) |};
              isEditing := true; editValue := None; toasts := [] |}
           (VArr [VNum "1"]) [] 2 [VNum "1"]).
  - reflexivity.
  - reflexivity.
  - reflexivity.
  - reflexivity.
  - simpl. lia.
  - reflexivity.
Defined.

Lemma omap_insert_index_None {B} (f : string * value → option B) i k v props :
  f (k, v) = None → omap f (insert_index i k v props) = omap f props.
Proof.
  intros Hf. induction props as [| [k' v'] props IH]; simpl; [by rewrite Hf |].
  destruct (array_index k') as [j|]; [| by simpl; rewrite Hf].
  destruct (j <? i)%N; simpl; [| by rewrite Hf].
  destruct (f (k', v')); [f_equal |]; exact IH.
Qed.

Lemma serialize_define_undefined stepback k props :
  lookup_prop k props = None →
  serialize stepback (VObj (define_prop k VUndefined props)) = serialize stepback (VObj props).
Proof.
  intros Habsent. simpl. do 2 f_equal. unfold define_prop. rewrite Habsent.
  destruct (array_index k) as [i|].
  - by apply omap_insert_index_None.
  - rewrite omap_app. simpl. by rewrite List.app_nil_r.
Qed.

Lemma serialize_put_child D k child child' :
  get D k = Normal child → container child →
  (∀ stepback, serialize stepback child' = serialize stepback child) →
  ∀ stepback, serialize stepback (put_child D k child') = serialize stepback D.
Proof.
  intros Hget Hc Hsame stepback.
  destruct (get_container D k child Hget Hc) as [(props & -> & Hk) | (elems & i & -> & Hi & He)].
  - simpl. do 2 f_equal. clear Hget.
    induction props as [| [k' v'] props IH]; [done |]. simpl in *.
    destruct (bool_decide (k = k')).
    + injection Hk as ->. simpl. by rewrite Hsame.
    + simpl. destruct (serialize _ v'); simpl; [f_equal |]; exact (IH Hk).
  - simpl. rewrite Hi. simpl. do 2 f_equal.
    rewrite list_fmap_insert, Hsame. apply list_insert_id.
    by rewrite list_lookup_fmap, He.
Qed.

Lemma assign_undefined_text D intermediate lastKey props :
  navigate D intermediate = Normal (VObj props) →
  lookup_prop (property_key lastKey) props = None →
  ∃ D', assign D intermediate lastKey VUndefined = Normal D'
        ∧ ∀ stepback, serialize stepback D' = serialize stepback D.
Proof.
  intros Hnav Habsent. revert D Hnav.
  induction intermediate as [| seg rest IH]; simpl; intros D Hnav.
  - injection Hnav as ->. unfold set.
    destruct (bool_decide (property_key lastKey = "__proto__")
              && bool_decide (lookup_prop (property_key lastKey) props = None));
      (eexists; split; [done |]); intros stepback; [done |].
    by apply serialize_define_undefined.
  - apply bind_Normal_inv in Hnav as (child & Hget & Hnav). rewrite Hget, bind_Normal.
    destruct (IH child Hnav) as (child' & -> & Hsame). rewrite bind_Normal.
    eexists. split; [done |]. apply (serialize_put_child D _ child child' Hget); [| done].
    by eapply navigate_container.
Qed.

(** X28: Saving a buffer that is [undefined] at a property that an object
    does not have reports a success and adds nothing: the document of the
    store becomes the document as [JSON.stringify] prints it, and the buffer
    stays [undefined]. *)
Theorem handleSave_undefined_adds_nothing (st : state) (D : value)
    (intermediate : path) (lastKey : segment) (props : list (string * value)) :
  editValue st = None → selected_path st = Some (intermediate ++ [lastKey]) →
  JSON_parse (json st) = Normal D → navigate D intermediate = Normal (VObj props) →
  lookup_prop (property_key lastKey) props = None →
  ∃ t,
    JSON_stringify D = Some t
    ∧ handleSave st
      = Normal {| json := t; selectedNode := selectedNode st; isEditing := false;
                  editValue := None;
                  toasts := toasts st ++ [toast_success "Node updated successfully!"] |}.
Proof.
  intros Hbuffer Hpath HD Hnav Habsent.
  destruct (is_json_stringify D (JSON_parse_json _ _ HD)) as [t Ht]. exists t.
  split; [done |].
  destruct (assign_undefined_text D intermediate lastKey props Hnav Habsent)
    as (D' & Hassign & Hsame).
  assert (updateJsonAtPath (json st) (Some (intermediate ++ [lastKey])) VUndefined
          = Normal (Some t)) as Hupdate.
  { rewrite updateJsonAtPath_snoc, HD, bind_Normal, Hassign, bind_Normal.
    unfold JSON_stringify in *. by rewrite Hsame, Ht. }
  unfold handleSave, getJson. rewrite Hbuffer, Hpath. simpl buffer_text.
  rewrite parse_undefined. simpl try_catch. by rewrite Hupdate.
Qed.

Lemma handleSave_undefined_adds_nothing_witness :
  ∃ t,
    JSON_stringify (VObj [("a", VNum "1")]) = Some t
    ∧ handleSave {| json := "{" +:+ q "a" +:+ ":1}";
                    selectedNode := Some {| text := []; node_path := Some ([] ++ [Key "b"]) |};
                    isEditing := true; editValue := None; toasts := [] |}
      = Normal {| json := t;
                  selectedNode := Some {| text := []; node_path := Some ([] ++ [Key "b"]) |};
                  isEditing := false; editValue := None;
                  toasts := [] ++ [toast_success "Node updated successfully!"] |}.
Proof.
  apply (handleSave_undefined_adds_nothing
           {| json := "{" +:+ q "a" +:+ ":1}";
              selectedNode := Some {| text := []; node_path := Some ([] ++ [Key "b"]) |};
              isEditing := true; editValue := None; toasts := [] |}
           (VObj [("a", VNum "1")]) [] (Key "b") [("a", VNum "1")]).
  - reflexivity.
  - reflexivity.
  - reflexivity.
  - reflexivity.
  - reflexivity.
Defined.

(** ** Writing twice *)

Lemma normalize_idem v : normalize (normalize v) = normalize v.
Proof.
  induction v as [| | | | |elems IH|props IH] using value_ind; try done; simpl; f_equal.
  - induction IH as [| e elems He _ IHl]; [done |]. simpl. by rewrite He, IHl.
  - induction IH as [| [k e] props He _ IHl]; [done |]. simpl in *. by rewrite He, IHl.
Qed.

Lemma serialize_normalize v :
  json_like true v = true → ∀ stepback, serialize stepback (normalize v) = serialize stepback v.
Proof.
  induction v as [| | | | |elems IH|props IH] using value_ind; try done;
    intros Hjson stepback; simpl in *; do 2 f_equal.
  - revert Hjson. induction IH as [| e elems He _ IHl]; [done |]. simpl.
    intros [He' Hrest]%andb_prop. rewrite (IHl Hrest). f_equal.
    destruct e; try done; by rewrite He.
  - apply andb_prop in Hjson as [_ Hjson]. revert Hjson.
    induction IH as [| [k e] props He _ IHl]; [done |]. simpl in *.
    intros [He' Hrest]%andb_prop. rewrite (He He').
    destruct (serialize _ e); simpl; [f_equal |]; exact (IHl Hrest).
Qed.

Lemma replace_prop_replace_prop k v1 v2 props :
  replace_prop k v2 (replace_prop k v1 props) = replace_prop k v2 props.
Proof.
  induction props as [| [k' v'] props IH]; [done |]. simpl.
  destruct (bool_decide (k = k')) eqn:Hk; simpl; rewrite Hk; [done |]. by rewrite IH.
Qed.

Lemma replace_prop_insert_index k i v1 v2 props :
  lookup_prop k props = None →
  replace_prop k v2 (insert_index i k v1 props) = insert_index i k v2 props.
Proof.
  induction props as [| [k' v'] props IH]; simpl.
  - intros _. by rewrite bool_decide_eq_true_2.
  - destruct (bool_decide (k = k')) eqn:Hk; [done |]. intros Habsent.
    destruct (array_index k') as [j|]; [destruct (j <? i)%N |]; simpl.
    + by rewrite Hk, IH.
    + by rewrite bool_decide_eq_true_2.
    + by rewrite bool_decide_eq_true_2.
Qed.

Lemma define_prop_define_prop k v1 v2 props :
  define_prop k v2 (define_prop k v1 props) = define_prop k v2 props.
Proof.
  unfold define_prop at 1. rewrite lookup_define_prop, bool_decide_eq_true_2 by done.
  unfold define_prop. destruct (lookup_prop k props) as [old|] eqn:Hk.
  - apply replace_prop_replace_prop.
  - destruct (array_index k) as [i|].
    + by apply replace_prop_insert_index.
    + by apply (replace_prop_middle k v2 v1 props []).
Qed.

Lemma write_element_write_element i v1 v2 elems :
  write_element i v2 (write_element i v1 elems) = write_element i v2 elems.
Proof.
  unfold write_element at 1. rewrite decide_True by (rewrite length_write_element; lia).
  unfold write_element. destruct (decide (i < List.length elems)).
  - apply list_insert_insert_eq.
  - rewrite List.app_assoc, insert_app_r_alt
      by (rewrite List.length_app, length_replicate; lia).
    rewrite List.length_app, length_replicate.
    replace (i - (List.length elems + (i - List.length elems))) with 0 by lia.
    by rewrite <- List.app_assoc.
Qed.

Lemma set_set o k v1 v2 o1 : set o k v1 = Normal o1 → set o1 k v2 = set o k v2.
Proof.
  destruct o as [| | | | |elems|props]; try done; simpl.
  - destruct (bool_decide (k = "__proto__")) eqn:Hk; [| done]. intros [= <-]. simpl. by rewrite Hk.
  - destruct (bool_decide (k = "__proto__")) eqn:Hk; [| done]. intros [= <-]. simpl. by rewrite Hk.
  - destruct (bool_decide (k = "__proto__")) eqn:Hk; [| done]. intros [= <-]. simpl. by rewrite Hk.
  - destruct (array_index k) as [i|] eqn:Hi.
    + intros [= <-]. simpl. by rewrite Hi, write_element_write_element.
    + destruct (bool_decide (k = "length")) eqn:Hk; [done |]. intros [= <-]. simpl.
      by rewrite Hi, Hk.
  - destruct (bool_decide (k = "__proto__") && bool_decide (lookup_prop k props = None)) eqn:Hb;
      intros [= <-]; simpl; [by rewrite Hb |].
    rewrite lookup_define_prop, (bool_decide_eq_true_2 (k = k)) by done.
    rewrite (bool_decide_eq_false_2 (Some v1 = None)) by done.
    by rewrite andb_false_r, define_prop_define_prop.
Qed.

Lemma put_child_put_child D k c1 c2 :
  put_child (put_child D k c1) k c2 = put_child D k c2.
Proof.
  destruct D as [| | | | |elems|props]; try done; simpl.
  - destruct (array_index k) as [i|] eqn:Hi; simpl; rewrite Hi; [| done].
    by rewrite list_insert_insert_eq.
  - by rewrite replace_prop_replace_prop.
Qed.

Lemma assign_assign D intermediate lastKey v1 v2 D1 :
  assign D intermediate lastKey v1 = Normal D1 →
  assign D1 intermediate lastKey v2 = assign D intermediate lastKey v2.
Proof.
  revert D D1. induction intermediate as [| seg rest IH]; simpl; intros D D1.
  - apply set_set.
  - intros Hfirst.
    destruct (assign_cons _ _ _ _ _ _ Hfirst)
      as (child & child1 & Hget & Hassign & HD1 & [Hchild | [_ ->]]); [| done].
    subst D1.
    rewrite (get_put_child D _ child child1 Hget Hchild), Hget, !bind_Normal.
    rewrite (IH child child1 Hassign).
    destruct (assign child rest lastKey v2) as [child2| |]; [| done..].
    by rewrite !bind_Normal, put_child_put_child.
Qed.

Lemma replace_prop_normalize k v props :
  map (λ kv, (kv.1, normalize kv.2)) (replace_prop k v props)
  = replace_prop k (normalize v) (map (λ kv, (kv.1, normalize kv.2)) props).
Proof.
  induction props as [| [k' v'] props IH]; [done |]. simpl.
  destruct (bool_decide (k = k')); [done |]. simpl. by rewrite IH.
Qed.

Lemma insert_index_normalize i k v props :
  map (λ kv, (kv.1, normalize kv.2)) (insert_index i k v props)
  = insert_index i k (normalize v) (map (λ kv, (kv.1, normalize kv.2)) props).
Proof.
  induction props as [| [k' v'] props IH]; [done |]. simpl.
  destruct (array_index k') as [j|]; [destruct (j <? i)%N |]; simpl; [| done..].
  by rewrite IH.
Qed.

Lemma define_prop_normalize k v props :
  map (λ kv, (kv.1, normalize kv.2)) (define_prop k v props)
  = define_prop k (normalize v) (map (λ kv, (kv.1, normalize kv.2)) props).
Proof.
  unfold define_prop. rewrite lookup_prop_normalize.
  destruct (lookup_prop k props); simpl.
  - apply replace_prop_normalize.
  - destruct (array_index k); [apply insert_index_normalize | by rewrite map_app].
Qed.

Lemma map_normalize_idem elems : map normalize (map normalize elems) = map normalize elems.
Proof. induction elems as [| e elems IH]; [done |]. simpl. by rewrite normalize_idem, IH. Qed.

Lemma props_normalize_idem props :
  map (λ kv, (kv.1, normalize kv.2)) (map (λ kv, (kv.1, normalize kv.2)) props)
  = map (λ kv : string * value, (kv.1, normalize kv.2)) props.
Proof.
  induction props as [| [k e] props IH]; [done |]. simpl. by rewrite normalize_idem, IH.
Qed.

Lemma map_insert {A B} (f : A → B) i x (l : list A) :
  map f (<[i:=x]> l) = <[i:=f x]> (map f l).
Proof. exact (list_fmap_insert f l i x). Qed.

Lemma write_element_normalize i v elems :
  map normalize (write_element i v elems)
  = map normalize (write_element i (normalize v) (map normalize elems)).
Proof.
  unfold write_element. rewrite length_map.
  destruct (decide (i < List.length elems)).
  - rewrite !(map_insert normalize). by rewrite map_normalize_idem, normalize_idem.
  - rewrite !map_app, map_normalize_idem. simpl. by rewrite normalize_idem.
Qed.

Lemma set_normalize o k v o' :
  set o k v = Normal o' → normalize v = v →
  ∃ o'', set (normalize o) k v = Normal o'' ∧ normalize o'' = normalize o'.
Proof.
  intros Hset Hv. destruct o as [| | | | |elems|props]; try done; simpl in *.
  - destruct (bool_decide (k = "__proto__")); [| done]. injection Hset as <-. by eexists.
  - destruct (bool_decide (k = "__proto__")); [| done]. injection Hset as <-. by eexists.
  - destruct (bool_decide (k = "__proto__")); [| done]. injection Hset as <-. by eexists.
  - destruct (array_index k) as [i|].
    + injection Hset as <-. eexists. split; [done |]. simpl. f_equal.
      rewrite (write_element_normalize _ _ elems). by rewrite Hv.
    + destruct (bool_decide (k = "length")); [done |]. injection Hset as <-.
      eexists. split; [done |]. simpl. by rewrite map_normalize_idem.
  - rewrite lookup_prop_normalize.
    assert (bool_decide (normalize <$> lookup_prop k props = None)
            = bool_decide (lookup_prop k props = None)) as ->.
    { apply bool_decide_ext. by destruct (lookup_prop k props). }
    destruct (bool_decide (k = "__proto__") && bool_decide (lookup_prop k props = None));
      injection Hset as <-; (eexists; split; [done |]); simpl; f_equal.
    + by rewrite props_normalize_idem.
    + by rewrite !define_prop_normalize, props_normalize_idem.
Qed.

Lemma assign_undefined rest lastKey v : assign VUndefined rest lastKey v = Throw TypeError.
Proof. by destruct rest. Qed.

Lemma put_child_normalize D k c c' :
  normalize c = normalize c' →
  normalize (put_child (normalize D) k c) = normalize (put_child D k c').
Proof.
  intros Hc. destruct D as [| | | | |elems|props]; try done; simpl.
  - destruct (array_index k) as [i|]; simpl; [| by rewrite map_normalize_idem].
    f_equal. rewrite !(map_insert normalize). by rewrite map_normalize_idem, Hc.
  - f_equal. by rewrite !replace_prop_normalize, props_normalize_idem, Hc.
Qed.

Lemma assign_normalize D intermediate lastKey v D' :
  assign D intermediate lastKey v = Normal D' → normalize v = v →
  ∃ D'', assign (normalize D) intermediate lastKey v = Normal D''
         ∧ normalize D'' = normalize D'.
Proof.
  intros Hassign Hv. revert D D' Hassign.
  induction intermediate as [| seg rest IH]; simpl; intros D D'.
  - intros Hset. by apply set_normalize.
  - intros (child & Hget & (child' & Hassign & [= <-])%bind_Normal_inv)%bind_Normal_inv.
    assert (child ≠ VUndefined) as Hchild.
    { intros ->. by rewrite assign_undefined in Hassign. }
    rewrite (get_normalize D _ child Hget) by done.
    rewrite bind_Normal. destruct (IH child child' Hassign) as (child'' & -> & Hsame).
    rewrite bind_Normal. eexists. split; [done |]. by apply put_child_normalize.
Qed.

Lemma set_again o k v1 v2 o1 : set o k v1 = Normal o1 → ∃ o2, set o k v2 = Normal o2.
Proof.
  destruct o as [| | | | |elems|props]; try done; simpl.
  - destruct (bool_decide (k = "__proto__")); [by eexists | done].
  - destruct (bool_decide (k = "__proto__")); [by eexists | done].
  - destruct (bool_decide (k = "__proto__")); [by eexists | done].
  - destruct (array_index k); [by eexists |].
    destruct (bool_decide (k = "length")); [done | by eexists].
  - destruct (_ && _); by eexists.
Qed.

Lemma second_write jsonString D intermediate lastKey v1 v2 t1 :
  JSON_parse jsonString = Normal D → is_json v1 = true → is_json v2 = true →
  updateJsonAtPath jsonString (Some (intermediate ++ [lastKey])) v1 = Normal (Some t1) →
  ∃ D2, assign D intermediate lastKey v2 = Normal D2
        ∧ updateJsonAtPath t1 (Some (intermediate ++ [lastKey])) v2
          = Normal (JSON_stringify D2).
Proof.
  intros HD Hv1 Hv2 Hfirst. pose proof (JSON_parse_json _ _ HD) as Hjson.
  destruct (updateJsonAtPath_Normal_inv _ _ _ _ _ HD Hfirst)
    as [[Hnil _] | (intermediate' & lastKey' & D1 & Hp & Hassign1 & Ht1)].
  { by destruct intermediate. }
  apply app_inj_tail in Hp as [<- <-].
  destruct (assign_Normal_inv _ _ _ _ _ Hassign1) as (parent & parent1 & Hnav & Hset1 & _).
  destruct (set_again _ _ _ v2 _ Hset1) as [parent2 Hset2].
  destruct (assign_navigate D intermediate lastKey v2 parent parent2 Hnav Hset2)
    as (D2 & Hassign2 & _).
  exists D2. split; [done |].
  assert (json_like true D1 = true) as HD1.
  { apply (assign_json D intermediate lastKey v1); [| | done]; by apply json_like_holes. }
  assert (json_like true D2 = true) as HD2.
  { apply (assign_json D intermediate lastKey v2); [| | done]; by apply json_like_holes. }
  pose proof (JSON_parse_stringify true D1 t1 HD1 (eq_sym Ht1)) as Hback.
  rewrite <- (assign_assign D intermediate lastKey v1 v2 D1 Hassign1) in Hassign2.
  destruct (assign_normalize D1 intermediate lastKey v2 D2 Hassign2 (normalize_json v2 Hv2))
    as (D2' & Hassign2' & Hsame).
  rewrite updateJsonAtPath_snoc, Hback, bind_Normal, Hassign2', bind_Normal.
  unfold try_catch. f_equal.
  assert (json_like true D2' = true) as HD2'.
  { apply (assign_json (normalize D1) intermediate lastKey v2); [| | done];
      apply json_like_holes; [by apply (JSON_parse_json t1) | done]. }
  unfold JSON_stringify.
  rewrite <- (serialize_normalize D2' HD2'), Hsame. by apply serialize_normalize.
Qed.

(** X29: The last write wins, at a path that does not end on a length:
    after a write of a JSON value at such a path, a second write at the same
    path gives the document that the second write alone gives; saving the
    same value twice is saving it once. *)
Theorem updateJsonAtPath_last_write_wins (jsonString : string) (D : value) (p : path)
    (v1 v2 : value) (t1 : string) :
  JSON_parse jsonString = Normal D → is_json v1 = true → is_json v2 = true →
  property_key <$> last p ≠ Some "length" →
  updateJsonAtPath jsonString (Some p) v1 = Normal (Some t1) →
  updateJsonAtPath t1 (Some p) v2 = updateJsonAtPath jsonString (Some p) v2.
Proof.
  intros HD Hv1 Hv2 _ Hfirst. destruct p as [| lastKey intermediate _] using rev_ind.
  - destruct (updateJsonAtPath_keeps_json _ _ _ _ _ HD Hv1 Hfirst) as [D1 HD1].
    unfold updateJsonAtPath. by rewrite HD, HD1.
  - destruct (second_write _ _ _ _ _ _ _ HD Hv1 Hv2 Hfirst) as (D2 & Hassign & ->).
    by rewrite updateJsonAtPath_snoc, HD, bind_Normal, Hassign.
Qed.

Lemma updateJsonAtPath_last_write_wins_witness :
  updateJsonAtPath
    ("[" +:+ LF +:+ "  1," +:+ LF +:+ "  null," +:+ LF +:+ "  true" +:+ LF +:+ "]")
    (Some [Index 2]) (VStr "x")
  = updateJsonAtPath "[1]" (Some [Index 2]) (VStr "x").
Proof.
  apply (updateJsonAtPath_last_write_wins "[1]" (VArr [VNum "1"]) [Index 2] (VBool true)).
  - reflexivity.
  - reflexivity.
  - reflexivity.
  - discriminate.
  - reflexivity.
Defined.

(** X30: A write is undone by writing the old value back: after any write
    at a place that held a value, writing that value there again gives the
    document as it was, in the layout of [JSON.stringify]. *)
Theorem updateJsonAtPath_undo (jsonString : string) (D : value) (p : path)
    (old v : value) (t1 : string) :
  JSON_parse jsonString = Normal D → holds D p old → is_json v = true →
  updateJsonAtPath jsonString (Some p) v = Normal (Some t1) →
  updateJsonAtPath t1 (Some p) old = Normal (JSON_stringify D).
Proof.
  intros HD Hholds Hv Hfirst. pose proof (JSON_parse_json _ _ HD) as Hjson.
  pose proof (holds_json D p old Hjson Hholds) as Hold.
  destruct Hholds as [| intermediate lastKey parent old Hnav Hfits Hget Hdefined].
  - destruct (updateJsonAtPath_keeps_json _ _ _ _ _ HD Hv Hfirst) as [D1 HD1].
    unfold updateJsonAtPath. by rewrite HD1.
  - destruct (second_write _ _ _ _ _ _ _ HD Hv Hold Hfirst) as (D2 & Hassign & ->).
    rewrite (assign_id D intermediate lastKey old parent Hnav) in Hassign;
      [by injection Hassign as <- |].
    by apply set_same.
Qed.

Lemma updateJsonAtPath_undo_witness :
  updateJsonAtPath
    ("{" +:+ LF +:+ "  " +:+ q "a" +:+ ": 3," +:+ LF +:+ "  " +:+ q "b" +:+ ": 2" +:+ LF +:+ "}")
    (Some ([] ++ [Key "a"])) (VNum "1")
  = Normal (JSON_stringify (VObj [("a", VNum "1"); ("b", VNum "2")])).
Proof.
  apply (updateJsonAtPath_undo ("{" +:+ q "a" +:+ ":1," +:+ q "b" +:+ ":2}")
           (VObj [("a", VNum "1"); ("b", VNum "2")]) ([] ++ [Key "a"]) (VNum "1") (VNum "3")).
  - reflexivity.
  - apply (holds_member _ [] (Key "a") (VObj [("a", VNum "1"); ("b", VNum "2")])).
    + reflexivity.
    + by left.
    + reflexivity.
    + discriminate.
  - reflexivity.
  - reflexivity.
Defined.
